(** * Poster bot: posts, schedules, delivery and the composition handlers

    A shallow embedding of the TypeScript sources of the bot
    (postService.ts, telegramPublishService.ts, postSchedulerService.ts,
    validators.ts, sessionState.ts, mediaInput.ts, postCallbacks.ts,
    messageBuilder.ts) together with the properties checked on them.

    Conventions.
    - JavaScript numbers that hold identifiers, positions, sizes and
      timestamps are [Z]; strings are [string] (their bytes; every
      character the code inspects is ASCII).
    - Asynchronous functions are computations in the monad [M]: a state
      transformer over [State] whose result is either a value or a thrown
      error.  Writes made before a throw stay in the state, as they do in
      the database.
    - The outcome of every call that leaves the process (a Prisma query, a
      Telegram API request) is read from an oracle in the environment
      [Env], so that both the success and the failure of each call can be
      followed. *)

From Stdlib Require Import ZArith String Ascii List Bool Lia DecimalString DecimalPos
  Permutation.
Import ListNotations.
Local Open Scope Z_scope.
Local Open Scope list_scope.

Local Infix "+++" := String.append (right associativity, at level 60).

(** ** Prisma schema: enumerations and rows *)

Module PostStatus.
Inductive t : Type := DRAFT | SCHEDULED | PUBLISHED | FAILED.
Definition eqb (a b : t) : bool :=
  match a, b with
  | DRAFT, DRAFT | SCHEDULED, SCHEDULED | PUBLISHED, PUBLISHED | FAILED, FAILED => true
  | _, _ => false
  end.
End PostStatus.

Module ScheduleStatus.
Inductive t : Type := PENDING | PUBLISHED | FAILED | CANCELLED.
Definition eqb (a b : t) : bool :=
  match a, b with
  | PENDING, PENDING | PUBLISHED, PUBLISHED | FAILED, FAILED | CANCELLED, CANCELLED => true
  | _, _ => false
  end.
End ScheduleStatus.

Module MediaType.
Inductive t : Type := PHOTO | VIDEO | DOCUMENT | ANIMATION.
End MediaType.

Module Channel.
Record t : Type := mk {
  id : Z;
  channel_id : Z;
  channel_title : string;
  channel_username : option string;
  is_active : bool }.
End Channel.

(** [created_at] and [updated_at] are left out of the rows: no function
    embedded below reads them. *)
Module Post.
Record t : Type := mk {
  id : Z;
  channel_id : Z;
  text : string;
  status : PostStatus.t;
  published_at : option Z;
  telegram_message_id : option Z }.
End Post.

Module Media.
Record t : Type := mk {
  id : Z;
  post_id : Z;
  file_id : string;
  file_type : MediaType.t;
  file_size : option Z;
  caption : option string;
  position : Z }.
End Media.

Module PostButton.
Record t : Type := mk {
  id : Z;
  post_id : Z;
  text : string;
  url : string;
  row : Z;
  position : Z }.
End PostButton.

Module Schedule.
Record t : Type := mk {
  id : Z;
  post_id : Z;
  scheduled_at : Z;
  published_at : option Z;
  status : ScheduleStatus.t;
  attempts : Z;
  last_error : option string }.
End Schedule.

Module PostStatistics.
Record t : Type := mk {
  id : Z;
  post_id : Z;
  views_count : Z;
  forwards_count : Z;
  reactions_count : Z }.
End PostStatistics.

(** The relational store.  Tables are lists in insertion order; the
    [next_*] fields are the autoincrement sequences. *)
Record DB : Type := mkDB {
  channels : list Channel.t;
  posts : list Post.t;
  media : list Media.t;
  buttons : list PostButton.t;
  schedules : list Schedule.t;
  statistics : list PostStatistics.t;
  next_post_id : Z;
  next_media_id : Z;
  next_button_id : Z;
  next_schedule_id : Z }.

(** A post with the relations [getPostById] includes. *)
Module PostFull.
Record t : Type := mk {
  post : Post.t;
  channel : option Channel.t;
  media : list Media.t;
  buttons : list PostButton.t;
  schedule : option Schedule.t;
  statistics : option PostStatistics.t }.
End PostFull.

(** ** Session data (types/session.ts) *)

Module SessionMediaFile.
Record t : Type := mk {
  fileId : string;
  fileType : MediaType.t;
  fileSize : option Z;
  caption : option string;
  position : Z }.
End SessionMediaFile.

Module SessionButton.
Record t : Type := mk {
  text : string;
  url : string;
  row : Z;
  position : Z }.
End SessionButton.

Inductive Step : Type :=
  step_channel | step_text | step_media | step_buttons | step_time | step_preview.

(** Every field of a draft is optional in the source ([Partial<PostDraft>]
    is the same type); [None] is an absent key. *)
Module PostDraft.
Record t : Type := mk {
  id : option Z;
  channelId : option Z;
  text : option string;
  mediaFiles : option (list SessionMediaFile.t);
  buttons : option (list SessionButton.t);
  scheduledAt : option Z;
  status : option PostStatus.t;
  step : option Step }.
Definition empty : t := mk None None None None None None None None.
End PostDraft.

Inductive InputType : Type := input_text | input_media | input_button.

Module AwaitingInput.
Record t : Type := mk { type : InputType; messageId : Z }.
End AwaitingInput.

Inductive Operation : Type := op_newpost | op_editpost | op_schedule | op_drafts.

(** [ctx.session].  The session middleware is installed with
    [initial: () => ({})], so the object is always there; the calendar view
    and pagination keys are not touched by the handlers embedded here and
    are left out. *)
Module Session.
Record t : Type := mk {
  postDraft : option PostDraft.t;
  awaitingInput : option AwaitingInput.t;
  currentOperation : option Operation }.
Definition empty : t := mk None None None.
End Session.

(** ** Telegram requests *)

Definition KeyboardButton : Type := (string * string)%type.
Definition InlineKeyboard : Type := list (list KeyboardButton).

Inductive InputMediaKind : Type := im_photo | im_video | im_document.

Module InputMedia.
Record t : Type := mk {
  kind : InputMediaKind;
  media : string;
  caption : option string }.
End InputMedia.

(** The requests issued by the embedded code: the [bot.api] sends to a
    channel and the two [ctx] calls that answer the admin. *)
Inductive ApiCall : Type :=
| sendMessage (chat_id : Z) (text : string) (reply_markup : option InlineKeyboard)
| sendPhoto (chat_id : Z) (file_id : string) (caption : string) (reply_markup : option InlineKeyboard)
| sendVideo (chat_id : Z) (file_id : string) (caption : string) (reply_markup : option InlineKeyboard)
| sendDocument (chat_id : Z) (file_id : string) (caption : string) (reply_markup : option InlineKeyboard)
| sendAnimation (chat_id : Z) (file_id : string) (caption : string) (reply_markup : option InlineKeyboard)
| sendMediaGroup (chat_id : Z) (items : list InputMedia.t)
| reply (text : string)
| editMessageText (text : string).

Inductive TgOutcome : Type :=
| Delivered (message_id : Z)
| Rejected (description : string).

(** ** The environment, the state and the monad of asynchronous functions *)

(** What the process cannot change: the answers of the store and of the
    platform, the clock, and whether the scheduler was given a bot. *)
Record Env : Type := mkEnv {
  (** [dbFault n = Some e]: the [n]-th Prisma call rejects with message [e] *)
  dbFault : nat -> option string;
  (** outcome of the [n]-th Telegram request *)
  tgResult : nat -> TgOutcome;
  (** value of [new Date()] *)
  clock : Z;
  (** [botInstance] of postSchedulerService.ts, [false] for [null] *)
  botInstance : bool }.

Record State : Type := mkState {
  db : DB;
  session : Session.t;
  (** requests sent so far, oldest first, each with its outcome *)
  apiLog : list (ApiCall * TgOutcome);
  (** number of Prisma calls and of Telegram requests made so far *)
  dbCalls : nat;
  tgCalls : nat }.

Definition set_db (d : DB) (st : State) : State :=
  mkState d (session st) (apiLog st) (dbCalls st) (tgCalls st).

Definition set_session (s : Session.t) (st : State) : State :=
  mkState (db st) s (apiLog st) (dbCalls st) (tgCalls st).

Definition count_db_call (st : State) : State :=
  mkState (db st) (session st) (apiLog st) (S (dbCalls st)) (tgCalls st).

Definition log_api_call (c : ApiCall) (outcome : TgOutcome) (st : State) : State :=
  mkState (db st) (session st) (apiLog st ++ [(c, outcome)]) (dbCalls st) (S (tgCalls st)).

Inductive Res (A : Type) : Type :=
| Ok (a : A)
| Throw (e : string).
Arguments Ok {A} a.
Arguments Throw {A} e.

Definition M (A : Type) : Type := Env -> State -> Res A * State.

Definition ret {A : Type} (a : A) : M A := fun _ st => (Ok a, st).

Definition throw {A : Type} (e : string) : M A := fun _ st => (Throw e, st).

Definition bind {A B : Type} (m : M A) (k : A -> M B) : M B :=
  fun env st =>
    match m env st with
    | (Ok a, st1) => k a env st1
    | (Throw e, st1) => (Throw e, st1)
    end.

(** [try { m } catch (error) { h error }] *)
Definition try_catch {A : Type} (m : M A) (h : string -> M A) : M A :=
  fun env st =>
    match m env st with
    | (Ok a, st1) => (Ok a, st1)
    | (Throw e, st1) => h e env st1
    end.

Declare Scope m_scope.
Delimit Scope m_scope with M.
Notation "x <- m ;; k" := (bind m (fun x => k))
  (at level 61, m at next level, right associativity) : m_scope.
Notation "m ;; k" := (bind m (fun _ => k))
  (at level 61, right associativity) : m_scope.
Local Open Scope m_scope.

(** [for (const x of xs) { body x }] *)
Fixpoint for_of {A : Type} (xs : list A) (body : A -> M unit) : M unit :=
  match xs with
  | [] => ret tt
  | x :: rest => body x ;; for_of rest body
  end.

(** One Prisma call: counted, rejected when the oracle says so, otherwise
    run against the store. *)
Definition prisma {A : Type} (query : DB -> Res A * DB) : M A :=
  fun env st =>
    match dbFault env (dbCalls st) with
    | Some e => (Throw e, count_db_call st)
    | None => let (r, d) := query (db st) in (r, set_db d (count_db_call st))
    end.

(** One Telegram request; resolves to the [message_id] of the sent
    message or rejects with the platform's description. *)
Definition telegram (c : ApiCall) : M Z :=
  fun env st =>
    match tgResult env (tgCalls st) with
    | Delivered mid => (Ok mid, log_api_call c (Delivered mid) st)
    | Rejected e => (Throw e, log_api_call c (Rejected e) st)
    end.

Definition getSession : M Session.t := fun _ st => (Ok (session st), st).
Definition putSession (s : Session.t) : M unit := fun _ st => (Ok tt, set_session s st).
Definition newDate : M Z := fun env st => (Ok (clock env), st).
Definition getBotInstance : M bool := fun env st => (Ok (botInstance env), st).

(** ** Ordering

    [Array.prototype.sort] is stable, and so is the order in which rows
    with equal keys are returned here by [orderBy]: insertion order. *)

Fixpoint insert_by {A : Type} (le : A -> A -> bool) (x : A) (l : list A) : list A :=
  match l with
  | [] => [x]
  | y :: l' => if le x y then x :: y :: l' else y :: insert_by le x l'
  end.

Definition sort_by {A : Type} (le : A -> A -> bool) (l : list A) : list A :=
  fold_right (insert_by le) [] l.

Definition media_le (a b : Media.t) : bool := Media.position a <=? Media.position b.

(** [orderBy: [{ row: 'asc' }, { position: 'asc' }]] *)
Definition button_le (a b : PostButton.t) : bool :=
  (PostButton.row a <? PostButton.row b)
  || ((PostButton.row a =? PostButton.row b)
      && (PostButton.position a <=? PostButton.position b)).

Definition schedule_le (a b : Schedule.t) : bool :=
  Schedule.scheduled_at a <=? Schedule.scheduled_at b.

(** ** Prisma queries

    Each query is a function on the store.  The rejections modelled are
    the ones the schema causes: a missing row on [update], a missing parent
    on [create], the unique [post_id] of a schedule. *)

Definition with_posts (ps : list Post.t) (n : Z) (d : DB) : DB :=
  mkDB (channels d) ps (media d) (buttons d) (schedules d) (statistics d)
    n (next_media_id d) (next_button_id d) (next_schedule_id d).

Definition with_media (ms : list Media.t) (n : Z) (d : DB) : DB :=
  mkDB (channels d) (posts d) ms (buttons d) (schedules d) (statistics d)
    (next_post_id d) n (next_button_id d) (next_schedule_id d).

Definition with_buttons (bs : list PostButton.t) (n : Z) (d : DB) : DB :=
  mkDB (channels d) (posts d) (media d) bs (schedules d) (statistics d)
    (next_post_id d) (next_media_id d) n (next_schedule_id d).

Definition with_schedules (ss : list Schedule.t) (n : Z) (d : DB) : DB :=
  mkDB (channels d) (posts d) (media d) (buttons d) ss (statistics d)
    (next_post_id d) (next_media_id d) (next_button_id d) n.

Definition find_channel (d : DB) (id : Z) : option Channel.t :=
  find (fun c => Channel.id c =? id) (channels d).

Definition find_post (d : DB) (id : Z) : option Post.t :=
  find (fun p => Post.id p =? id) (posts d).

Definition find_schedule (d : DB) (id : Z) : option Schedule.t :=
  find (fun s => Schedule.id s =? id) (schedules d).

Definition media_of (d : DB) (postId : Z) : list Media.t :=
  filter (fun m => Media.post_id m =? postId) (media d).

Definition buttons_of (d : DB) (postId : Z) : list PostButton.t :=
  filter (fun b => PostButton.post_id b =? postId) (buttons d).

Definition schedule_of (d : DB) (postId : Z) : option Schedule.t :=
  find (fun s => Schedule.post_id s =? postId) (schedules d).

Definition statistics_of (d : DB) (postId : Z) : option PostStatistics.t :=
  find (fun s => PostStatistics.post_id s =? postId) (statistics d).

Definition record_not_found : string := "Record to update not found.".
Definition foreign_key_failed : string := "Foreign key constraint failed".
Definition unique_failed : string := "Unique constraint failed".

(** [prisma.channel.findUnique({ where: { id } })] *)
Definition channel_findUnique (id : Z) (d : DB) : Res (option Channel.t) * DB :=
  (Ok (find_channel d id), d).

(** [prisma.post.create]; [published_at] and [telegram_message_id] are
    nullable columns without a default. *)
Definition post_create (channel_id : Z) (text : string) (status : PostStatus.t)
    (d : DB) : Res Post.t * DB :=
  match find_channel d channel_id with
  | None => (Throw foreign_key_failed, d)
  | Some _ =>
      let p := Post.mk (next_post_id d) channel_id text status None None in
      (Ok p, with_posts (posts d ++ [p]) (next_post_id d + 1) d)
  end.

(** [prisma.post.findUnique] with the [include] of [getPostById]. *)
Definition post_findUnique (postId : Z) (d : DB) : Res (option PostFull.t) * DB :=
  (Ok match find_post d postId with
      | None => None
      | Some p =>
          Some (PostFull.mk p
                  (find_channel d (Post.channel_id p))
                  (sort_by media_le (media_of d postId))
                  (sort_by button_le (buttons_of d postId))
                  (schedule_of d postId)
                  (statistics_of d postId))
      end, d).

(** The [data] of a [prisma.post.update]: [None] leaves the column as it is. *)
Module PostPatch.
Record t : Type := mk {
  text : option string;
  status : option PostStatus.t;
  published_at : option Z;
  telegram_message_id : option Z }.
Definition apply (u : t) (p : Post.t) : Post.t :=
  Post.mk (Post.id p) (Post.channel_id p)
    (match text u with Some x => x | None => Post.text p end)
    (match status u with Some x => x | None => Post.status p end)
    (match published_at u with Some x => Some x | None => Post.published_at p end)
    (match telegram_message_id u with Some x => Some x | None => Post.telegram_message_id p end).
End PostPatch.

Definition post_update (postId : Z) (u : PostPatch.t) (d : DB) : Res Post.t * DB :=
  match find_post d postId with
  | None => (Throw record_not_found, d)
  | Some p =>
      (Ok (PostPatch.apply u p),
       with_posts
         (map (fun q => if Post.id q =? postId then PostPatch.apply u q else q) (posts d))
         (next_post_id d) d)
  end.

(** [prisma.media.count({ where: { post_id } })] *)
Definition media_count (postId : Z) (d : DB) : Res Z * DB :=
  (Ok (Z.of_nat (length (media_of d postId))), d).

Definition media_create (postId : Z) (fileId : string) (fileType : MediaType.t)
    (fileSize : option Z) (caption : option string) (position : Z)
    (d : DB) : Res Media.t * DB :=
  match find_post d postId with
  | None => (Throw foreign_key_failed, d)
  | Some _ =>
      let m := Media.mk (next_media_id d) postId fileId fileType fileSize caption position in
      (Ok m, with_media (media d ++ [m]) (next_media_id d + 1) d)
  end.

Definition postButton_create (postId : Z) (text url : string) (row position : Z)
    (d : DB) : Res PostButton.t * DB :=
  match find_post d postId with
  | None => (Throw foreign_key_failed, d)
  | Some _ =>
      let b := PostButton.mk (next_button_id d) postId text url row position in
      (Ok b, with_buttons (buttons d ++ [b]) (next_button_id d + 1) d)
  end.

(** [prisma.schedule.create]: [status] defaults to PENDING, [attempts] to 0. *)
Definition schedule_create (postId : Z) (scheduledAt : Z) (d : DB) : Res Schedule.t * DB :=
  match find_post d postId, schedule_of d postId with
  | None, _ => (Throw foreign_key_failed, d)
  | Some _, Some _ => (Throw unique_failed, d)
  | Some _, None =>
      let s := Schedule.mk (next_schedule_id d) postId scheduledAt None
                 ScheduleStatus.PENDING 0 None in
      (Ok s, with_schedules (schedules d ++ [s]) (next_schedule_id d + 1) d)
  end.

Module SchedulePatch.
Record t : Type := mk {
  status : option ScheduleStatus.t;
  published_at : option Z;
  attempts : option Z;
  last_error : option string }.
Definition apply (u : t) (s : Schedule.t) : Schedule.t :=
  Schedule.mk (Schedule.id s) (Schedule.post_id s) (Schedule.scheduled_at s)
    (match published_at u with Some x => Some x | None => Schedule.published_at s end)
    (match status u with Some x => x | None => Schedule.status s end)
    (match attempts u with Some x => x | None => Schedule.attempts s end)
    (match last_error u with Some x => Some x | None => Schedule.last_error s end).
End SchedulePatch.

Definition schedule_update (id : Z) (u : SchedulePatch.t) (d : DB) : Res Schedule.t * DB :=
  match find_schedule d id with
  | None => (Throw record_not_found, d)
  | Some s =>
      (Ok (SchedulePatch.apply u s),
       with_schedules
         (map (fun q => if Schedule.id q =? id then SchedulePatch.apply u q else q)
            (schedules d))
         (next_schedule_id d) d)
  end.

(** The [findMany] of the scheduler: PENDING, due, oldest first.  The
    included post is only logged by the caller, so the rows are returned
    without it. *)
Definition is_due (now : Z) (s : Schedule.t) : bool :=
  ScheduleStatus.eqb (Schedule.status s) ScheduleStatus.PENDING
  && (Schedule.scheduled_at s <=? now).

Definition schedule_findMany_due (now : Z) (d : DB) : Res (list Schedule.t) * DB :=
  (Ok (sort_by schedule_le (filter (is_due now) (schedules d))), d).

(** ** postService.ts *)

(** [x || undefined] on a nullable number or string: 0 and the empty
    string are falsy. *)
Definition truthy_number (x : option Z) : option Z :=
  match x with
  | Some 0 => None
  | _ => x
  end.

Definition truthy_string (x : option string) : option string :=
  match x with
  | Some EmptyString => None
  | _ => x
  end.

Definition createPost (channelId : Z) (text : string) (status : option PostStatus.t)
    : M Post.t :=
  try_catch
    (prisma (post_create channelId text
               (match status with Some s => s | None => PostStatus.DRAFT end)))
    (fun _ => throw "Не удалось создать публикацию").

Definition getPostById (postId : Z) : M (option PostFull.t) :=
  try_catch (prisma (post_findUnique postId)) (fun _ => ret None).

(** [UpdatePostData] carries [text] and [status]. *)
Definition updatePost (postId : Z) (text : option string) (status : option PostStatus.t)
    : M Post.t :=
  try_catch
    (prisma (post_update postId (PostPatch.mk text status None None)))
    (fun _ => throw "Не удалось обновить публикацию").

Definition addMedia (postId : Z) (fileId : string) (fileType : MediaType.t)
    (fileSize : option Z) (caption : option string) : M Media.t :=
  try_catch
    (mediaCount <- prisma (media_count postId) ;;
     prisma (media_create postId fileId fileType fileSize caption mediaCount))
    (fun _ => throw "Не удалось добавить медиафайл").

Definition addButton (postId : Z) (text url : string) (row position : Z) : M PostButton.t :=
  try_catch
    (prisma (postButton_create postId text url row position))
    (fun _ => throw "Не удалось добавить кнопку").

Definition schedulePost (postId : Z) (scheduledAt : Z) : M Schedule.t :=
  try_catch
    (schedule <- prisma (schedule_create postId scheduledAt) ;;
     updatePost postId None (Some PostStatus.SCHEDULED) ;;
     ret schedule)
    (fun _ => throw "Не удалось запланировать публикацию").

Definition duplicatePost (postId : Z) : M Post.t :=
  try_catch
    (original <- getPostById postId ;;
     match original with
     | None => throw "Публикация не найдена"
     | Some original =>
         duplicate <- prisma (post_create (Post.channel_id (PostFull.post original))
                                (Post.text (PostFull.post original)) PostStatus.DRAFT) ;;
         for_of (PostFull.media original) (fun media =>
           addMedia (Post.id duplicate) (Media.file_id media) (Media.file_type media)
             (truthy_number (Media.file_size media))
             (truthy_string (Media.caption media)) ;;
           ret tt) ;;
         for_of (PostFull.buttons original) (fun button =>
           addButton (Post.id duplicate) (PostButton.text button) (PostButton.url button)
             (PostButton.row button) (PostButton.position button) ;;
           ret tt) ;;
         ret duplicate
     end)
    (fun _ => throw "Не удалось дублировать публикацию").

(** ** telegramPublishService.ts *)

(** [String(n)] for an integer [n] that is a safe integer, below 2^53 in
    absolute value, as identifiers, positions, counts and sizes are: all its
    digits.  (Beyond that not every integer is a number, and from 1e21 on
    [String] writes an exponent.) *)
Definition number_toString (n : Z) : string := NilZero.string_of_int (Z.to_int n).

(** The comparison [Array.prototype.sort] uses when it is given no
    comparator: the elements are converted to strings and compared by code
    unit. *)
Definition default_sort_le (a b : Z) : bool :=
  String.leb (number_toString a) (number_toString b).

(** [(a, b) => a.position - b.position] *)
Definition position_le (a b : PostButton.t) : bool :=
  PostButton.position a <=? PostButton.position b.

(** [Map<number, Button[]>]: keys in order of first insertion. *)
Definition ButtonMap : Type := list (Z * list PostButton.t).

Fixpoint map_push (row : Z) (button : PostButton.t) (m : ButtonMap) : ButtonMap :=
  match m with
  | [] => [(row, [button])]
  | (r, bs) :: m' =>
      if r =? row then (r, bs ++ [button]) :: m' else (r, bs) :: map_push row button m'
  end.

Fixpoint map_get (row : Z) (m : ButtonMap) : list PostButton.t :=
  match m with
  | [] => []
  | (r, bs) :: m' => if r =? row then bs else map_get row m'
  end.

Definition group_by_row (buttons : list PostButton.t) : ButtonMap :=
  fold_left (fun m button => map_push (PostButton.row button) button m) buttons [].

(** grammY's [InlineKeyboard]: [url] appends to the last row, [row] opens
    a new one; a fresh keyboard has one empty row. *)
Definition keyboard_new : InlineKeyboard := [[]].

Definition keyboard_url (text url : string) (k : InlineKeyboard) : InlineKeyboard :=
  removelast k ++ [last k [] ++ [(text, url)]].

Definition keyboard_row (k : InlineKeyboard) : InlineKeyboard := k ++ [[]].

Definition build_keyboard (buttons : list PostButton.t) : InlineKeyboard :=
  let buttonsByRow := group_by_row buttons in
  fold_left
    (fun keyboard row =>
       let rowButtons := sort_by position_le (map_get row buttonsByRow) in
       keyboard_row
         (fold_left
            (fun k button => keyboard_url (PostButton.text button) (PostButton.url button) k)
            rowButtons keyboard))
    (sort_by default_sort_le (map fst buttonsByRow))
    keyboard_new.

(** [replyMarkup]: [undefined] unless the post has buttons. *)
Definition reply_markup_of (buttons : list PostButton.t) : option InlineKeyboard :=
  match buttons with
  | [] => None
  | _ => Some (build_keyboard buttons)
  end.

Definition input_media_kind (t : MediaType.t) : InputMediaKind :=
  match t with
  | MediaType.PHOTO => im_photo
  | MediaType.VIDEO => im_video
  | MediaType.DOCUMENT => im_document
  | MediaType.ANIMATION => im_document
  end.

(** The [forEach] that fills [mediaGroup]: the first item carries the post
    text, the others their own caption if they have one. *)
Fixpoint build_media_group (text : string) (index : nat) (items : list Media.t)
    : list InputMedia.t :=
  match items with
  | [] => []
  | media :: rest =>
      let caption :=
        match index with
        | O => Some text
        | S _ => truthy_string (Media.caption media)
        end in
      InputMedia.mk (input_media_kind (Media.file_type media)) (Media.file_id media) caption
        :: build_media_group text (S index) rest
  end.

Definition send_single (channelId : Z) (media : Media.t) (caption : string)
    (replyMarkup : option InlineKeyboard) : ApiCall :=
  match Media.file_type media with
  | MediaType.PHOTO => sendPhoto channelId (Media.file_id media) caption replyMarkup
  | MediaType.VIDEO => sendVideo channelId (Media.file_id media) caption replyMarkup
  | MediaType.DOCUMENT => sendDocument channelId (Media.file_id media) caption replyMarkup
  | MediaType.ANIMATION => sendAnimation channelId (Media.file_id media) caption replyMarkup
  end.

Definition publishPostToTelegram (postId : Z) : M bool :=
  try_catch
    (post <- getPostById postId ;;
     match post with
     | None => ret false
     | Some post =>
         match PostFull.channel post with
         | None => ret false
         | Some channel =>
             let channelId := Channel.channel_id channel in
             let text := Post.text (PostFull.post post) in
             let replyMarkup := reply_markup_of (PostFull.buttons post) in
             messageId <-
               match PostFull.media post with
               | [] => telegram (sendMessage channelId text replyMarkup)
               | [media] =>
                   let caption :=
                     match truthy_string (Media.caption media) with
                     | Some c => c
                     | None => text
                     end in
                   telegram (send_single channelId media caption replyMarkup)
               | items =>
                   first <- telegram (sendMediaGroup channelId
                                        (build_media_group text O items)) ;;
                   match replyMarkup with
                   | Some keyboard =>
                       telegram (sendMessage channelId "⬆️" (Some keyboard)) ;;
                       ret first
                   | None => ret first
                   end
               end ;;
             updatePost postId None (Some PostStatus.PUBLISHED) ;;
             now <- newDate ;;
             prisma (post_update postId
                       (PostPatch.mk None None (Some now) (Some messageId))) ;;
             ret true
         end
     end)
    (fun _ =>
       try_catch
         (updatePost postId None (Some PostStatus.FAILED) ;; ret tt)
         (fun _ => ret tt) ;;
       ret false).

(** ** postSchedulerService.ts *)

Definition telegram_failure_note : string :=
  "Failed to publish to Telegram - check telegramPublishService logs".

(** The body of the [for] loop of [checkAndPublishScheduledPosts]. *)
Definition process_due_schedule (schedule : Schedule.t) : M unit :=
  try_catch
    (bot <- getBotInstance ;;
     (if bot then ret tt else throw "Bot instance not available") ;;
     success <- publishPostToTelegram (Schedule.post_id schedule) ;;
     if success then
       now <- newDate ;;
       prisma (schedule_update (Schedule.id schedule)
                 (SchedulePatch.mk (Some ScheduleStatus.PUBLISHED) (Some now) None None)) ;;
       ret tt
     else
       prisma (schedule_update (Schedule.id schedule)
                 (SchedulePatch.mk (Some ScheduleStatus.FAILED) None
                    (Some (Schedule.attempts schedule + 1))
                    (Some telegram_failure_note))) ;;
       ret tt)
    (fun error =>
       prisma (schedule_update (Schedule.id schedule)
                 (SchedulePatch.mk (Some ScheduleStatus.FAILED) None
                    (Some (Schedule.attempts schedule + 1))
                    (Some error))) ;;
       prisma (post_update (Schedule.post_id schedule)
                 (PostPatch.mk None (Some PostStatus.FAILED) None None)) ;;
       ret tt).

Definition checkAndPublishScheduledPosts : M unit :=
  try_catch
    (now <- newDate ;;
     dueSchedules <- prisma (schedule_findMany_due now) ;;
     match dueSchedules with
     | [] => ret tt
     | _ => for_of dueSchedules process_due_schedule
     end)
    (fun _ => ret tt).

(** ** validators.ts *)

Module LIMITS.
Definition MAX_TEXT_LENGTH : Z := 4096.
Definition MAX_PHOTO_SIZE : Z := 10 * 1024 * 1024.
Definition MAX_VIDEO_SIZE : Z := 50 * 1024 * 1024.
Definition MAX_DOCUMENT_SIZE : Z := 50 * 1024 * 1024.
Definition MAX_MEDIA_GROUP : Z := 10.
Definition MAX_BUTTONS_PER_ROW : Z := 8.
Definition MAX_CAPTION_LENGTH : Z := 1024.
End LIMITS.

Module Validation.
Record t : Type := mk { valid : bool; error : option string }.
Definition ok : t := mk true None.
Definition fail (e : string) : t := mk false (Some e).
End Validation.

Inductive UploadType : Type := up_photo | up_video | up_document | up_animation.

(** [(bytes / (1024 * 1024)).toFixed(digits)] for [digits] 0 or 2 and a
    size that is a safe integer.  The division by a power of two is exact
    in binary floating point, so the result is the decimal rounding of the
    exact quotient, ties upwards.  ([toFixed] writes an exponent only from
    1e21 on, far beyond a size.) *)
Definition two_digits (n : Z) : string :=
  if n <? 10 then "0" +++ number_toString n else number_toString n.

Definition megabytes_toFixed2 (bytes : Z) : string :=
  let n := (200 * bytes + 1048576) / 2097152 in
  number_toString (n / 100) +++ "." +++ two_digits (n mod 100).

Definition megabytes_toFixed0 (bytes : Z) : string :=
  number_toString ((2 * bytes + 1048576) / 2097152).

Definition validateMediaSize (fileSize : Z) (fileType : UploadType) : Validation.t :=
  let maxSize :=
    match fileType with
    | up_photo => LIMITS.MAX_PHOTO_SIZE
    | up_video => LIMITS.MAX_VIDEO_SIZE
    | _ => LIMITS.MAX_DOCUMENT_SIZE
    end in
  if maxSize <? fileSize then
    Validation.fail ("Размер файла (" +++ megabytes_toFixed2 fileSize
                     +++ " MB) превышает лимит (" +++ megabytes_toFixed0 maxSize +++ " MB)")
  else Validation.ok.

Definition validateMediaGroupSize (count : Z) : Validation.t :=
  if LIMITS.MAX_MEDIA_GROUP <? count then
    Validation.fail ("Максимум " +++ number_toString LIMITS.MAX_MEDIA_GROUP
                     +++ " медиафайлов в одной публикации")
  else Validation.ok.

(** ** messageBuilder.ts *)

Definition nl : string := String (ascii_of_nat 10) EmptyString.

Definition buildValidationErrorMessage (error : string) : string :=
  "❌ Ошибка валидации" +++ nl +++ nl +++ error +++ nl +++ nl +++ "Попробуйте еще раз".

Definition buildMediaUploadMessage (currentCount : Z) : string :=
  "📎 Добавление медиафайлов" +++ nl +++ nl +++
  "Отправьте фото, видео или документы" +++ nl +++
  "Текущие файлы: " +++ number_toString currentCount +++ " / 10" +++ nl +++ nl +++
  "Когда закончите, нажмите " +++ String (ascii_of_nat 34) "Готово"
  +++ String (ascii_of_nat 34) EmptyString.

(** ** sessionState.ts *)

Definition or_else {A : Type} (x y : option A) : option A :=
  match x with
  | Some _ => x
  | None => y
  end.

(** [{ ...draft, ...updates }] *)
Definition merge_draft (draft updates : PostDraft.t) : PostDraft.t :=
  PostDraft.mk
    (or_else (PostDraft.id updates) (PostDraft.id draft))
    (or_else (PostDraft.channelId updates) (PostDraft.channelId draft))
    (or_else (PostDraft.text updates) (PostDraft.text draft))
    (or_else (PostDraft.mediaFiles updates) (PostDraft.mediaFiles draft))
    (or_else (PostDraft.buttons updates) (PostDraft.buttons draft))
    (or_else (PostDraft.scheduledAt updates) (PostDraft.scheduledAt draft))
    (or_else (PostDraft.status updates) (PostDraft.status draft))
    (or_else (PostDraft.step updates) (PostDraft.step draft)).

Definition getPostDraft : M (option PostDraft.t) :=
  s <- getSession ;; ret (Session.postDraft s).

Definition getAwaitingInput : M (option AwaitingInput.t) :=
  s <- getSession ;; ret (Session.awaitingInput s).

Definition updatePostDraft (updates : PostDraft.t) : M unit :=
  s <- getSession ;;
  putSession
    (Session.mk
       (Some (merge_draft
                (match Session.postDraft s with Some d => d | None => PostDraft.empty end)
                updates))
       (Session.awaitingInput s) (Session.currentOperation s)).

(** Deletes [postDraft], [awaitingInput] and [currentOperation]. *)
Definition clearPostDraft : M unit :=
  putSession (Session.mk None None None).

(** ** validateHTML (validators.ts)

    The pattern is [/<\/?([a-z]+)[^>]*>/gi].  Without the [u] flag the [i]
    flag only folds ASCII letters onto [a-z], so the name is a run of ASCII
    letters. *)

Definition is_letter (c : ascii) : bool :=
  let n := nat_of_ascii c in
  (((65 <=? n) && (n <=? 90)) || ((97 <=? n) && (n <=? 122)))%nat.

Definition lower_char (c : ascii) : ascii :=
  let n := nat_of_ascii c in
  if ((65 <=? n) && (n <=? 90))%nat then ascii_of_nat (n + 32) else c.

Fixpoint toLowerCase (s : string) : string :=
  match s with
  | EmptyString => EmptyString
  | String c s' => String (lower_char c) (toLowerCase s')
  end.

(** [([a-z]+)], greedy: the longest run of letters and what follows it. *)
Fixpoint take_letters (s : string) : string * string :=
  match s with
  | EmptyString => (EmptyString, EmptyString)
  | String c s' =>
      if is_letter c then
        let (name, rest) := take_letters s' in (String c name, rest)
      else (EmptyString, s)
  end.

(** [[^>]*>]: everything up to the first [>], and what follows it. *)
Fixpoint until_gt (s : string) : option (string * string) :=
  match s with
  | EmptyString => None
  | String c s' =>
      if Ascii.eqb c ">" then Some (EmptyString, s')
      else match until_gt s' with
           | Some (skipped, rest) => Some (String c skipped, rest)
           | None => None
           end
  end.

(** What one successful [exec] yields: [match[0]] and [match[1]]. *)
Module TagMatch.
Record t : Type := mk { fullTag : string; name : string }.
End TagMatch.

(** The pattern tried at the start of [s]; on success also the text after
    the match, where the next [exec] resumes. *)
Definition match_at (s : string) : option (TagMatch.t * string) :=
  match s with
  | String "<" s1 =>
      let (slash, s2) :=
        match s1 with
        | String "/" s2 => ("/"%string, s2)
        | _ => (EmptyString, s1)
        end in
      let (name, s3) := take_letters s2 in
      match name with
      | EmptyString => None
      | _ =>
          match until_gt s3 with
          | Some (skipped, rest) =>
              Some (TagMatch.mk ("<" +++ slash +++ name +++ skipped +++ ">") name, rest)
          | None => None
          end
      end
  | _ => None
  end.

(** The successive results of [tagPattern.exec(text)]: the leftmost match,
    then the leftmost match after it, and so on. *)
Fixpoint exec_all (fuel : nat) (s : string) : list TagMatch.t :=
  match fuel with
  | O => []
  | S fuel' =>
      match s with
      | EmptyString => []
      | String _ s' =>
          match match_at s with
          | Some (m, rest) => m :: exec_all fuel' rest
          | None => exec_all fuel' s'
          end
      end
  end.

Definition tag_matches (text : string) : list TagMatch.t :=
  exec_all (String.length text) text.

Definition allowedTags : list string :=
  ["b"; "strong"; "i"; "em"; "u"; "ins"; "s"; "strike"; "del"; "code"; "pre"; "a";
   "spoiler"]%string.

Definition includes (l : list string) (x : string) : bool := existsb (String.eqb x) l.

Definition startsWith (s p : string) : bool := String.prefix p s.

Fixpoint string_rev (s : string) : string :=
  match s with
  | EmptyString => EmptyString
  | String c s' => string_rev s' +++ String c EmptyString
  end.

Definition endsWith (s p : string) : bool := String.prefix (string_rev p) (string_rev s).

Definition unknown_tag_message (tagName : string) : string :=
  "Недопустимый HTML-тег: <" +++ tagName +++ ">. Разрешены: "
  +++ String.concat ", " allowedTags.

(** [lastOpen] is [undefined] when [pop] is called on an empty array. *)
Definition nesting_message (lastOpen : option string) (tagName : string) : string :=
  "Неправильная вложенность тегов: ожидается </"
  +++ (match lastOpen with Some t => t | None => "undefined"%string end)
  +++ ">, найден </" +++ tagName +++ ">".

Definition unclosed_message (openTags : list string) : string :=
  "Незакрытые HTML-теги: "
  +++ String.concat ", " (map (fun t => "<" +++ t +++ ">") openTags).

(** The body of the [while] loop and the check after it.  [openTags] is
    kept with the top of the stack first ([push] is a cons, [pop] takes the
    head); [rev] gives the array of the source. *)
Fixpoint check_tags (openTags : list string) (ms : list TagMatch.t) : Validation.t :=
  match ms with
  | [] =>
      match openTags with
      | [] => Validation.ok
      | _ => Validation.fail (unclosed_message (rev openTags))
      end
  | m :: ms' =>
      let tagName := toLowerCase (TagMatch.name m) in
      if negb (includes allowedTags tagName) then
        Validation.fail (unknown_tag_message tagName)
      else if startsWith (TagMatch.fullTag m) "</" then
        match openTags with
        | lastOpen :: openTags' =>
            if String.eqb lastOpen tagName then check_tags openTags' ms'
            else Validation.fail (nesting_message (Some lastOpen) tagName)
        | [] => Validation.fail (nesting_message None tagName)
        end
      else if negb (endsWith (TagMatch.fullTag m) "/>") then
        check_tags (tagName :: openTags) ms'
      else check_tags openTags ms'
  end.

Definition validateHTML (text : string) : Validation.t :=
  check_tags [] (tag_matches text).

(** ** mediaInput.ts *)

Module TgFile.
Record t : Type := mk { file_id : string; file_size : option Z }.
End TgFile.

(** The parts of [ctx.message] the handler reads. *)
Module Message.
Record t : Type := mk {
  photo : option (list TgFile.t);
  video : option TgFile.t;
  document : option TgFile.t;
  animation : option TgFile.t;
  caption : option string }.
End Message.

Definition session_expired_newpost : string :=
  "❌ Сессия истекла. Начните создание поста заново с /newpost".

Definition media_upload_failed : string := "❌ Произошла ошибка при загрузке медиа".

(** The file the handler extracts for the given upload type; [None] where
    the source returns without doing anything. *)
Definition extract_file (message : Message.t) (type : UploadType)
    : option (TgFile.t * MediaType.t) :=
  match type with
  | up_photo =>
      match Message.photo message with
      | None => None
      | Some photos =>
          match rev photos with
          | [] => None
          | photo :: _ => Some (photo, MediaType.PHOTO)
          end
      end
  | up_video =>
      match Message.video message with
      | None => None
      | Some video => Some (video, MediaType.VIDEO)
      end
  | up_document =>
      match Message.document message with
      | None => None
      | Some document => Some (document, MediaType.DOCUMENT)
      end
  | up_animation =>
      match Message.animation message with
      | None => None
      | Some animation => Some (animation, MediaType.ANIMATION)
      end
  end.

Definition is_awaiting (t : InputType) (a : option AwaitingInput.t) : bool :=
  match a with
  | Some i =>
      match AwaitingInput.type i, t with
      | input_text, input_text | input_media, input_media | input_button, input_button => true
      | _, _ => false
      end
  | None => false
  end.

(** [validation.error!] inside a template literal. *)
Definition error_text (v : Validation.t) : string :=
  match Validation.error v with
  | Some e => e
  | None => "undefined"
  end.

Definition handleMediaUpload (message : Message.t) (type : UploadType) : M unit :=
  awaitingInput <- getAwaitingInput ;;
  if negb (is_awaiting input_media awaitingInput) then ret tt
  else
    draft <- getPostDraft ;;
    match draft with
    | None => telegram (reply session_expired_newpost) ;; ret tt
    | Some draft =>
        try_catch
          (match extract_file message type with
           | None => ret tt
           | Some (file, mediaType) =>
               let fileSize := TgFile.file_size file in
               let sizeValidation :=
                 match truthy_number fileSize with
                 | Some size =>
                     validateMediaSize size
                       (match type with up_animation => up_document | _ => type end)
                 | None => Validation.ok
                 end in
               if negb (Validation.valid sizeValidation) then
                 telegram (reply (buildValidationErrorMessage
                                    (error_text sizeValidation))) ;;
                 ret tt
               else
                   let mediaFiles :=
                     match PostDraft.mediaFiles draft with
                     | Some files => files
                     | None => []
                     end in
                   let groupValidation :=
                     validateMediaGroupSize (Z.of_nat (length mediaFiles) + 1) in
                   if negb (Validation.valid groupValidation) then
                     telegram (reply (buildValidationErrorMessage
                                        (error_text groupValidation))) ;;
                     ret tt
                   else
                       let newMedia :=
                         SessionMediaFile.mk (TgFile.file_id file) mediaType fileSize
                           (Message.caption message) (Z.of_nat (length mediaFiles)) in
                       let mediaFiles := mediaFiles ++ [newMedia] in
                       updatePostDraft
                         (PostDraft.mk None None None (Some mediaFiles) None None None None) ;;
                       telegram (reply (buildMediaUploadMessage
                                          (Z.of_nat (length mediaFiles)))) ;;
                       ret tt
           end)
          (fun _ => telegram (reply media_upload_failed) ;; ret tt)
    end.

(** ** channelService.ts *)

Definition getChannelById (id : Z) : M (option Channel.t) :=
  try_catch (prisma (channel_findUnique id)) (fun _ => ret None).

(** ** postCallbacks.ts: the three ways a composition is committed *)

Definition ignore {A : Type} (m : M A) : M unit := m ;; ret tt.

(** [try { await ctx.reply(text) } catch { log }] *)
Definition reply_quietly (text : string) : M unit :=
  try_catch (ignore (telegram (reply text))) (fun _ => ret tt).

(** [channel?.channel_title || 'Канал'] *)
Definition channel_name (channel : option Channel.t) : string :=
  match channel with
  | Some c =>
      match Channel.channel_title c with
      | EmptyString => "Канал"
      | title => title
      end
  | None => "Канал"
  end.

(** The guard [!draft || !draft.channelId || !draft.text]: the draft with
    its channel and text when all three are truthy. *)
Definition committable (draft : option PostDraft.t) : option (PostDraft.t * Z * string) :=
  match draft with
  | Some d =>
      match truthy_number (PostDraft.channelId d), truthy_string (PostDraft.text d) with
      | Some channelId, Some text => Some (d, channelId, text)
      | _, _ => None
      end
  | None => None
  end.

Definition files_of (draft : PostDraft.t) : list SessionMediaFile.t :=
  match PostDraft.mediaFiles draft with
  | Some files => files
  | None => []
  end.

Definition buttons_of_draft (draft : PostDraft.t) : list SessionButton.t :=
  match PostDraft.buttons draft with
  | Some buttons => buttons
  | None => []
  end.

(** The two loops shared by the commit handlers: the draft's media, then
    its buttons, are added to the new post. *)
Definition add_draft_content (postId : Z) (draft : PostDraft.t) : M unit :=
  for_of (files_of draft) (fun media =>
    ignore (addMedia postId (SessionMediaFile.fileId media) (SessionMediaFile.fileType media)
              (SessionMediaFile.fileSize media) (SessionMediaFile.caption media))) ;;
  for_of (buttons_of_draft draft) (fun button =>
    ignore (addButton postId (SessionButton.text button) (SessionButton.url button)
              (SessionButton.row button) (SessionButton.position button))).

(** The rows every commit handler writes first: the post with the status
    of the chosen action, then the draft's media and buttons. *)
Definition create_post_from_draft (status : PostStatus.t) (channelId : Z) (text : string)
    (draft : PostDraft.t) : M Post.t :=
  post <- createPost channelId text (Some status) ;;
  add_draft_content (Post.id post) draft ;;
  ret post.

(** The rows of a scheduled commit: the post and then its schedule. *)
Definition create_scheduled_post (channelId : Z) (text : string) (draft : PostDraft.t)
    (scheduledAt : Z) : M Post.t :=
  post <- create_post_from_draft PostStatus.SCHEDULED channelId text draft ;;
  schedulePost (Post.id post) scheduledAt ;;
  ret post.

Definition published_message (channelName : string) (postId : Z) : string :=
  "✅ Пост успешно опубликован в канал!" +++ nl +++ nl +++
  "📢 Канал: " +++ channelName +++ nl +++
  "🆔 ID поста: " +++ number_toString postId.

Definition saved_not_published_message (channelName : string) (postId : Z) : string :=
  "⚠️ Пост сохранен в базе данных, но не удалось опубликовать в канал." +++ nl +++ nl +++
  "📢 Канал: " +++ channelName +++ nl +++
  "🆔 ID поста: " +++ number_toString postId +++ nl +++ nl +++
  "Проверьте права бота в канале.".

Definition publish_failed_message : string := "❌ Не удалось опубликовать пост".
Definition draft_failed_message : string := "❌ Не удалось сохранить черновик".
Definition schedule_failed_prefix : string := "❌ Не удалось запланировать пост: ".

(** [try { edit } catch { try { reply } catch { log } }] *)
Definition edit_or_reply_quietly (text : string) : M unit :=
  try_catch (ignore (telegram (editMessageText text))) (fun _ => reply_quietly text).

Definition handlePublishNow : M unit :=
  draft <- getPostDraft ;;
  match committable draft with
  | None => reply_quietly "❌ Недостаточно данных для публикации"
  | Some (draft, channelId, text) =>
      try_catch
        (post <- create_post_from_draft PostStatus.PUBLISHED channelId text draft ;;
         published <- publishPostToTelegram (Post.id post) ;;
         channel <- getChannelById channelId ;;
         let channelName := channel_name channel in
         let successMessage :=
           if published : bool then published_message channelName (Post.id post)
           else saved_not_published_message channelName (Post.id post) in
         edit_or_reply_quietly successMessage ;;
         clearPostDraft)
        (fun _ => reply_quietly publish_failed_message)
  end.

Definition draft_saved_message (channelName : string) : string :=
  "✅ Черновик сохранен!" +++ nl +++ nl +++
  "Канал: " +++ channelName +++ nl +++ nl +++
  "Вы можете отредактировать его позже через /drafts".

Definition handleSaveDraft : M unit :=
  draft <- getPostDraft ;;
  match committable draft with
  | None => reply_quietly "❌ Недостаточно данных для сохранения черновика"
  | Some (draft, channelId, text) =>
      try_catch
        (post <- create_post_from_draft PostStatus.DRAFT channelId text draft ;;
         channel <- getChannelById channelId ;;
         edit_or_reply_quietly (draft_saved_message (channel_name channel)) ;;
         clearPostDraft)
        (fun _ => reply_quietly draft_failed_message)
  end.

Section Formatters.

(** [formatDate] of formatters.ts renders a date through the date-fns
    library with the Russian locale; it is taken as given. *)
Variable formatDate : Z -> string.

Definition scheduled_message (channelName : string) (scheduledAt : Z) : string :=
  "✅ Публикация запланирована" +++ nl +++ nl +++
  "Канал: " +++ channelName +++ nl +++
  "Дата и время: " +++ formatDate scheduledAt +++ nl +++ nl +++
  "Публикация будет отправлена автоматически".

Definition handleScheduledPost : M unit :=
  draft <- getPostDraft ;;
  match committable draft with
  | None => reply_quietly "❌ Недостаточно данных"
  | Some (draft, channelId, text) =>
      match PostDraft.scheduledAt draft with
      | None => reply_quietly "❌ Недостаточно данных"
      | Some scheduledAt =>
          try_catch
            (create_scheduled_post channelId text draft scheduledAt ;;
             try_catch
               (channel <- getChannelById channelId ;;
                let message := scheduled_message (channel_name channel) scheduledAt in
                try_catch (ignore (telegram (editMessageText message)))
                  (fun _ => ignore (telegram (reply message))))
               (fun _ => ret tt) ;;
             clearPostDraft)
            (fun errorMessage => reply_quietly (schedule_failed_prefix +++ errorMessage))
      end
  end.

End Formatters.

(** ** index.ts and logging.ts: the middleware around a handler

    [bot.use(errorMiddleware)] comes first and [bot.use(session(...))]
    after it, so a handler runs inside the session plugin, and the session
    plugin inside the error middleware. *)

Definition error_notice : string :=
  "❌ Произошла ошибка при обработке запроса." +++ nl +++
  "Пожалуйста, попробуйте позже или используйте /cancel для отмены текущего действия.".

(** [errorMiddleware]: what the chain below it throws is logged and
    answered with a reply; a rejection of that reply is logged too. *)
Definition errorMiddleware (next : M unit) : M unit :=
  try_catch next (fun _ => reply_quietly error_notice).

(** grammY's [session] plugin with the storage of index.ts: the stored
    session is read before the handler runs, and [ctx.session] is written
    back after the handler has returned.  When the handler throws nothing
    is written: the stored session, which the next update reads, is the one
    from before the handler. *)
Definition session_plugin (next : M unit) : M unit :=
  fun env st =>
    match next env st with
    | (Ok a, st') => (Ok a, st')
    | (Throw e, st') => (Throw e, set_session (session st) st')
    end.

(** [bot.on('message:photo', ...)] and its three siblings of
    [registerMediaInputHandler], for an update of the admin. *)
Definition on_upload (message : Message.t) (type : UploadType) : M unit :=
  errorMiddleware (session_plugin (handleMediaUpload message type)).

(** * Further parts of the bot

    The builders and parsers of callbackData.ts, [calculatePagination] of
    paginationBuilder.ts, [deletePost] of postService.ts, and
    [escapeHTML], [truncateText] and [formatPostPreview] of
    formatters.ts. *)

(** ** callbackData.ts

    Callback data are short ASCII strings.  The patterns below only inspect
    [_], the decimal digits and fixed ASCII words.  The numbers the builders
    write are identifiers, pages, hours and minutes, taken here as integers
    of at most [Number.MAX_SAFE_INTEGER], which [String] writes digit by
    digit. *)

Module CallbackPrefix.
Definition NEW_POST_CHANNEL : string := "np_ch".
Definition EDIT_POST : string := "ep".
Definition TIME : string := "tim".
Definition TIME_MINUTE : string := "min".
Definition TIME_BACK : string := "tim_bck".
Definition PAGE : string := "pg".
End CallbackPrefix.

(** [\d] without the [u] flag: the ten ASCII digits. *)
Definition is_digit (c : ascii) : bool :=
  let n := nat_of_ascii c in ((48 <=? n) && (n <=? 57))%nat.

(** [(\d+)], greedy: the longest run of digits and what follows it. *)
Fixpoint take_digits (s : string) : string * string :=
  match s with
  | EmptyString => (EmptyString, EmptyString)
  | String c s' =>
      if is_digit c then
        let (digits, rest) := take_digits s' in (String c digits, rest)
      else (EmptyString, s)
  end.

(** The integer a run of decimal digits writes. *)
Fixpoint digits_value (acc : Z) (digits : string) : Z :=
  match digits with
  | EmptyString => acc
  | String c rest => digits_value (10 * acc + (Z.of_nat (nat_of_ascii c) - 48)) rest
  end.

(** What [parseInt] returns for a run of digits: a number, that is a
    double.  Only integers occur here, so a number is the integer it holds,
    or [Infinity]. *)
Inductive JsNumber : Type :=
| finite (value : Z)
| Infinity.

(** The double nearest to the natural number [v], ties to the even
    significand: below 2^53 the number itself, above it the multiple of
    [2^e] nearest to [v], where [e] leaves 53 bits; [Infinity] from 2^1024
    on. *)
Definition to_double (v : Z) : JsNumber :=
  if v <? 2 ^ 53 then finite v
  else
    let e := Z.log2 v - 52 in
    let q := v / 2 ^ e in
    let r := v mod 2 ^ e in
    let half := 2 ^ (e - 1) in
    let significand :=
      if r <? half then q
      else if half <? r then q + 1
      else if Z.even q then q else q + 1 in
    if significand * 2 ^ e <? 2 ^ 1024 then finite (significand * 2 ^ e) else Infinity.

(** [parseInt(digits, 10)] on a non-empty run of decimal digits: the
    number for the integer the digits write.  (The language lets an engine
    read only the first 20 significant digits of a longer run; V8 rounds the
    whole run, as here.) *)
Definition parseInt (digits : string) : JsNumber := to_double (digits_value 0 digits).

(** [s.match(pattern)] for a pattern without the [g] flag and not anchored
    at the start: the pattern is tried at the first character, then at the
    second, and so on, the empty rest included; the first success is the
    match. *)
Fixpoint search {A : Type} (pattern : string -> option A) (s : string) : option A :=
  match pattern s with
  | Some m => Some m
  | None =>
      match s with
      | EmptyString => None
      | String _ s' => search pattern s'
      end
  end.

(** [s] without its prefix [p], when it has it. *)
Fixpoint strip_prefix (p s : string) : option string :=
  match p with
  | EmptyString => Some s
  | String a p' =>
      match s with
      | String b s' => if Ascii.eqb a b then strip_prefix p' s' else None
      | EmptyString => None
      end
  end.

(** [(\d+)$] at the start of [s]: the digits, when [s] is a non-empty run
    of digits.  (Giving back digits of the greedy run cannot help: a digit
    would then stand before [$].) *)
Definition digits_to_end (s : string) : option string :=
  match take_digits s with
  | (String c digits, EmptyString) => Some (String c digits)
  | _ => None
  end.

(** [/_(\d+)$/] tried at the start of [s]; the result is [match[1]]. *)
Definition channel_pattern (s : string) : option string :=
  match strip_prefix "_" s with
  | Some rest => digits_to_end rest
  | None => None
  end.

(** [/_(\d+)(?:_|$)/] tried at the start of [s].  (Again the greedy run is
    the only candidate: after fewer digits the next character is a digit,
    which is neither [_] nor the end.) *)
Definition post_pattern (s : string) : option string :=
  match strip_prefix "_" s with
  | Some rest =>
      match take_digits rest with
      | (String c digits, EmptyString) => Some (String c digits)
      | (String c digits, String "_" _) => Some (String c digits)
      | _ => None
      end
  | None => None
  end.

(** [/_pg_(\d+)$/] tried at the start of [s]. *)
Definition page_pattern (s : string) : option string :=
  match strip_prefix "_pg_" s with
  | Some rest => digits_to_end rest
  | None => None
  end.

(** [/^tim_(\d+)$/] and [/^min_(\d+)$/]: anchored at both ends. *)
Definition anchored_pattern (word : string) (s : string) : option string :=
  match strip_prefix word s with
  | Some rest => digits_to_end rest
  | None => None
  end.

Definition buildChannelCallback (channelId : Z) (prefix : string) : string :=
  prefix +++ "_" +++ number_toString channelId.

Definition buildPostCallback (postId : Z) (action : string) : string :=
  action +++ "_" +++ number_toString postId.

Inductive StatusAction : Type := action_edit | action_delete.

Definition status_action_name (action : StatusAction) : string :=
  match action with
  | action_edit => "edit"
  | action_delete => "delete"
  end.

Definition buildPostStatusCallback (action : StatusAction) (postId : Z) : string :=
  CallbackPrefix.EDIT_POST +++ "_" +++ status_action_name action +++ "_"
  +++ number_toString postId.

Definition buildSchedulePostCallback (postId : Z) (action : string) : string :=
  "sch_p_" +++ number_toString postId +++ "_" +++ action.

Definition buildTimeCallback (hour : Z) : string :=
  CallbackPrefix.TIME +++ "_" +++ number_toString hour.

Definition buildMinuteCallback (minute : Z) : string :=
  CallbackPrefix.TIME_MINUTE +++ "_" +++ number_toString minute.

Definition buildPaginationCallback (page : Z) (prefix : string) : string :=
  prefix +++ "_" +++ CallbackPrefix.PAGE +++ "_" +++ number_toString page.

(** [match ? parseInt(match[1], 10) : null] *)
Definition parseChannelId (data : string) : option JsNumber :=
  option_map parseInt (search channel_pattern data).

Definition parsePostId (data : string) : option JsNumber :=
  option_map parseInt (search post_pattern data).

Definition parseHour (data : string) : option JsNumber :=
  option_map parseInt (anchored_pattern "tim_" data).

Definition parseMinute (data : string) : option JsNumber :=
  option_map parseInt (anchored_pattern "min_" data).

Definition parsePage (data : string) : option JsNumber :=
  option_map parseInt (search page_pattern data).

Definition matchesPrefix (data prefix : string) : bool := startsWith data prefix.

(** [data.split('_')]: the pieces between the separators, at least one. *)
Fixpoint split_on (sep : ascii) (s : string) : list string :=
  match s with
  | EmptyString => [EmptyString]
  | String c s' =>
      if Ascii.eqb c sep then EmptyString :: split_on sep s'
      else
        match split_on sep s' with
        | piece :: pieces => String c piece :: pieces
        | [] => [String c EmptyString]
        end
  end.

(** [parts.length > 1 ? parts.slice(0, -1).join('_') : data] *)
Definition extractAction (data : string) : string :=
  let parts := split_on "_" data in
  if (1 <? length parts)%nat then String.concat "_" (removelast parts) else data.

(** ** paginationBuilder.ts *)

Module PaginationParams.
Record t : Type := mk {
  page : Z;
  limit : Z;
  offset : Z;
  totalPages : Z;
  startIndex : Z;
  endIndex : Z;
  hasPrev : bool;
  hasNext : bool;
  currentPage : Z }.
End PaginationParams.



(** ** postService.ts: deletePost *)

Definition record_to_delete_not_found : string := "Record to delete does not exist.".

(** [prisma.post.delete].  The relations of Media, PostButton, Schedule and
    PostStatistics to Post are declared [onDelete: Cascade] in the schema:
    the rows of the post go with it. *)
Definition post_delete (postId : Z) (d : DB) : Res Post.t * DB :=
  match find_post d postId with
  | None => (Throw record_to_delete_not_found, d)
  | Some p =>
      (Ok p,
       mkDB (channels d)
         (filter (fun q => negb (Post.id q =? postId)) (posts d))
         (filter (fun m => negb (Media.post_id m =? postId)) (media d))
         (filter (fun b => negb (PostButton.post_id b =? postId)) (buttons d))
         (filter (fun s => negb (Schedule.post_id s =? postId)) (schedules d))
         (filter (fun s => negb (PostStatistics.post_id s =? postId)) (statistics d))
         (next_post_id d) (next_media_id d) (next_button_id d) (next_schedule_id d))
  end.

Definition deletePost (postId : Z) : M unit :=
  try_catch
    (ignore (prisma (post_delete postId)))
    (fun _ => throw "Не удалось удалить публикацию").

(** ** formatters.ts

    [text.replace(/c/g, replacement)] for a single character [c].  The five
    characters [escapeHTML] replaces are ASCII, so replacing them in the
    UTF-8 bytes of a text is replacing them in the text. *)
Fixpoint replace_char (c : ascii) (replacement : string) (s : string) : string :=
  match s with
  | EmptyString => EmptyString
  | String x s' =>
      if Ascii.eqb x c then replacement +++ replace_char c replacement s'
      else String x (replace_char c replacement s')
  end.

Definition double_quote : ascii := ascii_of_nat 34.

Definition escapeHTML (text : string) : string :=
  replace_char "'" "&#039;"
    (replace_char double_quote "&quot;"
       (replace_char ">" "&gt;"
          (replace_char "<" "&lt;"
             (replace_char "&" "&amp;" text)))).

(** [truncateText] and [formatPostPreview] count and cut by [length] and
    [substring], that is by UTF-16 code units: here a text is the list of
    its code units. *)
Definition CodeUnit : Type := N.

Definition lt_sign : CodeUnit := 60%N.
Definition gt_sign : CodeUnit := 62%N.

(** ['...'] *)
Definition ellipsis : list CodeUnit := [46; 46; 46]%N.

(** [text.substring(0, n)]: a negative [n] counts as 0, one beyond the end
    as the length. *)
Definition substring_from_start (text : list CodeUnit) (n : Z) : list CodeUnit :=
  firstn (Z.to_nat n) text.

Definition truncateText (text : list CodeUnit) (maxLength : Z) : list CodeUnit :=
  if Z.of_nat (length text) <=? maxLength then text
  else substring_from_start text (maxLength - 3) ++ ellipsis.

(** [text.replace(/<[^>]*>/g, '')].  A match starts at a [<] that has a
    [>] somewhere after it and ends at the first such [>]; the search
    resumes behind it.  [inside] says that a match is being skipped. *)
Fixpoint strip_tags (inside : bool) (text : list CodeUnit) : list CodeUnit :=
  match text with
  | [] => []
  | c :: rest =>
      if inside then
        if N.eqb c gt_sign then strip_tags false rest else strip_tags true rest
      else if N.eqb c lt_sign && existsb (N.eqb gt_sign) rest then strip_tags true rest
      else c :: strip_tags false rest
  end.

Definition formatPostPreview (text : list CodeUnit) (maxLength : Z) : list CodeUnit :=
  truncateText (strip_tags false text) maxLength.

(** ** Worlds used in the examples below *)

Module Examples.

Definition news : Channel.t := Channel.mk 1 (-1001234) "NewsFeed" None true.

Definition no_fault : nat -> option string := fun _ => None.

Definition rejecting : nat -> TgOutcome :=
  fun _ => Rejected "Forbidden: bot is not a member of the channel chat".

Definition delivering (message_id : Z) : nat -> TgOutcome :=
  fun _ => Delivered message_id.

(** One scheduled post, due at 1000, never attempted. *)
Definition hello : Post.t := Post.mk 1 1 "<b>Hello</b>" PostStatus.SCHEDULED None None.

Definition hello_due : Schedule.t :=
  Schedule.mk 1 1 1000 None ScheduleStatus.PENDING 0 None.

Definition one_due : DB := mkDB [news] [hello] [] [] [hello_due] [] 2 1 1 2.

Definition env_of (faults : nat -> option string) (tg : nat -> TgOutcome) : Env :=
  mkEnv faults tg 2000 true.

Definition state_of (d : DB) : State := mkState d Session.empty [] 0 0.

(** Two scheduled posts, both due. *)
Definition second : Post.t := Post.mk 2 1 "Second" PostStatus.SCHEDULED None None.

Definition second_due : Schedule.t :=
  Schedule.mk 2 2 1500 None ScheduleStatus.PENDING 0 None.

Definition two_due : DB :=
  mkDB [news] [hello; second] [] [] [hello_due; second_due] [] 3 1 1 3.

(** The store loses its connection for the fifth and sixth query of the
    tick: the two [schedule.update] calls made for the first record. *)
Definition connection_lost : nat -> option string :=
  fun n =>
    match n with
    | 4%nat | 5%nat => Some "Can't reach database server"%string
    | _ => None
    end.

(** A post whose buttons sit in rows 2 and 10. *)
Definition two_button : PostButton.t :=
  PostButton.mk 1 1 "two" "https://example.com/2" 2 0.

Definition ten_button : PostButton.t :=
  PostButton.mk 2 1 "ten" "https://example.com/10" 10 0.

Definition with_far_rows : DB :=
  mkDB [news] [hello] [] [two_button; ten_button] [] [] 2 1 3 1.

(** A composition in progress: one photo, one button, a target time. *)
Definition photo_file : SessionMediaFile.t :=
  SessionMediaFile.mk "AgACAgIAAxkBAAIB" MediaType.PHOTO (Some 51200) None 0.

Definition read_more : SessionButton.t :=
  SessionButton.mk "Read more" "https://example.com" 0 0.

Definition draft : PostDraft.t :=
  PostDraft.mk None (Some 1) (Some "<b>Hello</b>"%string) (Some [photo_file])
    (Some [read_more]) (Some 5000) (Some PostStatus.SCHEDULED) (Some step_preview).

Definition composing : State :=
  mkState (mkDB [news] [] [] [] [] [] 1 1 1 1)
    (Session.mk (Some draft) None (Some op_newpost)) [] 0 0.

(** The store rejects the second query of a commit: the [media.count] of
    the first [addMedia]. *)
Definition second_query_rejected : nat -> option string :=
  fun n =>
    match n with
    | 1%nat => Some "Can't reach database server"%string
    | _ => None
    end.

Definition formatDate : Z -> string := fun _ => "15 февраля (сб), 10:30"%string.

(** The media step of a new composition, and two uploads. *)
Definition fresh_draft : PostDraft.t :=
  PostDraft.mk None (Some 1) (Some "<b>Hello</b>"%string) None None None None
    (Some step_media).

Definition uploading : State :=
  mkState (mkDB [news] [] [] [] [] [] 1 1 1 1)
    (Session.mk (Some fresh_draft) (Some (AwaitingInput.mk input_media 42))
       (Some op_newpost))
    [] 0 0.

Definition photo_upload : Message.t :=
  Message.mk (Some [TgFile.mk "thumb" (Some 1200); TgFile.mk "photo" (Some 204800)])
    None None None None.

Definition video_upload : Message.t :=
  Message.mk None (Some (TgFile.mk "video" (Some 3145728))) None None (Some "clip"%string).

Definition two_uploads : list (Message.t * UploadType) :=
  [(photo_upload, up_photo); (video_upload, up_video)].

(** A published post with two media, two buttons, a schedule and
    statistics. *)
Definition told : Post.t :=
  Post.mk 1 1 "<b>Hello</b>" PostStatus.PUBLISHED (Some 1900) (Some 55).

Definition first_photo : Media.t :=
  Media.mk 1 1 "photo-a" MediaType.PHOTO (Some 204800) None 0.

Definition second_photo : Media.t :=
  Media.mk 2 1 "photo-b" MediaType.PHOTO (Some 102400) (Some "second"%string) 1.

Definition site_button : PostButton.t := PostButton.mk 1 1 "Site" "https://example.com" 0 0.

Definition more_button : PostButton.t :=
  PostButton.mk 2 1 "More" "https://example.com/more" 1 0.

Definition told_schedule : Schedule.t :=
  Schedule.mk 1 1 1000 (Some 1900) ScheduleStatus.PUBLISHED 0 None.

Definition told_statistics : PostStatistics.t := PostStatistics.mk 1 1 10 2 3.

Definition catalogue : DB :=
  mkDB [news] [told] [first_photo; second_photo] [site_button; more_button]
    [told_schedule] [told_statistics] 2 3 3 2.

Definition catalogue_original : PostFull.t :=
  PostFull.mk told (Some news) [first_photo; second_photo] [site_button; more_button]
    (Some told_schedule) (Some told_statistics).

(** A draft whose first media row has size 0 and whose second media row
    sits at position 2. *)
Definition kept : Post.t := Post.mk 1 1 "Gallery" PostStatus.DRAFT None None.

Definition empty_photo : Media.t := Media.mk 1 1 "photo-a" MediaType.PHOTO (Some 0) None 0.

Definition late_photo : Media.t :=
  Media.mk 3 1 "photo-c" MediaType.PHOTO (Some 102400) None 2.

Definition gapped : DB := mkDB [news] [kept] [empty_photo; late_photo] [] [] [] 2 4 1 1.

Definition gapped_original : PostFull.t :=
  PostFull.mk kept (Some news) [empty_photo; late_photo] [] None None.

Definition gapped_copy : PostFull.t :=
  PostFull.mk (Post.mk 2 1 "Gallery" PostStatus.DRAFT None None) (Some news)
    [Media.mk 4 2 "photo-a" MediaType.PHOTO None None 0;
     Media.mk 5 2 "photo-c" MediaType.PHOTO (Some 102400) None 1]
    [] None None.

End Examples.

(** ** Statements used by the properties *)

Definition failed_patch : PostPatch.t :=
  PostPatch.mk None (Some PostStatus.FAILED) None None.

(** The rows of the post table after [prisma.post.update] with patch [u]. *)
Definition patch_rows (postId : Z) (u : PostPatch.t) (l : list Post.t) : list Post.t :=
  map (fun q => if Post.id q =? postId then PostPatch.apply u q else q) l.

(** The records of a due schedule after a successful delivery, in the
    words of the specification: the schedule and its post are PUBLISHED with
    the publication time, the post carries the returned message id, and the
    post has a statistics row. *)
Definition schedule_published (d : DB) (s : Schedule.t) (now : Z) : Prop :=
  (exists r, In r (schedules d) /\ Schedule.id r = Schedule.id s)
  /\ forall r, In r (schedules d) -> Schedule.id r = Schedule.id s ->
       Schedule.status r = ScheduleStatus.PUBLISHED
       /\ Schedule.published_at r = Some now.

Definition post_published (d : DB) (postId : Z) (now message_id : Z) : Prop :=
  (exists p, In p (posts d) /\ Post.id p = postId)
  /\ forall p, In p (posts d) -> Post.id p = postId ->
       Post.status p = PostStatus.PUBLISHED
       /\ Post.published_at p = Some now
       /\ Post.telegram_message_id p = Some message_id.

Definition has_statistics (d : DB) (postId : Z) : Prop :=
  exists st, In st (statistics d) /\ PostStatistics.post_id st = postId.

Definition delivered_as_specified (d : DB) (s : Schedule.t) (now message_id : Z) : Prop :=
  schedule_published d s now
  /\ post_published d (Schedule.post_id s) now message_id
  /\ has_statistics d (Schedule.post_id s).

(** ** Specifications of computations *)

(** [hoare env P m Q]: run in environment [env] from a state satisfying
    [P], the computation [m] ends (it always does) with a result and a state
    related by [Q]. *)
Definition hoare {A : Type} (env : Env) (P : State -> Prop) (m : M A)
    (Q : Res A -> State -> Prop) : Prop :=
  forall st, P st -> Q (fst (m env st)) (snd (m env st)).

(** [m] keeps [P], whether it returns or throws. *)
Definition stable {A : Type} (env : Env) (P : State -> Prop) (m : M A) : Prop :=
  hoare env P m (fun _ st => P st).

(** A property of the store alone, and one of the conversation alone. *)
Definition on_db (P : DB -> Prop) : State -> Prop := fun st => P (db st).

Definition on_chat (P : Session.t -> list (ApiCall * TgOutcome) -> nat -> Prop)
    : State -> Prop :=
  fun st => P (session st) (apiLog st) (tgCalls st).

(** No Prisma call is rejected. *)
Definition no_rejection (env : Env) : Prop := forall n, dbFault env n = None.

(** ** Commit handlers: what becomes of the draft *)

(** The session once [clearPostDraft] has run. *)
Definition cleared : Session.t := Session.mk None None None.

(** The messages with which the post service rejects. *)
Definition service_failures : list string :=
  ["Не удалось создать публикацию"; "Не удалось добавить медиафайл";
   "Не удалось добавить кнопку"; "Не удалось запланировать публикацию";
   "Не удалось обновить публикацию"]%string.

(** The draft is still in the session and the last request sent is the
    reply [notice]. *)
Definition draft_kept_with_notice (env : Env) (st st' : State) (notice : string) : Prop :=
  session st' = session st
  /\ apiLog st' = apiLog st ++ [(reply notice, tgResult env (tgCalls st))].

(** Save-as-draft: the writes either all succeed and the draft is cleared,
    or one of them is rejected and the draft is kept. *)
Definition save_draft_outcome (env : Env) (st : State) (draft : PostDraft.t)
    (channelId : Z) (text : string) : Prop :=
  match create_post_from_draft PostStatus.DRAFT channelId text draft env st with
  | (Ok _, _) => session (snd (handleSaveDraft env st)) = cleared
  | (Throw _, _) =>
      draft_kept_with_notice env st (snd (handleSaveDraft env st)) draft_failed_message
  end.

Definition schedule_outcome (formatDate : Z -> string) (env : Env) (st : State)
    (draft : PostDraft.t) (channelId : Z) (text : string) (scheduledAt : Z) : Prop :=
  match create_scheduled_post channelId text draft scheduledAt env st with
  | (Ok _, _) => session (snd (handleScheduledPost formatDate env st)) = cleared
  | (Throw e, _) =>
      In e service_failures
      /\ draft_kept_with_notice env st (snd (handleScheduledPost formatDate env st))
           (schedule_failed_prefix +++ e)
  end.

(** Every error [m] throws is one of [errors]. *)
Definition throws_within {A : Type} (errors : list string) (m : M A) : Prop :=
  forall env st e, fst (m env st) = Throw e -> In e errors.

(** [d'] differs from [d] at most in its media and buttons. *)
Definition content_frame (d d' : DB) : Prop :=
  posts d' = posts d
  /\ channels d' = channels d
  /\ schedules d' = schedules d
  /\ statistics d' = statistics d
  /\ next_post_id d' = next_post_id d
  /\ next_schedule_id d' = next_schedule_id d.

(** The autoincrement sequence of posts is ahead of every stored post. *)
Definition post_ids_fresh (d : DB) : Prop :=
  forall p, In p (posts d) -> Post.id p < next_post_id d.

(** ** Media uploads *)

(** The upload carries the file of its type, and the file's size is
    absent, zero or within the limit of its type. *)
Definition passes_size_check (message : Message.t) (type : UploadType) : bool :=
  match extract_file message type with
  | None => false
  | Some (file, _) =>
      match truthy_number (TgFile.file_size file) with
      | Some size =>
          Validation.valid
            (validateMediaSize size (match type with up_animation => up_document | _ => type end))
      | None => true
      end
  end.

(** The entry the handler appends for an upload when the draft already
    holds [n] files. *)
Definition appended_file (message : Message.t) (type : UploadType) (n : nat)
    : list SessionMediaFile.t :=
  match extract_file message type with
  | None => []
  | Some (file, mediaType) =>
      [SessionMediaFile.mk (TgFile.file_id file) mediaType (TgFile.file_size file)
         (Message.caption message) (Z.of_nat n)]
  end.

(** The admin sends the uploads one after the other: each is an update of
    its own, handled under the middleware, and the next one starts from the
    session the plugin stored. *)
Fixpoint upload_all (uploads : list (Message.t * UploadType)) (env : Env) (st : State)
    : State :=
  match uploads with
  | [] => st
  | (message, type) :: rest =>
      upload_all rest env (snd (on_upload message type env st))
  end.

(** The uploads of the sequence whose handler returned, in the order they
    were sent: the ones whose draft the session plugin stored. *)
Fixpoint returned_uploads (uploads : list (Message.t * UploadType)) (env : Env) (st : State)
    : list (Message.t * UploadType) :=
  match uploads with
  | [] => []
  | (message, type) :: rest =>
      match fst (handleMediaUpload message type env st) with
      | Ok _ => (message, type) :: returned_uploads rest env (snd (on_upload message type env st))
      | Throw _ => returned_uploads rest env (snd (on_upload message type env st))
      end
  end.

(** The platform accepts every request. *)
Definition platform_accepts (env : Env) : Prop :=
  forall n, exists message_id, tgResult env n = Delivered message_id.

Definition session_files (st : State) : list SessionMediaFile.t :=
  match Session.postDraft (session st) with
  | Some draft => files_of draft
  | None => []
  end.

Definition awaiting_media (st : State) : Prop :=
  is_awaiting input_media (Session.awaitingInput (session st)) = true.

Definition group_full_message : string :=
  buildValidationErrorMessage "Максимум 10 медиафайлов в одной публикации".

(** The entries appended for a sequence of uploads, the first one at
    index [n]. *)
Fixpoint appended_files (n : nat) (uploads : list (Message.t * UploadType))
    : list SessionMediaFile.t :=
  match uploads with
  | [] => []
  | (message, type) :: rest => appended_file message type n ++ appended_files (S n) rest
  end.

Definition all_pass_size_check (uploads : list (Message.t * UploadType)) : Prop :=
  Forall (fun u => passes_size_check (fst u) (snd u) = true) uploads.

(** ** Markup validation *)

(** What a match of the tag pattern stands for, by the two tests the
    validator makes on it: a closing tag, a self-closing tag, or an opening
    tag; the name is the lower-cased [match[1]]. *)
Inductive TagEvent : Type :=
| Opening (name : string)
| Closing (name : string)
| SelfClosing (name : string).

Definition tag_name (m : TagMatch.t) : string := toLowerCase (TagMatch.name m).

Definition event_of (m : TagMatch.t) : TagEvent :=
  if startsWith (TagMatch.fullTag m) "</" then Closing (tag_name m)
  else if endsWith (TagMatch.fullTag m) "/>" then SelfClosing (tag_name m)
  else Opening (tag_name m).

Definition tag_events (text : string) : list TagEvent := map event_of (tag_matches text).

Definition tag_names (text : string) : list string := map tag_name (tag_matches text).

Definition whitelisted (name : string) : Prop := In name allowedTags.

(** Properly nested whitelisted tags: nothing; a self-closing tag followed
    by a nested sequence; or an opening tag, a nested sequence, the closing
    tag of the same name, and a nested sequence. *)
Inductive well_nested : list TagEvent -> Prop :=
| nested_nil : well_nested []
| nested_self (t : string) (w : list TagEvent) :
    whitelisted t -> well_nested w -> well_nested (SelfClosing t :: w)
| nested_pair (t : string) (w1 w2 : list TagEvent) :
    whitelisted t -> well_nested w1 -> well_nested w2 ->
    well_nested (Opening t :: w1 ++ Closing t :: w2).

(** [piece] occurs in [message]. *)
Definition mentions (message piece : string) : Prop :=
  exists before after, message = before +++ piece +++ after.

(** The three rejections, each naming the tags at fault, taken among the
    tag names [names] of the text. *)
Definition rejects_unknown (names : list string) (message : string) : Prop :=
  exists tag,
    In tag names /\ ~ whitelisted tag
    /\ message = unknown_tag_message tag
    /\ mentions message ("<" +++ tag +++ ">").

Definition rejects_nesting (names : list string) (message : string) : Prop :=
  exists expected found,
    In found names /\ expected <> Some found
    /\ message = nesting_message expected found
    /\ mentions message ("</" +++ found +++ ">")
    /\ mentions message
         ("</" +++ (match expected with Some t => t | None => "undefined"%string end) +++ ">")
    /\ match expected with Some t => In t names | None => True end.

Definition rejects_unclosed (names : list string) (message : string) : Prop :=
  exists openTags,
    openTags <> []
    /\ message = unclosed_message openTags
    /\ forall t, In t openTags -> In t names /\ mentions message ("<" +++ t +++ ">").

Definition rejection (names : list string) (message : string) : Prop :=
  message <> EmptyString
  /\ (rejects_unknown names message
      \/ rejects_nesting names message
      \/ rejects_unclosed names message).

(** The stack discipline read off the events: [closes stack w] when [w]
    closes the open tags of [stack], innermost first, with nested sequences
    in between and after. *)
Inductive closes : list string -> list TagEvent -> Prop :=
| closes_none (w : list TagEvent) : well_nested w -> closes [] w
| closes_top (t : string) (stack : list string) (w1 w2 : list TagEvent) :
    whitelisted t -> well_nested w1 -> closes stack w2 ->
    closes (t :: stack) (w1 ++ Closing t :: w2).

(** [check_tags] on events. *)
Fixpoint check_events (openTags : list string) (w : list TagEvent) : Validation.t :=
  match w with
  | [] =>
      match openTags with
      | [] => Validation.ok
      | _ => Validation.fail (unclosed_message (rev openTags))
      end
  | Closing tagName :: w' =>
      if negb (includes allowedTags tagName) then
        Validation.fail (unknown_tag_message tagName)
      else
        match openTags with
        | lastOpen :: openTags' =>
            if String.eqb lastOpen tagName then check_events openTags' w'
            else Validation.fail (nesting_message (Some lastOpen) tagName)
        | [] => Validation.fail (nesting_message None tagName)
        end
  | Opening tagName :: w' =>
      if negb (includes allowedTags tagName) then
        Validation.fail (unknown_tag_message tagName)
      else check_events (tagName :: openTags) w'
  | SelfClosing tagName :: w' =>
      if negb (includes allowedTags tagName) then
        Validation.fail (unknown_tag_message tagName)
      else check_events openTags w'
  end.

Definition event_name (e : TagEvent) : string :=
  match e with
  | Opening t | Closing t | SelfClosing t => t
  end.

(** ** Duplication *)

(** Neighbouring elements are in order. *)
Fixpoint sorted_by {A : Type} (le : A -> A -> bool) (l : list A) : Prop :=
  match l with
  | [] => True
  | x :: rest =>
      match rest with
      | [] => True
      | y :: _ => le x y = true /\ sorted_by le rest
      end
  end.

(** Every row that refers to a post, and every post, has an id the post
    sequence has already passed. *)
Definition references_below (d : DB) : Prop :=
  (forall p, In p (posts d) -> Post.id p < next_post_id d)
  /\ (forall m, In m (media d) -> Media.post_id m < next_post_id d)
  /\ (forall b, In b (buttons d) -> PostButton.post_id b < next_post_id d)
  /\ (forall s, In s (schedules d) -> Schedule.post_id s < next_post_id d)
  /\ (forall s, In s (statistics d) -> PostStatistics.post_id s < next_post_id d).

(** What [getPostById] reads for [postId] in store [d]. *)
Definition lookup_post (d : DB) (postId : Z) : option PostFull.t :=
  match fst (post_findUnique postId d) with
  | Ok found => found
  | Throw _ => None
  end.

Definition media_content (m : Media.t)
    : string * MediaType.t * option Z * option string * Z :=
  (Media.file_id m, Media.file_type m, Media.file_size m, Media.caption m, Media.position m).

Definition button_content (b : PostButton.t) : string * string * Z * Z :=
  (PostButton.text b, PostButton.url b, PostButton.row b, PostButton.position b).

(** The rows [duplicatePost] adds for the media [items] of the original,
    when the copy already has [k] media and the media sequence is at [id]. *)
Fixpoint media_copies (postId id : Z) (k : nat) (items : list Media.t) : list Media.t :=
  match items with
  | [] => []
  | m :: rest =>
      Media.mk id postId (Media.file_id m) (Media.file_type m)
        (truthy_number (Media.file_size m)) (truthy_string (Media.caption m)) (Z.of_nat k)
        :: media_copies postId (id + 1) (S k) rest
  end.

Fixpoint button_copies (postId id : Z) (items : list PostButton.t) : list PostButton.t :=
  match items with
  | [] => []
  | b :: rest =>
      PostButton.mk id postId (PostButton.text b) (PostButton.url b) (PostButton.row b)
        (PostButton.position b)
        :: button_copies postId (id + 1) rest
  end.

(** The copy is a fresh draft of the original: same channel and text, no
    delivery data, no schedule, no statistics. *)
Definition fresh_draft_of (original copy : PostFull.t) : Prop :=
  Post.status (PostFull.post copy) = PostStatus.DRAFT
  /\ Post.text (PostFull.post copy) = Post.text (PostFull.post original)
  /\ Post.channel_id (PostFull.post copy) = Post.channel_id (PostFull.post original)
  /\ Post.telegram_message_id (PostFull.post copy) = None
  /\ Post.published_at (PostFull.post copy) = None
  /\ PostFull.schedule copy = None
  /\ PostFull.statistics copy = None.

(** The copy's media are the original's in order: same file and type,
    positions counted from 0, the size and caption passed through
    [x || undefined]. *)
Definition media_copied (original copy : PostFull.t) : Prop :=
  map Media.file_id (PostFull.media copy) = map Media.file_id (PostFull.media original)
  /\ map Media.file_type (PostFull.media copy)
     = map Media.file_type (PostFull.media original)
  /\ map Media.position (PostFull.media copy)
     = map Z.of_nat (seq 0 (length (PostFull.media original)))
  /\ map Media.file_size (PostFull.media copy)
     = map (fun m => truthy_number (Media.file_size m)) (PostFull.media original)
  /\ map Media.caption (PostFull.media copy)
     = map (fun m => truthy_string (Media.caption m)) (PostFull.media original).

(** The original's media are at positions 0, 1, ... and none has a zero
    size or an empty caption. *)
Definition plain_media (original : PostFull.t) : Prop :=
  map Media.position (PostFull.media original)
  = map Z.of_nat (seq 0 (length (PostFull.media original)))
  /\ forall m, In m (PostFull.media original) ->
       Media.file_size m <> Some 0 /\ Media.caption m <> Some EmptyString.

(** The copy as the specification describes it. *)
Definition identical_copy (original copy : PostFull.t) : Prop :=
  fresh_draft_of original copy
  /\ map media_content (PostFull.media copy) = map media_content (PostFull.media original)
  /\ map button_content (PostFull.buttons copy)
     = map button_content (PostFull.buttons original).

(** ** The remote message id and the status *)

(** The post carries a remote message id exactly when it is PUBLISHED. *)
Definition consistent (p : Post.t) : Prop :=
  Post.telegram_message_id p <> None <-> Post.status p = PostStatus.PUBLISHED.

(** No post with id [postId] carries a remote message id. *)
Definition unsent (l : list Post.t) (postId : Z) : Prop :=
  forall p, In p l -> Post.id p = postId -> Post.telegram_message_id p = None.

(** What the operations keep true of the store between two of them: every
    post is consistent, the post of a PENDING schedule has not been sent,
    no two schedules are for the same post (the unique index on
    [post_id]), and the post sequence is ahead of every post and of every
    post a schedule refers to. *)
Definition store_invariant (d : DB) : Prop :=
  (forall p, In p (posts d) -> consistent p)
  /\ (forall s, In s (schedules d) -> Schedule.status s = ScheduleStatus.PENDING ->
        unsent (posts d) (Schedule.post_id s))
  /\ NoDup (map Schedule.post_id (schedules d))
  /\ (forall p, In p (posts d) -> Post.id p < next_post_id d)
  /\ (forall s, In s (schedules d) -> Schedule.post_id s < next_post_id d).

(** The operations that write posts: the three ways a composition is
    committed, the tick of the scheduler, and duplication. *)
Inductive Action : Type :=
| publish_now
| save_draft
| schedule_post (formatDate : Z -> string)
| scheduler_tick
| duplicate (postId : Z).

(** The state a complete run of the operation leaves. *)
Definition run (op : Action) (env : Env) (st : State) : State :=
  match op with
  | publish_now => snd (handlePublishNow env st)
  | save_draft => snd (handleSaveDraft env st)
  | schedule_post formatDate => snd (handleScheduledPost formatDate env st)
  | scheduler_tick => snd (checkAndPublishScheduledPosts env st)
  | duplicate postId => snd (duplicatePost postId env st)
  end.

(** The stores reached from one without posts and schedules by complete
    runs of the operations, in any session and with any answers of the
    platform, while no query is rejected. *)
Inductive reachable : DB -> Prop :=
| reachable_empty (d : DB) : posts d = [] -> schedules d = [] -> reachable d
| reachable_step (op : Action) (env : Env) (st : State) :
    reachable (db st) -> no_rejection env -> reachable (db (run op env st)).

(** The rows of the post table after a delivery at [now] that returned
    [message_id]: the two updates of [publishPostToTelegram]. *)
Definition delivered_rows (postId now message_id : Z) (l : list Post.t) : list Post.t :=
  patch_rows postId (PostPatch.mk None None (Some now) (Some message_id))
    (patch_rows postId (PostPatch.mk None (Some PostStatus.PUBLISHED) None None) l).

(** The schedule table after [prisma.schedule.update] of row [id]. *)
Definition patch_schedules (id : Z) (u : SchedulePatch.t) (l : list Schedule.t)
    : list Schedule.t :=
  map (fun q => if Schedule.id q =? id then SchedulePatch.apply u q else q) l.

(** [publishPostToTelegram] returns early: the post or its channel is not
    in the store. *)
Definition lookup_fails (d : DB) (postId : Z) : Prop :=
  find_post d postId = None
  \/ exists p, find_post d postId = Some p /\ find_channel d (Post.channel_id p) = None.

(** What one iteration of the scheduler's loop does to the store when no
    query is rejected: the schedule is closed as FAILED and its post is
    left alone or marked FAILED, or the schedule is closed as PUBLISHED and
    its post carries the delivery. *)
Definition delivery_step (s : Schedule.t) (now : Z) (d d' : DB) : Prop :=
  next_post_id d' = next_post_id d
  /\ ((exists u,
         SchedulePatch.status u = Some ScheduleStatus.FAILED
         /\ schedules d' = patch_schedules (Schedule.id s) u (schedules d)
         /\ (posts d' = posts d
             \/ posts d' = patch_rows (Schedule.post_id s) failed_patch (posts d)))
      \/ (exists u message_id,
            SchedulePatch.status u = Some ScheduleStatus.PUBLISHED
            /\ schedules d' = patch_schedules (Schedule.id s) u (schedules d)
            /\ posts d' = delivered_rows (Schedule.post_id s) now message_id (posts d))).

(** The loop of the scheduler with the records [rest] still to handle:
    they are for different posts, none of which has been sent, and each
    still has its row. *)
Definition tick_invariant (rest : list Schedule.t) (d : DB) : Prop :=
  store_invariant d
  /\ NoDup (map Schedule.post_id rest)
  /\ forall s, In s rest ->
       unsent (posts d) (Schedule.post_id s)
       /\ exists r, In r (schedules d) /\ Schedule.id r = Schedule.id s
                    /\ Schedule.post_id r = Schedule.post_id s.

(** * Statements about the further parts *)

(** ** Callback data *)

(** [Number.MAX_SAFE_INTEGER]: up to it every integer is a number, [String]
    writes all its digits and [parseInt] reads them back. *)
Definition MAX_SAFE_INTEGER : Z := 2 ^ 53 - 1.

(** Every character of [s] is a decimal digit. *)
Fixpoint all_digits (s : string) : bool :=
  match s with
  | EmptyString => true
  | String c s' => is_digit c && all_digits s'
  end.

(** No character of [s] is a decimal digit. *)
Fixpoint no_digit (s : string) : bool :=
  match s with
  | EmptyString => true
  | String c s' => negb (is_digit c) && no_digit s'
  end.

(** The number of underscores in [s]. *)
Fixpoint underscores (s : string) : nat :=
  match s with
  | EmptyString => O
  | String c s' => if Ascii.eqb c "_" then S (underscores s') else underscores s'
  end.

(** ** What an operation leaves alone *)

(** [l'] holds the rows of [l], in the same order and with the same keys;
    a row whose key is not in [keys] is the same in both. *)
Definition changed_only_at {A : Type} (key : A -> Z) (keys : list Z) (l l' : list A) : Prop :=
  Forall2 (fun x x' => key x' = key x /\ (~ In (key x) keys -> x' = x)) l l'.

(** The store [d'] differs from [d] at most in the posts with an id in
    [postIds] and in the schedules with an id in [scheduleIds]. *)
Definition touches_only (postIds scheduleIds : list Z) (d d' : DB) : Prop :=
  changed_only_at Post.id postIds (posts d) (posts d')
  /\ changed_only_at Schedule.id scheduleIds (schedules d) (schedules d')
  /\ channels d' = channels d
  /\ media d' = media d
  /\ buttons d' = buttons d
  /\ statistics d' = statistics d
  /\ next_post_id d' = next_post_id d
  /\ next_media_id d' = next_media_id d
  /\ next_button_id d' = next_button_id d
  /\ next_schedule_id d' = next_schedule_id d.

(** ** What a delivery records *)

(** The delivery columns of the post table: remote message id and
    publication time of every row. *)
Definition delivery_columns (d : DB) : list (option Z * option Z) :=
  map (fun p => (Post.telegram_message_id p, Post.published_at p)) (posts d).

(** ** What a commit stores *)

(** The media rows a commit adds for the files of the draft, when the post
    already has [k] media and the media sequence is at [id]. *)
Fixpoint draft_media (postId id : Z) (k : nat) (files : list SessionMediaFile.t)
    : list Media.t :=
  match files with
  | [] => []
  | f :: rest =>
      Media.mk id postId (SessionMediaFile.fileId f) (SessionMediaFile.fileType f)
        (SessionMediaFile.fileSize f) (SessionMediaFile.caption f) (Z.of_nat k)
        :: draft_media postId (id + 1) (S k) rest
  end.

(** The button rows a commit adds for the buttons of the draft. *)
Fixpoint draft_buttons (postId id : Z) (items : list SessionButton.t) : list PostButton.t :=
  match items with
  | [] => []
  | b :: rest =>
      PostButton.mk id postId (SessionButton.text b) (SessionButton.url b)
        (SessionButton.row b) (SessionButton.position b)
        :: draft_buttons postId (id + 1) rest
  end.

(** The store after a commit of [draft] as a post with [status], before
    anything else is written. *)
Definition committed (d : DB) (status : PostStatus.t) (channelId : Z) (text : string)
    (draft : PostDraft.t) : DB :=
  mkDB (channels d)
    (posts d ++ [Post.mk (next_post_id d) channelId text status None None])
    (media d ++ draft_media (next_post_id d) (next_media_id d) 0 (files_of draft))
    (buttons d ++ draft_buttons (next_post_id d) (next_button_id d) (buttons_of_draft draft))
    (schedules d) (statistics d)
    (next_post_id d + 1)
    (next_media_id d + Z.of_nat (length (files_of draft)))
    (next_button_id d + Z.of_nat (length (buttons_of_draft draft)))
    (next_schedule_id d).

(** What [getPostById] returns for the post of a commit. *)
Definition committed_post (d : DB) (status : PostStatus.t) (channelId : Z) (text : string)
    (draft : PostDraft.t) (c : Channel.t) (schedule : option Schedule.t) : PostFull.t :=
  PostFull.mk (Post.mk (next_post_id d) channelId text status None None) (Some c)
    (draft_media (next_post_id d) (next_media_id d) 0 (files_of draft))
    (sort_by button_le
       (draft_buttons (next_post_id d) (next_button_id d) (buttons_of_draft draft)))
    schedule None.

(** No row of the store refers to [postId]. *)
Definition unreferenced (d : DB) (postId : Z) : Prop :=
  find_post d postId = None
  /\ media_of d postId = []
  /\ buttons_of d postId = []
  /\ schedule_of d postId = None
  /\ statistics_of d postId = None.

(** The draft lacks what every commit needs: there is no draft, or its
    channel is absent or 0, or its text is absent or empty. *)
Definition incomplete (s : Session.t) : Prop :=
  match Session.postDraft s with
  | None => True
  | Some draft =>
      PostDraft.channelId draft = None \/ PostDraft.channelId draft = Some 0
      \/ PostDraft.text draft = None \/ PostDraft.text draft = Some EmptyString
  end.

(** The handler answered with one reply and did nothing else. *)
Definition only_replied (env : Env) (st : State) (r : Res unit * State) : Prop :=
  fst r = Ok tt
  /\ db (snd r) = db st
  /\ session (snd r) = session st
  /\ dbCalls (snd r) = dbCalls st
  /\ exists notice, apiLog (snd r) = apiLog st ++ [(reply notice, tgResult env (tgCalls st))].

(** The size limit of validators.ts for a stored file type. *)
Definition size_limit (t : MediaType.t) : Z :=
  match t with
  | MediaType.PHOTO => LIMITS.MAX_PHOTO_SIZE
  | MediaType.VIDEO => LIMITS.MAX_VIDEO_SIZE
  | _ => LIMITS.MAX_DOCUMENT_SIZE
  end.

Definition within_limit (f : SessionMediaFile.t) : Prop :=
  match SessionMediaFile.fileSize f with
  | Some size => size <= size_limit (SessionMediaFile.fileType f)
  | None => True
  end.

(** What the keyboard shows of a button. *)
Definition button_label (b : PostButton.t) : KeyboardButton :=
  (PostButton.text b, PostButton.url b).

(** The buttons of one keyboard row come from one row of the post and are
    in the order of their positions. *)
Definition one_row (r : list PostButton.t) : Prop :=
  r <> []
  /\ sorted_by position_le r
  /\ forall a b, In a r -> In b r -> PostButton.row a = PostButton.row b.

(** The row number of the buttons of a keyboard row. *)
Definition row_number (r : list PostButton.t) : Z :=
  match r with
  | b :: _ => PostButton.row b
  | [] => 0
  end.

(** The character [c] occurs in [s]. *)
Fixpoint occurs (c : ascii) (s : string) : bool :=
  match s with
  | EmptyString => false
  | String x s' => Ascii.eqb x c || occurs c s'
  end.

(** The text holds a [<] with a [>] somewhere after it. *)
Fixpoint has_tag (text : list CodeUnit) : bool :=
  match text with
  | [] => false
  | c :: rest => (N.eqb c lt_sign && existsb (N.eqb gt_sign) rest) || has_tag rest
  end.

Module MoreExamples.

(** The platform delivers the first request and rejects the next ones. *)
Definition second_request_rejected : nat -> TgOutcome :=
  fun n =>
    match n with
    | O => Delivered 77
    | _ => Rejected "Bad Request: BUTTON_URL_INVALID"
    end.

End MoreExamples.

(** [data] is [word] followed by a non-empty run of digits, and [n] is the
    number [parseInt] gives for the run. *)
Definition word_then_number (word data : string) (n : JsNumber) : Prop :=
  exists digits,
    data = word +++ digits
    /\ digits <> EmptyString
    /\ all_digits digits = true
    /\ n = parseInt digits.

(** * Properties *)

Ltac break_in H :=
  match type of H with
  | context [match ?x with _ => _ end] =>
      match x with
      | context [match _ with _ => _ end] => fail 1
      | _ => destruct x eqn:?
      end
  end.

Ltac unfold_m H :=
  cbv beta iota delta
    [publishPostToTelegram try_catch bind getPostById updatePost newDate ret throw prisma
     telegram getBotInstance getSession putSession ignore post_findUnique] in H.

(** ** Inversion of the store queries *)

Lemma post_update_ok (postId : Z) (u : PostPatch.t) (d d' : DB) (p : Post.t) :
  post_update postId u d = (Ok p, d') ->
  (exists q, In q (posts d) /\ Post.id q = postId)
  /\ d' = with_posts (patch_rows postId u (posts d)) (next_post_id d) d.
Proof.
  unfold post_update, find_post. intros H.
  destruct (find _ (posts d)) as [q|] eqn:Hfind; inversion H; subst.
  split; [|reflexivity].
  exists q. apply find_some in Hfind. destruct Hfind as [Hin Heq].
  apply Z.eqb_eq in Heq. auto.
Qed.

Lemma in_patched {A : Type} (key : A -> Z) (f : A -> A) (k : Z) (l : list A) (x : A) :
  In x (map (fun q => if key q =? k then f q else q) l) ->
  (exists q, In q l /\ key q = k /\ x = f q) \/ (In x l /\ key x <> k).
Proof.
  intros H. apply in_map_iff in H. destruct H as [q [Hq Hin]].
  destruct (key q =? k) eqn:E.
  - left. exists q. apply Z.eqb_eq in E. auto.
  - right. subst x. apply Z.eqb_neq in E. auto.
Qed.

Lemma find_schedule_in (d : DB) (s : Schedule.t) :
  In s (schedules d) -> exists r, find_schedule d (Schedule.id s) = Some r.
Proof.
  intros Hin. unfold find_schedule.
  destruct (find _ (schedules d)) as [r|] eqn:Hfind; [eauto|].
  apply (find_none _ _ Hfind) in Hin. rewrite Z.eqb_refl in Hin. discriminate.
Qed.

(** ** Scheduler: what a failed delivery does to the schedule *)

(** Whatever the attempt count, the record handled by an iteration whose
    delivery returned [false] ends FAILED with one more attempt. *)
Lemma failed_delivery_closes_schedule (env : Env) (st st1 : State) (s r : Schedule.t) :
  botInstance env = true ->
  publishPostToTelegram (Schedule.post_id s) env st = (Ok false, st1) ->
  dbFault env (dbCalls st1) = None ->
  In r (schedules (db (snd (process_due_schedule s env st)))) ->
  Schedule.id r = Schedule.id s ->
  Schedule.status r = ScheduleStatus.FAILED
  /\ Schedule.attempts r = Schedule.attempts s + 1.
Proof.
  intros Hbot Hpub Hfault Hin Hid.
  unfold process_due_schedule, try_catch, bind, getBotInstance in Hin.
  rewrite Hbot in Hin. unfold ret at 1 in Hin. rewrite Hpub in Hin.
  unfold prisma in Hin. rewrite Hfault in Hin.
  unfold schedule_update in Hin.
  destruct (find_schedule (db st1) (Schedule.id s)) as [found|] eqn:Hfind.
  - simpl in Hin. apply in_patched in Hin.
    destruct Hin as [[q [_ [_ ->]]]|[_ Hne]]; [simpl; auto | contradiction].
  - simpl in Hin. rewrite Hfind in Hin.
    destruct (dbFault env (S (dbCalls st1))); simpl in Hin.
    + exfalso. unfold find_schedule in Hfind.
      apply (find_none _ _ Hfind) in Hin. apply Z.eqb_neq in Hin. contradiction.
    + exfalso. unfold find_schedule in Hfind.
      apply (find_none _ _ Hfind) in Hin. apply Z.eqb_neq in Hin. contradiction.
Qed.

(** C1 (the code departs from the specification).  One due record with
    no attempt so far, and a platform that rejects the send: after the tick
    the record is FAILED with [attempts = 1], below the ceiling of 3, and
    the next tick sends nothing and changes nothing, so the delivery is
    never retried. *)
Theorem first_failure_is_final :
  let env := Examples.env_of Examples.no_fault Examples.rejecting in
  let st1 := snd (checkAndPublishScheduledPosts env (Examples.state_of Examples.one_due)) in
  let st2 := snd (checkAndPublishScheduledPosts env st1) in
  map (fun s => (Schedule.status s, Schedule.attempts s)) (schedules (db st1))
    = [(ScheduleStatus.FAILED, 1)]
  /\ length (apiLog st1) = 1%nat
  /\ apiLog st2 = apiLog st1
  /\ db st2 = db st1.
Proof. vm_compute. repeat split. Qed.

(** ** Delivery engine: what a successful delivery leaves behind *)

Lemma published_rows (postId now message_id : Z) (l : list Post.t) :
  (exists q, In q l /\ Post.id q = postId) ->
  let l' := patch_rows postId (PostPatch.mk None None (Some now) (Some message_id))
              (patch_rows postId (PostPatch.mk None (Some PostStatus.PUBLISHED) None None) l) in
  (exists p, In p l' /\ Post.id p = postId)
  /\ forall p, In p l' -> Post.id p = postId ->
       Post.status p = PostStatus.PUBLISHED
       /\ Post.published_at p = Some now
       /\ Post.telegram_message_id p = Some message_id.
Proof.
  intros [q [Hin Hid]] l'. subst l'. unfold patch_rows. split.
  - eexists. split.
    + apply in_map, in_map. exact Hin.
    + simpl. rewrite Hid, Z.eqb_refl. simpl. rewrite Hid, Z.eqb_refl. simpl. exact Hid.
  - intros p Hp Hpid.
    apply in_patched in Hp. destruct Hp as [[q1 [Hq1 [_ ->]]]|[_ Hne]]; [|contradiction].
    apply in_patched in Hq1. destruct Hq1 as [[q2 [_ [_ ->]]]|[_ Hne]].
    + simpl. auto.
    + simpl in Hpid. contradiction.
Qed.

Lemma publish_true_effects (postId : Z) (env : Env) (st st1 : State) :
  publishPostToTelegram postId env st = (Ok true, st1) ->
  exists message_id,
    tgResult env (tgCalls st) = Delivered message_id
    /\ post_published (db st1) postId (clock env) message_id
    /\ schedules (db st1) = schedules (db st)
    /\ statistics (db st1) = statistics (db st).
Proof.
  intros H. unfold_m H. simpl in H.
  repeat (break_in H; simpl in H; try discriminate).
  all: injection H as <-.
  all: match goal with
       | H1 : post_update _ _ (db ?w0) = (Ok _, ?d1),
         H2 : post_update _ _ ?d1 = (Ok _, _),
         H3 : tgResult _ (tgCalls ?w0) = Delivered ?m |- _ =>
           apply post_update_ok in H1; destruct H1 as [Hex ->];
           apply post_update_ok in H2; destruct H2 as [_ ->];
           exists m
       end.
  all: split; [reflexivity|].
  all: split; [apply (published_rows postId _ _ _ Hex)|].
  all: simpl; auto.
Qed.

Lemma process_due_schedule_success (env : Env) (st st1 : State) (s r : Schedule.t) :
  botInstance env = true ->
  publishPostToTelegram (Schedule.post_id s) env st = (Ok true, st1) ->
  dbFault env (dbCalls st1) = None ->
  find_schedule (db st1) (Schedule.id s) = Some r ->
  process_due_schedule s env st
  = (Ok tt,
     set_db
       (with_schedules
          (map (fun q =>
                  if Schedule.id q =? Schedule.id s
                  then SchedulePatch.apply
                         (SchedulePatch.mk (Some ScheduleStatus.PUBLISHED)
                            (Some (clock env)) None None) q
                  else q)
             (schedules (db st1)))
          (next_schedule_id (db st1)) (db st1))
       (count_db_call st1)).
Proof.
  intros Hbot Hpub Hfault Hr.
  unfold process_due_schedule, try_catch, bind, getBotInstance.
  rewrite Hbot. unfold ret at 1. rewrite Hpub.
  unfold newDate, prisma. rewrite Hfault.
  unfold schedule_update. rewrite Hr. reflexivity.
Qed.

(** C2, as amended.  In the iteration of the tick that handles a due
    record whose delivery succeeds, the schedule becomes PUBLISHED with the
    publication time, the post is PUBLISHED with the publication time and
    the message id the platform returned, and the statistics table is left
    as it was: no statistics row is created. *)
Theorem successful_delivery_records (env : Env) (st st1 : State) (s : Schedule.t) :
  botInstance env = true ->
  In s (schedules (db st)) ->
  publishPostToTelegram (Schedule.post_id s) env st = (Ok true, st1) ->
  dbFault env (dbCalls st1) = None ->
  exists message_id,
    tgResult env (tgCalls st) = Delivered message_id
    /\ schedule_published (db (snd (process_due_schedule s env st))) s (clock env)
    /\ post_published (db (snd (process_due_schedule s env st))) (Schedule.post_id s)
         (clock env) message_id
    /\ statistics (db (snd (process_due_schedule s env st))) = statistics (db st).
Proof.
  intros Hbot Hin Hpub Hfault.
  destruct (publish_true_effects _ _ _ _ Hpub) as [mid [Htg [Hpost [Hsched Hstat]]]].
  exists mid. split; [exact Htg|].
  rewrite <- Hsched in Hin. destruct (find_schedule_in _ _ Hin) as [r Hr].
  rewrite (process_due_schedule_success env st st1 s r Hbot Hpub Hfault Hr).
  simpl.
  split; [|split; [exact Hpost | exact Hstat]].
  split.
  - exists (SchedulePatch.apply
              (SchedulePatch.mk (Some ScheduleStatus.PUBLISHED) (Some (clock env)) None None)
              s).
    split; [|reflexivity].
    apply in_map_iff. exists s. rewrite Z.eqb_refl. auto.
  - intros r' Hr' Hid.
    apply in_patched in Hr'. destruct Hr' as [[q [_ [_ ->]]]|[_ Hne]]; [|contradiction].
    simpl. auto.
Qed.

Lemma successful_delivery_records_witness :
  exists message_id,
    tgResult (Examples.env_of Examples.no_fault (Examples.delivering 77)) 0%nat
    = Delivered message_id
    /\ schedule_published
         (db (snd (process_due_schedule Examples.hello_due
                     (Examples.env_of Examples.no_fault (Examples.delivering 77))
                     (Examples.state_of Examples.one_due))))
         Examples.hello_due 2000
    /\ post_published
         (db (snd (process_due_schedule Examples.hello_due
                     (Examples.env_of Examples.no_fault (Examples.delivering 77))
                     (Examples.state_of Examples.one_due))))
         1 2000 message_id
    /\ statistics
         (db (snd (process_due_schedule Examples.hello_due
                     (Examples.env_of Examples.no_fault (Examples.delivering 77))
                     (Examples.state_of Examples.one_due)))) = [].
Proof.
  apply (successful_delivery_records
           (Examples.env_of Examples.no_fault (Examples.delivering 77))
           (Examples.state_of Examples.one_due)
           (snd (publishPostToTelegram 1
                   (Examples.env_of Examples.no_fault (Examples.delivering 77))
                   (Examples.state_of Examples.one_due)))
           Examples.hello_due).
  - reflexivity.
  - simpl. left. reflexivity.
  - vm_compute. reflexivity.
  - reflexivity.
Defined.

(** C2, as the specification states it, fails: after a tick that delivers
    the due post the store holds no statistics row for it. *)
Lemma delivery_creates_no_statistics :
  ~ delivered_as_specified
      (db (snd (checkAndPublishScheduledPosts
                  (Examples.env_of Examples.no_fault (Examples.delivering 77))
                  (Examples.state_of Examples.one_due))))
      Examples.hello_due 2000 77.
Proof.
  intros [_ [_ [st [Hin _]]]]. vm_compute in Hin. exact Hin.
Qed.

(** ** Scheduler: isolation of one record's failure *)

(** C5 (the code departs from the specification).  Two records are due
    and the store rejects two queries in a row while the first is handled: the
    [schedule.update] after its delivery and the [schedule.update] of the
    [catch] block.  The second rejection leaves the loop: the tick ends
    normally, the only request sent is the first post's, and the second
    record and its post are as they were, never attempted.  With a store
    that answers, the same tick sends both posts. *)
Theorem rejected_handler_update_ends_the_tick :
  let env := Examples.env_of Examples.connection_lost (Examples.delivering 77) in
  let calm := Examples.env_of Examples.no_fault (Examples.delivering 77) in
  let st := Examples.state_of Examples.two_due in
  fst (checkAndPublishScheduledPosts env st) = Ok tt
  /\ map fst (apiLog (snd (checkAndPublishScheduledPosts env st)))
     = [sendMessage (-1001234) "<b>Hello</b>" None]
  /\ find_schedule (db (snd (checkAndPublishScheduledPosts env st))) 2
     = Some Examples.second_due
  /\ find_post (db (snd (checkAndPublishScheduledPosts env st))) 2 = Some Examples.second
  /\ map fst (apiLog (snd (checkAndPublishScheduledPosts calm st)))
     = [sendMessage (-1001234) "<b>Hello</b>" None; sendMessage (-1001234) "Second" None].
Proof. vm_compute. repeat split. Qed.

(** ** Delivery engine: order of the keyboard rows *)

(** C4 (the code departs from the specification).  The row keys are
    sorted without a comparator, that is as strings, so row 10 comes before
    row 2: the keyboard built for a post with one button in each of these
    rows, and sent with the post, shows the row-10 button first. *)
Theorem row_ten_is_rendered_before_row_two :
  build_keyboard [Examples.two_button; Examples.ten_button]
  = [[("ten", "https://example.com/10")]; [("two", "https://example.com/2")]; []]%string
  /\ map fst (apiLog (snd (publishPostToTelegram 1
                             (Examples.env_of Examples.no_fault (Examples.delivering 5))
                             (Examples.state_of Examples.with_far_rows))))
     = [sendMessage (-1001234) "<b>Hello</b>"
          (Some [[("ten", "https://example.com/10")];
                 [("two", "https://example.com/2")]; []])]%string.
Proof. vm_compute. split; reflexivity. Qed.

(** ** Rules for [hoare] and [stable] *)

Section Rules.

Context {A B : Type} (env : Env).

Lemma hoare_ret (P : State -> Prop) (Q : Res A -> State -> Prop) (a : A) :
  (forall st, P st -> Q (Ok a) st) -> hoare env P (ret a) Q.
Proof. intros H st HP. apply H, HP. Qed.

Lemma hoare_throw (P : State -> Prop) (Q : Res A -> State -> Prop) (e : string) :
  (forall st, P st -> Q (Throw e) st) -> hoare env P (throw e) Q.
Proof. intros H st HP. apply H, HP. Qed.

Lemma hoare_bind (P : State -> Prop) (R : Res A -> State -> Prop)
    (Q : Res B -> State -> Prop) (m : M A) (k : A -> M B) :
  hoare env P m R ->
  (forall a, hoare env (R (Ok a)) (k a) Q) ->
  (forall e st, R (Throw e) st -> Q (Throw e) st) ->
  hoare env P (bind m k) Q.
Proof.
  intros Hm Hk He st HP. specialize (Hm st HP). unfold bind.
  destruct (m env st) as [[a|e] st1]; simpl in *.
  - apply Hk, Hm.
  - apply He, Hm.
Qed.

Lemma hoare_try (P : State -> Prop) (R Q : Res A -> State -> Prop)
    (m : M A) (h : string -> M A) :
  hoare env P m R ->
  (forall a st, R (Ok a) st -> Q (Ok a) st) ->
  (forall e, hoare env (R (Throw e)) (h e) Q) ->
  hoare env P (try_catch m h) Q.
Proof.
  intros Hm Hok Hh st HP. specialize (Hm st HP). unfold try_catch.
  destruct (m env st) as [[a|e] st1]; simpl in *.
  - apply Hok, Hm.
  - apply Hh, Hm.
Qed.

Lemma hoare_weaken (P P' : State -> Prop) (Q Q' : Res A -> State -> Prop) (m : M A) :
  hoare env P m Q ->
  (forall st, P' st -> P st) ->
  (forall r st, Q r st -> Q' r st) ->
  hoare env P' m Q'.
Proof. intros Hm HP HQ st HP'. apply HQ, Hm, HP, HP'. Qed.

Lemma stable_ret (P : State -> Prop) (a : A) : stable env P (ret a).
Proof. intros st HP. exact HP. Qed.

Lemma stable_throw (P : State -> Prop) (e : string) : stable env P (@throw A e).
Proof. intros st HP. exact HP. Qed.

Lemma stable_bind (P : State -> Prop) (m : M A) (k : A -> M B) :
  stable env P m -> (forall a, stable env P (k a)) -> stable env P (bind m k).
Proof.
  intros Hm Hk. apply (hoare_bind P (fun _ st => P st)); [exact Hm | exact Hk | auto].
Qed.

Lemma stable_try (P : State -> Prop) (m : M A) (h : string -> M A) :
  stable env P m -> (forall e, stable env P (h e)) -> stable env P (try_catch m h).
Proof.
  intros Hm Hh. apply (hoare_try P (fun _ st => P st)); [exact Hm | auto | exact Hh].
Qed.

Lemma stable_prisma_db (P : DB -> Prop) (query : DB -> Res A * DB) :
  (forall d, P d -> P (snd (query d))) -> stable env (on_db P) (prisma query).
Proof.
  intros Hq st HP. unfold prisma, on_db in *.
  destruct (dbFault env (dbCalls st)); simpl; [exact HP|].
  specialize (Hq (db st) HP). destruct (query (db st)); simpl in *. exact Hq.
Qed.

Lemma stable_prisma_chat (P : Session.t -> list (ApiCall * TgOutcome) -> nat -> Prop)
    (query : DB -> Res A * DB) :
  stable env (on_chat P) (prisma query).
Proof.
  intros st HP. unfold prisma, on_chat in *.
  destruct (dbFault env (dbCalls st)); simpl; [exact HP|].
  destruct (query (db st)); simpl. exact HP.
Qed.

End Rules.

Lemma stable_for_of {A : Type} (env : Env) (P : State -> Prop) (xs : list A)
    (body : A -> M unit) :
  (forall x, In x xs -> stable env P (body x)) -> stable env P (for_of xs body).
Proof.
  induction xs as [|x xs IH]; intros Hbody; simpl.
  - apply stable_ret.
  - apply stable_bind.
    + apply Hbody. left. reflexivity.
    + intros _. apply IH. intros y Hy. apply Hbody. right. exact Hy.
Qed.

Lemma stable_telegram_db (env : Env) (P : DB -> Prop) (c : ApiCall) :
  stable env (on_db P) (telegram c).
Proof.
  intros st HP. unfold telegram, on_db in *.
  destruct (tgResult env (tgCalls st)); simpl; exact HP.
Qed.

Lemma stable_getSession (env : Env) (P : State -> Prop) : stable env P getSession.
Proof. intros st HP. exact HP. Qed.

Lemma stable_putSession_db (env : Env) (P : DB -> Prop) (s : Session.t) :
  stable env (on_db P) (putSession s).
Proof. intros st HP. exact HP. Qed.

Lemma stable_newDate (env : Env) (P : State -> Prop) : stable env P newDate.
Proof. intros st HP. exact HP. Qed.

Lemma stable_getBotInstance (env : Env) (P : State -> Prop) : stable env P getBotInstance.
Proof. intros st HP. exact HP. Qed.

Ltac stable_step :=
  first
    [ apply stable_ret | apply stable_throw | apply stable_prisma_chat
    | apply stable_getSession | apply stable_newDate | apply stable_getBotInstance
    | apply stable_bind; [| intros ?]
    | apply stable_try; [| intros ?]
    | apply stable_for_of; intros ? _
    | match goal with
      | |- stable _ _ (match ?x with _ => _ end) => destruct x
      end ].

(** ** Commit handlers: the draft is cleared only after the writes *)

(** The writes of a commit touch neither the session nor the requests. *)
Lemma writes_keep_chat (env : Env)
    (P : Session.t -> list (ApiCall * TgOutcome) -> nat -> Prop)
    (channelId : Z) (text : string) (draft : PostDraft.t) :
  (forall status,
     stable env (on_chat P) (create_post_from_draft status channelId text draft))
  /\ (forall scheduledAt,
        stable env (on_chat P) (create_scheduled_post channelId text draft scheduledAt)).
Proof.
  assert (H : forall status,
             stable env (on_chat P) (create_post_from_draft status channelId text draft)).
  { intros status.
    unfold create_post_from_draft, createPost, add_draft_content, addMedia, addButton, ignore.
    repeat stable_step. }
  split; [exact H|].
  intros scheduledAt. unfold create_scheduled_post, schedulePost, updatePost.
  apply stable_bind; [apply H | intros post].
  repeat stable_step.
Qed.

Lemma writes_frame (env : Env) (st : State) (channelId : Z) (text : string)
    (draft : PostDraft.t) :
  (forall status,
     let st1 := snd (create_post_from_draft status channelId text draft env st) in
     session st1 = session st /\ apiLog st1 = apiLog st /\ tgCalls st1 = tgCalls st)
  /\ (forall scheduledAt,
        let st1 := snd (create_scheduled_post channelId text draft scheduledAt env st) in
        session st1 = session st /\ apiLog st1 = apiLog st /\ tgCalls st1 = tgCalls st).
Proof.
  destruct (writes_keep_chat env
              (fun s l n => s = session st /\ l = apiLog st /\ n = tgCalls st)
              channelId text draft) as [H1 H2].
  split; intros x; [apply (H1 x st) | apply (H2 x st)]; unfold on_chat; auto.
Qed.

Lemma reply_quietly_run (env : Env) (st : State) (notice : string) :
  draft_kept_with_notice env st (snd (reply_quietly notice env st)) notice.
Proof.
  unfold draft_kept_with_notice, reply_quietly, try_catch, ignore, bind, telegram, ret.
  destruct (tgResult env (tgCalls st)); simpl; auto.
Qed.

Lemma throws_ret {A : Type} (errors : list string) (a : A) : throws_within errors (ret a).
Proof. intros env st e H. discriminate. Qed.

Lemma throws_bind {A B : Type} (errors : list string) (m : M A) (k : A -> M B) :
  throws_within errors m -> (forall a, throws_within errors (k a)) ->
  throws_within errors (bind m k).
Proof.
  intros Hm Hk env st e. unfold bind. specialize (Hm env st).
  destruct (m env st) as [[a|e'] st1]; simpl in *.
  - apply Hk.
  - intros H. injection H as <-. apply Hm. reflexivity.
Qed.

Lemma throws_service {A : Type} (errors : list string) (m : M A) (message : string) :
  In message errors -> throws_within errors (try_catch m (fun _ => throw message)).
Proof.
  intros Hin env st e. unfold try_catch, throw.
  destruct (m env st) as [[a|e'] st1]; simpl.
  - discriminate.
  - intros H. injection H as <-. exact Hin.
Qed.

Lemma throws_for_of {A : Type} (errors : list string) (xs : list A) (body : A -> M unit) :
  (forall x, throws_within errors (body x)) -> throws_within errors (for_of xs body).
Proof.
  intros Hbody. induction xs as [|x xs IH]; simpl.
  - apply throws_ret.
  - apply throws_bind; [apply Hbody | intros _; exact IH].
Qed.

Lemma writes_throw_service_failures (channelId : Z) (text : string) (draft : PostDraft.t)
    (scheduledAt : Z) :
  throws_within service_failures (create_scheduled_post channelId text draft scheduledAt).
Proof.
  unfold create_scheduled_post, create_post_from_draft, add_draft_content, ignore.
  repeat first
    [ apply throws_ret
    | apply throws_service; simpl; tauto
    | apply throws_bind; [| intros ?]
    | apply throws_for_of; intros ? ].
Qed.

(** After the writes the handlers notify the admin and clear the draft;
    whatever the store and the platform answer, the draft ends cleared. *)
Lemma notify_then_clear (env : Env) (st : State) (channelId : Z)
    (message : option Channel.t -> string) :
  exists st',
    (channel <- getChannelById channelId ;;
     edit_or_reply_quietly (message channel) ;;
     clearPostDraft) env st = (Ok tt, st')
    /\ session st' = cleared.
Proof.
  unfold getChannelById, edit_or_reply_quietly, reply_quietly, clearPostDraft, ignore,
    try_catch, bind, prisma, telegram, putSession, ret, channel_findUnique.
  repeat match goal with
         | |- context [match ?x with _ => _ end] =>
             match x with
             | context [match _ with _ => _ end] => fail 1
             | _ => destruct x eqn:?
             end
         end; eexists; split; reflexivity.
Qed.

Lemma notify_scheduled_then_clear (env : Env) (st : State) (channelId : Z)
    (message : option Channel.t -> string) :
  exists st',
    (try_catch
       (channel <- getChannelById channelId ;;
        try_catch (ignore (telegram (editMessageText (message channel))))
          (fun _ => ignore (telegram (reply (message channel)))))
       (fun _ => ret tt) ;;
     clearPostDraft) env st = (Ok tt, st')
    /\ session st' = cleared.
Proof.
  unfold getChannelById, clearPostDraft, ignore,
    try_catch, bind, prisma, telegram, putSession, ret, channel_findUnique.
  repeat match goal with
         | |- context [match ?x with _ => _ end] =>
             match x with
             | context [match _ with _ => _ end] => fail 1
             | _ => destruct x eqn:?
             end
         end; eexists; split; reflexivity.
Qed.

(** The handlers, once the guard on the draft has passed. *)
Lemma handleSaveDraft_run (env : Env) (st : State) (draft : PostDraft.t) (channelId : Z)
    (text : string) :
  committable (Session.postDraft (session st)) = Some (draft, channelId, text) ->
  handleSaveDraft env st
  = try_catch
      (post <- create_post_from_draft PostStatus.DRAFT channelId text draft ;;
       channel <- getChannelById channelId ;;
       edit_or_reply_quietly (draft_saved_message (channel_name channel)) ;;
       clearPostDraft)
      (fun _ => reply_quietly draft_failed_message) env st.
Proof.
  intros H. unfold handleSaveDraft, getPostDraft, getSession.
  unfold bind at 1. unfold bind at 1. unfold ret at 1. cbv beta iota.
  rewrite H. reflexivity.
Qed.

Lemma handleScheduledPost_run (formatDate : Z -> string) (env : Env) (st : State)
    (draft : PostDraft.t) (channelId : Z) (text : string) (scheduledAt : Z) :
  committable (Session.postDraft (session st)) = Some (draft, channelId, text) ->
  PostDraft.scheduledAt draft = Some scheduledAt ->
  handleScheduledPost formatDate env st
  = try_catch
      (create_scheduled_post channelId text draft scheduledAt ;;
       try_catch
         (channel <- getChannelById channelId ;;
          try_catch
            (ignore (telegram (editMessageText
                                 (scheduled_message formatDate (channel_name channel)
                                    scheduledAt))))
            (fun _ =>
               ignore (telegram (reply (scheduled_message formatDate
                                          (channel_name channel) scheduledAt)))))
         (fun _ => ret tt) ;;
       clearPostDraft)
      (fun errorMessage => reply_quietly (schedule_failed_prefix +++ errorMessage)) env st.
Proof.
  intros H Hat. unfold handleScheduledPost, getPostDraft, getSession.
  unfold bind at 1. unfold bind at 1. unfold ret at 1. cbv beta iota.
  rewrite H, Hat. reflexivity.
Qed.

(** C6.  On both commit paths the draft is cleared exactly when every write
    of the commit has succeeded.  When a write is rejected the session is
    left as it was and the last thing sent to the admin is the failure
    notice: a fixed text for save-as-draft, and for scheduling a fixed
    prefix followed by one of the post service's own fixed messages. *)
Theorem draft_survives_failed_commit (formatDate : Z -> string) (env : Env) (st : State)
    (draft : PostDraft.t) (channelId : Z) (text : string) :
  committable (Session.postDraft (session st)) = Some (draft, channelId, text) ->
  save_draft_outcome env st draft channelId text
  /\ forall scheduledAt,
       PostDraft.scheduledAt draft = Some scheduledAt ->
       schedule_outcome formatDate env st draft channelId text scheduledAt.
Proof.
  intros Hdraft.
  destruct (writes_frame env st channelId text draft) as [Hsave Hsched].
  split.
  - unfold save_draft_outcome.
    specialize (Hsave PostStatus.DRAFT). simpl in Hsave.
    rewrite (handleSaveDraft_run env st draft channelId text Hdraft).
    destruct (create_post_from_draft PostStatus.DRAFT channelId text draft env st)
      as [[post|e] st1] eqn:Hw; simpl in Hsave;
      unfold try_catch at 1; unfold bind at 1; rewrite Hw; cbv beta iota.
    + destruct (notify_then_clear env st1 channelId
                  (fun channel => draft_saved_message (channel_name channel)))
        as [st2 [Hrun Hclear]].
      rewrite Hrun. exact Hclear.
    + destruct Hsave as [Hs [Hl Hn]].
      destruct (reply_quietly_run env st1 draft_failed_message) as [Hs' Hl'].
      split; [congruence|]. rewrite Hl', Hl, Hn. reflexivity.
  - intros scheduledAt Hat. unfold schedule_outcome.
    specialize (Hsched scheduledAt). simpl in Hsched.
    pose proof (writes_throw_service_failures channelId text draft scheduledAt env st)
      as Hthrow.
    rewrite (handleScheduledPost_run formatDate env st draft channelId text scheduledAt
               Hdraft Hat).
    destruct (create_scheduled_post channelId text draft scheduledAt env st)
      as [[post|e] st1] eqn:Hw; simpl in Hsched, Hthrow;
      unfold try_catch at 1; unfold bind at 1; rewrite Hw; cbv beta iota.
    + destruct (notify_scheduled_then_clear env st1 channelId
                  (fun channel =>
                     scheduled_message formatDate (channel_name channel) scheduledAt))
        as [st2 [Hrun Hclear]].
      rewrite Hrun. exact Hclear.
    + destruct Hsched as [Hs [Hl Hn]].
      destruct (reply_quietly_run env st1 (schedule_failed_prefix +++ e)) as [Hs' Hl'].
      split; [apply Hthrow; reflexivity|].
      split; [congruence|]. rewrite Hl', Hl, Hn. reflexivity.
Qed.

Lemma draft_survives_failed_commit_witness :
  save_draft_outcome (Examples.env_of Examples.second_query_rejected Examples.rejecting)
    Examples.composing Examples.draft 1 "<b>Hello</b>"
  /\ forall scheduledAt,
       PostDraft.scheduledAt Examples.draft = Some scheduledAt ->
       schedule_outcome Examples.formatDate
         (Examples.env_of Examples.second_query_rejected Examples.rejecting)
         Examples.composing Examples.draft 1 "<b>Hello</b>" scheduledAt.
Proof.
  apply (draft_survives_failed_commit Examples.formatDate
           (Examples.env_of Examples.second_query_rejected Examples.rejecting)
           Examples.composing Examples.draft 1 "<b>Hello</b>").
  reflexivity.
Defined.

(** In that example the rejected [addMedia] leaves the draft in the
    session, and the admin is sent the failure notice. *)
Example failed_save_keeps_example_draft :
  let st' := snd (handleSaveDraft
                    (Examples.env_of Examples.second_query_rejected Examples.rejecting)
                    Examples.composing) in
  Session.postDraft (session st') = Some Examples.draft
  /\ map fst (apiLog st') = [reply draft_failed_message].
Proof. vm_compute. split; reflexivity. Qed.

(** ** The writes of a commit when the store answers *)

Lemma hoare_for_of_ok {A : Type} (env : Env) (I : State -> Prop) (xs : list A)
    (body : A -> M unit) :
  (forall x, hoare env I (body x) (fun r st => r = Ok tt /\ I st)) ->
  hoare env I (for_of xs body) (fun r st => r = Ok tt /\ I st).
Proof.
  intros Hbody. induction xs as [|x xs IH]; simpl.
  - apply hoare_ret. auto.
  - eapply hoare_bind.
    + apply Hbody.
    + intros a. simpl. intros st [_ HI]. apply IH. exact HI.
    + intros e st [H _]. discriminate.
Qed.

Lemma content_frame_find_post (d0 d : DB) (postId : Z) :
  content_frame d0 d -> find_post d postId = find_post d0 postId.
Proof. intros [H _]. unfold find_post. rewrite H. reflexivity. Qed.

Lemma addMedia_ok (env : Env) (d0 : DB) (postId : Z) (fileId : string)
    (fileType : MediaType.t) (fileSize : option Z) (caption : option string) :
  no_rejection env ->
  find_post d0 postId <> None ->
  hoare env (on_db (content_frame d0))
    (ignore (addMedia postId fileId fileType fileSize caption))
    (fun r st => r = Ok tt /\ on_db (content_frame d0) st).
Proof.
  intros Hnf Hpost st Hfr. unfold on_db in *.
  pose proof (content_frame_find_post _ _ postId Hfr) as Hfind.
  unfold ignore, addMedia, try_catch, bind, prisma, media_count, media_create, ret.
  rewrite Hnf. simpl. rewrite Hnf. simpl. rewrite Hfind.
  destruct (find_post d0 postId); [|contradiction].
  simpl. split; [reflexivity|]. exact Hfr.
Qed.

Lemma addButton_ok (env : Env) (d0 : DB) (postId : Z) (text url : string) (row position : Z) :
  no_rejection env ->
  find_post d0 postId <> None ->
  hoare env (on_db (content_frame d0))
    (ignore (addButton postId text url row position))
    (fun r st => r = Ok tt /\ on_db (content_frame d0) st).
Proof.
  intros Hnf Hpost st Hfr. unfold on_db in *.
  pose proof (content_frame_find_post _ _ postId Hfr) as Hfind.
  unfold ignore, addButton, try_catch, bind, prisma, postButton_create, ret.
  rewrite Hnf. simpl. rewrite Hfind.
  destruct (find_post d0 postId); [|contradiction].
  simpl. split; [reflexivity|]. exact Hfr.
Qed.

Lemma add_draft_content_ok (env : Env) (d0 : DB) (postId : Z) (draft : PostDraft.t) :
  no_rejection env ->
  find_post d0 postId <> None ->
  hoare env (on_db (content_frame d0)) (add_draft_content postId draft)
    (fun r st => r = Ok tt /\ on_db (content_frame d0) st).
Proof.
  intros Hnf Hpost. unfold add_draft_content.
  eapply hoare_bind.
  - apply (hoare_for_of_ok env (on_db (content_frame d0))).
    intros media. apply (addMedia_ok env d0); assumption.
  - intros u. eapply hoare_weaken.
    + apply (hoare_for_of_ok env (on_db (content_frame d0))).
      intros button. apply (addButton_ok env d0); assumption.
    + intros st [_ H]. exact H.
    + auto.
  - intros e st [H _]. discriminate.
Qed.

Lemma content_frame_refl (d : DB) : content_frame d d.
Proof. repeat split. Qed.

Lemma find_post_last (d : DB) (p : Post.t) (n : Z) :
  find_post (with_posts (posts d ++ [p]) n d) (Post.id p) <> None.
Proof.
  unfold find_post. simpl. intros H.
  assert (Hin : In p (posts d ++ [p])) by (apply in_or_app; right; left; reflexivity).
  apply (find_none _ _ H) in Hin. rewrite Z.eqb_refl in Hin. discriminate.
Qed.

Lemma create_post_from_draft_ok (env : Env) (st : State) (status : PostStatus.t)
    (channelId : Z) (text : string) (draft : PostDraft.t) (c : Channel.t) :
  no_rejection env ->
  find_channel (db st) channelId = Some c ->
  exists st1,
    create_post_from_draft status channelId text draft env st
    = (Ok (Post.mk (next_post_id (db st)) channelId text status None None), st1)
    /\ content_frame
         (with_posts
            (posts (db st) ++ [Post.mk (next_post_id (db st)) channelId text status None None])
            (next_post_id (db st) + 1) (db st))
         (db st1)
    /\ session st1 = session st /\ apiLog st1 = apiLog st /\ tgCalls st1 = tgCalls st.
Proof.
  intros Hnf Hc.
  set (post := Post.mk (next_post_id (db st)) channelId text status None None).
  set (d1 := with_posts (posts (db st) ++ [post]) (next_post_id (db st) + 1) (db st)).
  assert (Hrun : exists st1,
             create_post_from_draft status channelId text draft env st = (Ok post, st1)
             /\ content_frame d1 (db st1)).
  { unfold create_post_from_draft. unfold bind at 1.
    unfold createPost, try_catch, prisma, post_create.
    rewrite Hnf, Hc. cbv beta iota. fold post. fold d1.
    pose proof (add_draft_content_ok env d1 (Post.id post) draft Hnf
                  (find_post_last (db st) post _) (set_db d1 (count_db_call st))
                  (content_frame_refl d1)) as [Hok Hfr].
    unfold bind.
    destruct (add_draft_content (Post.id post) draft env (set_db d1 (count_db_call st)))
      as [r st1].
    simpl in Hok, Hfr. subst r. exists st1. unfold ret. auto. }
  destruct Hrun as [st1 [Hrun Hfr]].
  destruct (writes_frame env st channelId text draft) as [Hchat _].
  specialize (Hchat status). simpl in Hchat. rewrite Hrun in Hchat. simpl in Hchat.
  exists st1. auto.
Qed.

Lemma publish_rejected (env : Env) (st : State) (postId : Z) (p : Post.t) (c : Channel.t)
    (e : string) :
  no_rejection env ->
  find_post (db st) postId = Some p ->
  find_channel (db st) (Post.channel_id p) = Some c ->
  tgResult env (tgCalls st) = Rejected e ->
  exists st1 call,
    publishPostToTelegram postId env st = (Ok false, st1)
    /\ db st1 = with_posts (patch_rows postId failed_patch (posts (db st)))
                  (next_post_id (db st)) (db st)
    /\ session st1 = session st
    /\ apiLog st1 = apiLog st ++ [(call, Rejected e)]
    /\ tgCalls st1 = S (tgCalls st).
Proof.
  intros Hnf Hp Hc Htg.
  cbv beta iota delta
    [publishPostToTelegram try_catch bind getPostById updatePost newDate ret throw prisma
     telegram ignore post_findUnique post_update].
  repeat rewrite Hnf. simpl. rewrite Hp. simpl. rewrite Hc.
  destruct (sort_by media_le (media_of (db st) postId)) as [|m1 [|m2 ms]];
    simpl; rewrite Htg; simpl; rewrite Hnf; simpl; rewrite Hp; simpl;
    eexists; eexists; repeat split.
Qed.

(** ** Publish-now when the platform rejects the send *)

Lemma handlePublishNow_run (env : Env) (st : State) (draft : PostDraft.t) (channelId : Z)
    (text : string) :
  committable (Session.postDraft (session st)) = Some (draft, channelId, text) ->
  handlePublishNow env st
  = try_catch
      (post <- create_post_from_draft PostStatus.PUBLISHED channelId text draft ;;
       published <- publishPostToTelegram (Post.id post) ;;
       channel <- getChannelById channelId ;;
       edit_or_reply_quietly
         (if published : bool
          then published_message (channel_name channel) (Post.id post)
          else saved_not_published_message (channel_name channel) (Post.id post)) ;;
       clearPostDraft)
      (fun _ => reply_quietly publish_failed_message) env st.
Proof.
  intros H. unfold handlePublishNow, getPostDraft, getSession.
  unfold bind at 1. unfold bind at 1. unfold ret at 1. cbv beta iota.
  rewrite H. reflexivity.
Qed.

Lemma notify_then_clear_log (env : Env) (st : State) (channelId : Z)
    (message : option Channel.t -> string) :
  no_rejection env ->
  exists st',
    (channel <- getChannelById channelId ;;
     edit_or_reply_quietly (message channel) ;;
     clearPostDraft) env st = (Ok tt, st')
    /\ session st' = cleared
    /\ db st' = db st
    /\ In (editMessageText (message (find_channel (db st) channelId)))
         (map fst (apiLog st')).
Proof.
  intros Hnf.
  unfold getChannelById, edit_or_reply_quietly, reply_quietly, clearPostDraft, ignore,
    try_catch, bind, prisma, telegram, putSession, ret, channel_findUnique.
  rewrite Hnf. simpl.
  destruct (tgResult env (tgCalls st)); simpl.
  - eexists. repeat split. simpl. rewrite map_app. apply in_or_app. right. left. reflexivity.
  - destruct (tgResult env (S (tgCalls st))); simpl;
      eexists; repeat split; simpl; rewrite !map_app; apply in_or_app; left;
      apply in_or_app; right; left; reflexivity.
Qed.

Lemma find_fresh (k : Z) (l : list Post.t) (x : Post.t) :
  (forall p, In p l -> Post.id p <> k) ->
  Post.id x = k ->
  find (fun p => Post.id p =? k) (l ++ [x]) = Some x.
Proof.
  intros Hl Hx. induction l as [|y l IH]; simpl.
  - rewrite Hx, Z.eqb_refl. reflexivity.
  - destruct (Post.id y =? k) eqn:E.
    + apply Z.eqb_eq in E. exfalso. apply (Hl y); [left; reflexivity | exact E].
    + apply IH. intros p Hp. apply Hl. right. exact Hp.
Qed.

Lemma patch_rows_fresh (k : Z) (u : PostPatch.t) (l : list Post.t) :
  (forall p, In p l -> Post.id p <> k) -> patch_rows k u l = l.
Proof.
  intros Hl. unfold patch_rows. induction l as [|y l IH]; simpl; [reflexivity|].
  destruct (Post.id y =? k) eqn:E.
  - apply Z.eqb_eq in E. exfalso. apply (Hl y); [left; reflexivity | exact E].
  - f_equal. apply IH. intros p Hp. apply Hl. right. exact Hp.
Qed.

(** C10.  Publish-now with a draft that passes the guard, a store that
    answers and an existing channel: when the platform rejects the send, the
    post created for the draft stays in the store, FAILED and without remote
    message id or publication time; the text sent to the admin says that
    the post was saved but not published; and the draft is cleared. *)
Theorem failed_publish_now_keeps_post (env : Env) (st : State) (draft : PostDraft.t)
    (channelId : Z) (text : string) (c : Channel.t) (e : string) :
  committable (Session.postDraft (session st)) = Some (draft, channelId, text) ->
  no_rejection env ->
  post_ids_fresh (db st) ->
  find_channel (db st) channelId = Some c ->
  tgResult env (tgCalls st) = Rejected e ->
  posts (db (snd (handlePublishNow env st)))
  = posts (db st)
    ++ [Post.mk (next_post_id (db st)) channelId text PostStatus.FAILED None None]
  /\ In (editMessageText
           (saved_not_published_message (channel_name (Some c)) (next_post_id (db st))))
       (map fst (apiLog (snd (handlePublishNow env st))))
  /\ session (snd (handlePublishNow env st)) = cleared.
Proof.
  intros Hdraft Hnf Hfresh Hc Htg.
  destruct (create_post_from_draft_ok env st PostStatus.PUBLISHED channelId text draft c
              Hnf Hc) as [st1 [Hrun [Hfr [Hs [Hl Hn]]]]].
  destruct Hfr as [Hposts [Hchannels _]]. simpl in Hposts, Hchannels.
  assert (Hold : forall p, In p (posts (db st)) -> Post.id p <> next_post_id (db st)).
  { intros p Hp. specialize (Hfresh p Hp). lia. }
  set (post := Post.mk (next_post_id (db st)) channelId text PostStatus.PUBLISHED None None)
    in *.
  assert (Hfind : find_post (db st1) (Post.id post) = Some post).
  { unfold find_post. rewrite Hposts. apply find_fresh; [exact Hold | reflexivity]. }
  assert (Hc1 : find_channel (db st1) (Post.channel_id post) = Some c).
  { unfold find_channel. rewrite Hchannels. exact Hc. }
  rewrite <- Hn in Htg.
  destruct (publish_rejected env st1 (Post.id post) post c e Hnf Hfind Hc1 Htg)
    as [st2 [call [Hpub [Hdb2 [Hs2 [Hl2 Hn2]]]]]].
  destruct (notify_then_clear_log env st2 channelId
              (fun channel =>
                 saved_not_published_message (channel_name channel) (Post.id post)) Hnf)
    as [st3 [Hnotify [Hs3 [Hdb3 Hlog3]]]].
  assert (Hfinal : handlePublishNow env st = (Ok tt, st3)).
  { rewrite (handlePublishNow_run env st draft channelId text Hdraft).
    unfold try_catch. unfold bind at 1. rewrite Hrun. cbv beta iota.
    unfold bind at 1. rewrite Hpub. cbv beta iota.
    rewrite Hnotify. reflexivity. }
  rewrite Hfinal. cbn [snd fst].
  split; [|split].
  - rewrite Hdb3, Hdb2. simpl. rewrite Hposts.
    assert (Happ : forall l1 l2,
               patch_rows (Post.id post) failed_patch (l1 ++ l2)
               = patch_rows (Post.id post) failed_patch l1
                 ++ patch_rows (Post.id post) failed_patch l2)
      by (intros; apply map_app).
    rewrite Happ. rewrite (patch_rows_fresh _ _ _ Hold).
    unfold patch_rows. simpl. rewrite Z.eqb_refl. reflexivity.
  - assert (Hch : find_channel (db st2) channelId = Some c).
    { unfold find_channel. rewrite Hdb2. simpl. rewrite Hchannels. exact Hc. }
    rewrite Hch in Hlog3. exact Hlog3.
  - exact Hs3.
Qed.

Lemma failed_publish_now_keeps_post_witness :
  posts (db (snd (handlePublishNow (Examples.env_of Examples.no_fault Examples.rejecting)
                    Examples.composing)))
  = [] ++ [Post.mk 1 1 "<b>Hello</b>" PostStatus.FAILED None None]
  /\ In (editMessageText (saved_not_published_message (channel_name (Some Examples.news)) 1))
       (map fst (apiLog (snd (handlePublishNow
                                (Examples.env_of Examples.no_fault Examples.rejecting)
                                Examples.composing))))
  /\ session (snd (handlePublishNow (Examples.env_of Examples.no_fault Examples.rejecting)
                     Examples.composing)) = cleared.
Proof.
  apply (failed_publish_now_keeps_post
           (Examples.env_of Examples.no_fault Examples.rejecting) Examples.composing
           Examples.draft 1 "<b>Hello</b>" Examples.news
           "Forbidden: bot is not a member of the channel chat").
  - reflexivity.
  - intros n. reflexivity.
  - intros p [].
  - reflexivity.
  - reflexivity.
Defined.

(** ** Media uploads: positions and the limit of ten *)

Lemma upload_accepted (env : Env) (st : State) (message : Message.t) (type : UploadType)
    (draft : PostDraft.t) :
  awaiting_media st ->
  Session.postDraft (session st) = Some draft ->
  passes_size_check message type = true ->
  (length (files_of draft) < 10)%nat ->
  let st' := snd (handleMediaUpload message type env st) in
  awaiting_media st'
  /\ (exists draft', Session.postDraft (session st') = Some draft')
  /\ session_files st'
     = files_of draft ++ appended_file message type (length (files_of draft)).
Proof.
  intros Haw Hdraft Hpass Hlen.
  unfold awaiting_media, session_files, passes_size_check, appended_file in *.
  unfold handleMediaUpload, getAwaitingInput, getPostDraft, getSession, updatePostDraft,
    putSession, error_text.
  cbv beta iota delta [bind ret try_catch telegram].
  rewrite Haw. cbv beta iota delta [negb]. rewrite Hdraft. cbv beta iota.
  destruct (extract_file message type) as [[file mediaType]|]; [|discriminate].
  assert (Hsize : Validation.valid
                    match truthy_number (TgFile.file_size file) with
                    | Some size =>
                        validateMediaSize size
                          match type with
                          | up_animation => up_document
                          | _ => type
                          end
                    | None => Validation.ok
                    end = true).
  { destruct (truthy_number (TgFile.file_size file)); [exact Hpass | reflexivity]. }
  rewrite Hsize. cbv beta iota delta [negb].
  assert (Hgroup : Validation.valid
                     (validateMediaGroupSize
                        (Z.of_nat (length (files_of draft)) + 1)) = true).
  { unfold validateMediaGroupSize, LIMITS.MAX_MEDIA_GROUP.
    destruct (10 <? Z.of_nat (length (files_of draft)) + 1) eqn:E; [|reflexivity].
    apply Z.ltb_lt in E. lia. }
  unfold files_of in *. rewrite Hgroup. cbv beta iota delta [negb].
  simpl.
  repeat match goal with
         | |- context [match tgResult ?e ?n with _ => _ end] =>
             destruct (tgResult e n); simpl
         end.
  all: rewrite Hdraft; simpl.
  all: split; [exact Haw|]; split; [eexists; reflexivity|].
  all: destruct (PostDraft.mediaFiles draft); reflexivity.
Qed.

Lemma upload_refused (env : Env) (st : State) (message : Message.t) (type : UploadType)
    (draft : PostDraft.t) :
  awaiting_media st ->
  Session.postDraft (session st) = Some draft ->
  passes_size_check message type = true ->
  (10 <= length (files_of draft))%nat ->
  let st' := snd (handleMediaUpload message type env st) in
  session st' = session st
  /\ exists rest,
       apiLog st'
       = apiLog st ++ (reply group_full_message, tgResult env (tgCalls st)) :: rest.
Proof.
  intros Haw Hdraft Hpass Hlen.
  unfold awaiting_media, session_files, passes_size_check, appended_file in *.
  unfold handleMediaUpload, getAwaitingInput, getPostDraft, getSession, updatePostDraft,
    putSession, error_text.
  cbv beta iota delta [bind ret try_catch telegram].
  rewrite Haw. cbv beta iota delta [negb]. rewrite Hdraft. cbv beta iota.
  destruct (extract_file message type) as [[file mediaType]|]; [|discriminate].
  assert (Hsize : Validation.valid
                    match truthy_number (TgFile.file_size file) with
                    | Some size =>
                        validateMediaSize size
                          match type with
                          | up_animation => up_document
                          | _ => type
                          end
                    | None => Validation.ok
                    end = true).
  { destruct (truthy_number (TgFile.file_size file)); [exact Hpass | reflexivity]. }
  rewrite Hsize. cbv beta iota delta [negb].
  assert (Hgroup : validateMediaGroupSize (Z.of_nat (length (files_of draft)) + 1)
                   = Validation.fail "Максимум 10 медиафайлов в одной публикации").
  { unfold validateMediaGroupSize, LIMITS.MAX_MEDIA_GROUP.
    destruct (10 <? Z.of_nat (length (files_of draft)) + 1) eqn:E; [reflexivity|].
    apply Z.ltb_ge in E. lia. }
  unfold files_of in *. rewrite Hgroup. simpl.
  fold group_full_message.
  destruct (tgResult env (tgCalls st)) eqn:E1; simpl.
  - split; [reflexivity|]. eexists. reflexivity.
  - destruct (tgResult env (S (tgCalls st))); simpl.
    + split; [reflexivity|]. rewrite <- app_assoc. eexists. reflexivity.
    + split; [reflexivity|]. rewrite <- app_assoc. eexists. reflexivity.
Qed.


Lemma upload_returns (env : Env) (st : State) (message : Message.t) (type : UploadType)
    (draft : PostDraft.t) (message_id : Z) :
  awaiting_media st ->
  Session.postDraft (session st) = Some draft ->
  passes_size_check message type = true ->
  tgResult env (tgCalls st) = Delivered message_id ->
  fst (handleMediaUpload message type env st) = Ok tt.
Proof.
  intros Haw Hdraft Hpass Htg.
  unfold awaiting_media, passes_size_check in *.
  unfold handleMediaUpload, getAwaitingInput, getPostDraft, getSession, updatePostDraft,
    putSession, error_text.
  cbv beta iota delta [bind ret try_catch telegram].
  rewrite Haw. cbv beta iota delta [negb]. rewrite Hdraft. cbv beta iota.
  destruct (extract_file message type) as [[file mediaType]|]; [|discriminate].
  repeat match goal with
         | |- context [if (if Validation.valid ?v then false else true) then _ else _] =>
             destruct (Validation.valid v); cbv beta iota
         end;
    simpl; rewrite Htg; reflexivity.
Qed.

(** What the middleware leaves of one upload: the session of the handler
    when it returned, the stored one when it threw; the requests of the
    handler come first in the log. *)
Lemma on_upload_state (env : Env) (st : State) (message : Message.t) (type : UploadType) :
  session (snd (on_upload message type env st))
  = match fst (handleMediaUpload message type env st) with
    | Ok _ => session (snd (handleMediaUpload message type env st))
    | Throw _ => session st
    end
  /\ exists rest,
       apiLog (snd (on_upload message type env st))
       = apiLog (snd (handleMediaUpload message type env st)) ++ rest.
Proof.
  unfold on_upload, errorMiddleware, session_plugin, try_catch.
  destruct (handleMediaUpload message type env st) as [[[]|e] st1]; cbn [fst snd].
  - split; [reflexivity|]. exists []. rewrite app_nil_r. reflexivity.
  - destruct (reply_quietly_run env (set_session (session st) st1) error_notice)
      as [Hs Hlog].
    split; [exact Hs|]. eexists. exact Hlog.
Qed.

Lemma upload_all_appends (env : Env) (uploads : list (Message.t * UploadType)) :
  forall (st : State) (draft : PostDraft.t),
    awaiting_media st ->
    Session.postDraft (session st) = Some draft ->
    all_pass_size_check uploads ->
    (length (files_of draft) + length uploads <= 10)%nat ->
    session_files (upload_all uploads env st)
    = files_of draft
      ++ appended_files (length (files_of draft)) (returned_uploads uploads env st).
Proof.
  induction uploads as [|[message type] rest IH]; intros st draft Haw Hdraft Hall Hlen.
  - simpl. unfold session_files. rewrite Hdraft, app_nil_r. reflexivity.
  - simpl in Hlen. inversion Hall as [|u us Hpass Hrest]; subst. simpl in Hpass.
    assert (Hlt : (length (files_of draft) < 10)%nat) by lia.
    destruct (on_upload_state env st message type) as [Hsession _].
    cbn [upload_all returned_uploads].
    destruct (fst (handleMediaUpload message type env st)) as [[]|e] eqn:Hres.
    + destruct (upload_accepted env st message type draft Haw Hdraft Hpass Hlt)
        as [Haw' [[draft' Hdraft'] Hfiles]].
      assert (Hone : length (appended_file message type (length (files_of draft))) = 1%nat).
      { unfold passes_size_check in Hpass. unfold appended_file.
        destruct (extract_file message type) as [[file mt]|]; [reflexivity | discriminate]. }
      unfold awaiting_media in Haw'. unfold session_files in Hfiles.
      rewrite <- Hsession in Haw', Hdraft', Hfiles. rewrite Hdraft' in Hfiles.
      rewrite (IH _ draft' Haw' Hdraft' Hrest).
      * rewrite Hfiles, length_app, Hone, <- app_assoc.
        replace (length (files_of draft) + 1)%nat with (S (length (files_of draft))) by lia.
        reflexivity.
      * rewrite Hfiles, length_app, Hone. lia.
    + unfold awaiting_media in Haw. rewrite <- Hsession in Haw, Hdraft.
      apply (IH _ draft Haw Hdraft Hrest). lia.
Qed.

Lemma accepted_uploads_return (env : Env) (uploads : list (Message.t * UploadType)) :
  platform_accepts env ->
  forall (st : State) (draft : PostDraft.t),
    awaiting_media st ->
    Session.postDraft (session st) = Some draft ->
    all_pass_size_check uploads ->
    (length (files_of draft) + length uploads <= 10)%nat ->
    returned_uploads uploads env st = uploads.
Proof.
  intros Haccepts.
  induction uploads as [|[message type] rest IH]; intros st draft Haw Hdraft Hall Hlen;
    [reflexivity|].
  simpl in Hlen. inversion Hall as [|u us Hpass Hrest]; subst. simpl in Hpass.
  assert (Hlt : (length (files_of draft) < 10)%nat) by lia.
  destruct (Haccepts (tgCalls st)) as [message_id Htg].
  pose proof (upload_returns env st message type draft message_id Haw Hdraft Hpass Htg)
    as Hres.
  destruct (on_upload_state env st message type) as [Hsession _].
  rewrite Hres in Hsession.
  destruct (upload_accepted env st message type draft Haw Hdraft Hpass Hlt)
    as [Haw' [[draft' Hdraft'] Hfiles]].
  assert (Hone : length (appended_file message type (length (files_of draft))) = 1%nat).
  { unfold passes_size_check in Hpass. unfold appended_file.
    destruct (extract_file message type) as [[file mt]|]; [reflexivity | discriminate]. }
  unfold awaiting_media in Haw'. unfold session_files in Hfiles.
  rewrite <- Hsession in Haw', Hdraft', Hfiles. rewrite Hdraft' in Hfiles.
  cbn [returned_uploads]. rewrite Hres. f_equal.
  apply (IH _ draft' Haw' Hdraft' Hrest).
  rewrite Hfiles, length_app, Hone. lia.
Qed.

Lemma appended_positions (uploads : list (Message.t * UploadType)) :
  forall n,
    all_pass_size_check uploads ->
    map SessionMediaFile.position (appended_files n uploads)
    = map Z.of_nat (seq n (length uploads)).
Proof.
  induction uploads as [|[message type] rest IH]; intros n Hall; [reflexivity|].
  inversion Hall as [|u us Hpass Hrest]; subst. simpl in Hpass.
  simpl. rewrite map_app, (IH (S n) Hrest).
  unfold passes_size_check in Hpass. unfold appended_file.
  destruct (extract_file message type) as [[file mt]|]; [reflexivity | discriminate].
Qed.

Lemma returned_uploads_pass (env : Env) (uploads : list (Message.t * UploadType)) :
  forall st, all_pass_size_check uploads ->
             all_pass_size_check (returned_uploads uploads env st).
Proof.
  induction uploads as [|[message type] rest IH]; intros st Hall; [constructor|].
  inversion Hall as [|u us Hpass Hrest]; subst. cbn [returned_uploads].
  destruct (fst (handleMediaUpload message type env st)) as [[]|e].
  - constructor; [exact Hpass | apply IH; exact Hrest].
  - apply IH. exact Hrest.
Qed.

(** C9.  The admin sends [N <= 10] uploads that pass the size check, one
    update each, starting from a draft without media.  The uploads that are
    appended are the ones whose handler returned (the session plugin stores
    the draft only then); they are in the draft in the order they were sent,
    at positions [0 .. k-1], whatever the platform answers, and they are all
    [N] when the platform accepts the replies.  And whenever the draft holds
    10 files, a further upload leaves the stored session as it is and is
    answered with the validation error about the group size. *)
Theorem uploads_are_numbered_in_order (env : Env) (st : State) (draft : PostDraft.t)
    (uploads : list (Message.t * UploadType)) :
  awaiting_media st ->
  Session.postDraft (session st) = Some draft ->
  files_of draft = [] ->
  all_pass_size_check uploads ->
  (length uploads <= 10)%nat ->
  let appended := returned_uploads uploads env st in
  session_files (upload_all uploads env st) = appended_files 0 appended
  /\ map SessionMediaFile.position (session_files (upload_all uploads env st))
     = map Z.of_nat (seq 0 (length appended))
  /\ (platform_accepts env -> appended = uploads)
  /\ forall (full : State) (held : PostDraft.t) (message : Message.t) (type : UploadType),
       awaiting_media full ->
       Session.postDraft (session full) = Some held ->
       length (files_of held) = 10%nat ->
       passes_size_check message type = true ->
       session (snd (on_upload message type env full)) = session full
       /\ exists rest,
            apiLog (snd (on_upload message type env full))
            = apiLog full ++ (reply group_full_message, tgResult env (tgCalls full)) :: rest.
Proof.
  intros Haw Hdraft Hempty Hall Hlen appended. subst appended.
  assert (Hfiles : session_files (upload_all uploads env st)
                   = appended_files 0 (returned_uploads uploads env st)).
  { rewrite (upload_all_appends env uploads st draft Haw Hdraft Hall).
    - rewrite Hempty. reflexivity.
    - rewrite Hempty. simpl. exact Hlen. }
  split; [exact Hfiles|]. split; [|split].
  - rewrite Hfiles. apply appended_positions. apply returned_uploads_pass. exact Hall.
  - intros Haccepts.
    apply (accepted_uploads_return env uploads Haccepts st draft Haw Hdraft Hall).
    rewrite Hempty. simpl. exact Hlen.
  - intros full held message type Haw' Hheld Hten Hpass.
    assert (Hfull : (10 <= length (files_of held))%nat) by lia.
    destruct (upload_refused env full message type held Haw' Hheld Hpass Hfull)
      as [Hs [rest Hlog]].
    destruct (on_upload_state env full message type) as [Hsession [more Hmore]].
    split.
    + rewrite Hsession.
      destruct (fst (handleMediaUpload message type env full)); [exact Hs | reflexivity].
    + rewrite Hmore, Hlog, <- app_assoc. eexists. reflexivity.
Qed.

Lemma uploads_are_numbered_in_order_witness :
  session_files (upload_all Examples.two_uploads
                   (Examples.env_of Examples.no_fault (Examples.delivering 5))
                   Examples.uploading)
  = appended_files 0 Examples.two_uploads
  /\ map SessionMediaFile.position
       (session_files (upload_all Examples.two_uploads
                         (Examples.env_of Examples.no_fault (Examples.delivering 5))
                         Examples.uploading))
     = [0; 1].
Proof.
  destruct (uploads_are_numbered_in_order
              (Examples.env_of Examples.no_fault (Examples.delivering 5)) Examples.uploading
              Examples.fresh_draft Examples.two_uploads)
    as [Hfiles [Hpositions [Hall _]]].
  - reflexivity.
  - reflexivity.
  - reflexivity.
  - repeat constructor.
  - simpl. lia.
  - assert (Hsent : returned_uploads Examples.two_uploads
                      (Examples.env_of Examples.no_fault (Examples.delivering 5))
                      Examples.uploading = Examples.two_uploads)
      by (apply Hall; intros n; exists 5; reflexivity).
    rewrite Hsent in Hfiles, Hpositions.
    split; [exact Hfiles | exact Hpositions].
Defined.

(** When the platform rejects the confirmation and then the notice of
    failure, the handler throws and the draft it had filled is not stored:
    after the two uploads of the example the stored draft holds no file. *)
Lemma rejected_replies_lose_the_uploads :
  fst (handleMediaUpload Examples.photo_upload up_photo
         (Examples.env_of Examples.no_fault Examples.rejecting) Examples.uploading)
  = Throw "Forbidden: bot is not a member of the channel chat"
  /\ returned_uploads Examples.two_uploads
       (Examples.env_of Examples.no_fault Examples.rejecting) Examples.uploading = []
  /\ session_files (upload_all Examples.two_uploads
                      (Examples.env_of Examples.no_fault Examples.rejecting)
                      Examples.uploading) = [].
Proof. vm_compute. repeat split. Qed.

(** ** Markup validation *)

Lemma check_tags_events (ms : list TagMatch.t) :
  forall openTags, check_tags openTags ms = check_events openTags (map event_of ms).
Proof.
  induction ms as [|m ms IH]; intros openTags; [reflexivity|].
  cbn [map check_tags]. unfold event_of, tag_name.
  set (name := toLowerCase (TagMatch.name m)).
  destruct (startsWith (TagMatch.fullTag m) "</").
  - cbn [check_events]. destruct (includes allowedTags name); simpl; [|reflexivity].
    destruct openTags as [|l openTags]; [reflexivity|].
    destruct (String.eqb l name); [apply IH | reflexivity].
  - destruct (endsWith (TagMatch.fullTag m) "/>"); cbn [check_events];
      destruct (includes allowedTags name); simpl; try reflexivity; apply IH.
Qed.

Lemma includes_whitelisted (t : string) : includes allowedTags t = true <-> whitelisted t.
Proof.
  unfold includes, whitelisted. rewrite existsb_exists. split.
  - intros [x [Hin Heq]]. apply String.eqb_eq in Heq. subst. exact Hin.
  - intros Hin. exists t. split; [exact Hin | apply String.eqb_refl].
Qed.

Lemma nested_app (w1 w2 : list TagEvent) :
  well_nested w1 -> well_nested w2 -> well_nested (w1 ++ w2).
Proof.
  intros H1 H2. induction H1 as [|t w Ht Hw IH|t a b Ht Ha IHa Hb IHb]; simpl.
  - exact H2.
  - apply nested_self; assumption.
  - rewrite <- app_assoc. simpl. apply nested_pair; assumption.
Qed.

Lemma closes_prepend (b : list TagEvent) (stack : list string) (w : list TagEvent) :
  well_nested b -> closes stack w -> closes stack (b ++ w).
Proof.
  intros Hb Hw. destruct Hw as [w Hw|t stack w1 w2 Ht H1 H2].
  - apply closes_none. apply nested_app; assumption.
  - rewrite app_assoc. apply closes_top; [exact Ht | apply nested_app; assumption | exact H2].
Qed.

(** A nested sequence is skipped by the check, whatever is open. *)
Lemma check_skips_nested (w : list TagEvent) :
  well_nested w ->
  forall openTags rest,
    check_events openTags (w ++ rest) = check_events openTags rest.
Proof.
  intros Hw. induction Hw as [|t w Ht Hw IH|t a b Ht Ha IHa Hb IHb]; intros openTags rest.
  - reflexivity.
  - cbn [check_events app]. apply includes_whitelisted in Ht. rewrite Ht.
    cbn [negb]. apply IH.
  - cbn [check_events app]. pose proof Ht as Hinc. apply includes_whitelisted in Hinc.
    rewrite Hinc. cbn [negb].
    rewrite <- app_assoc. rewrite IHa. cbn [check_events app]. rewrite Hinc. cbn [negb].
    rewrite String.eqb_refl. apply IHb.
Qed.

Lemma check_valid_closes (w : list TagEvent) :
  forall openTags,
    Validation.valid (check_events openTags w) = true -> closes openTags w.
Proof.
  induction w as [|e w IH]; intros openTags H.
  - destruct openTags; [|discriminate]. apply closes_none, nested_nil.
  - destruct e as [t|t|t]; cbn [check_events] in H;
      destruct (includes allowedTags t) eqn:Hinc; cbn [negb] in H; try discriminate;
      apply includes_whitelisted in Hinc.
    + apply IH in H. inversion H as [|t' stack w1 w2 Ht H1 H2]; subst.
      apply (closes_prepend (Opening t :: w1 ++ [Closing t]) openTags w2) in H2.
      * simpl in H2. rewrite <- app_assoc in H2. exact H2.
      * apply nested_pair; [exact Hinc | exact H1 | apply nested_nil].
    + destruct openTags as [|l openTags]; [discriminate|].
      destruct (String.eqb l t) eqn:E; [|discriminate].
      apply String.eqb_eq in E. subst l. apply IH in H.
      apply (closes_top t openTags [] w); [exact Hinc | apply nested_nil | exact H].
    + apply IH in H. apply (closes_prepend [SelfClosing t]); [|exact H].
      apply nested_self; [exact Hinc | apply nested_nil].
Qed.

Lemma valid_iff_nested (w : list TagEvent) :
  Validation.valid (check_events [] w) = true <-> well_nested w.
Proof.
  split.
  - intros H. apply check_valid_closes in H. inversion H. assumption.
  - intros H. rewrite <- (app_nil_r w). rewrite (check_skips_nested w H). reflexivity.
Qed.

(** ** Error messages name the tag *)

Lemma append_assoc (a b c : string) : (a +++ b) +++ c = a +++ (b +++ c).
Proof. induction a as [|x a IH]; simpl; [reflexivity | rewrite IH; reflexivity]. Qed.

Lemma append_nil_r (a : string) : a +++ EmptyString = a.
Proof. induction a as [|x a IH]; simpl; [reflexivity | rewrite IH; reflexivity]. Qed.

Lemma mentions_after (a m p : string) : mentions m p -> mentions (a +++ m) p.
Proof.
  intros [before [after H]]. exists (a +++ before), after.
  rewrite H. symmetry. apply append_assoc.
Qed.

Lemma mentions_before (m b p : string) : mentions m p -> mentions (m +++ b) p.
Proof.
  intros [before [after H]]. exists before, (after +++ b).
  rewrite H. rewrite !append_assoc. reflexivity.
Qed.

Lemma mentions_self (p : string) : mentions p p.
Proof. exists EmptyString, EmptyString. simpl. rewrite append_nil_r. reflexivity. Qed.

Lemma concat_mentions (sep x : string) (xs : list string) :
  In x xs -> mentions (String.concat sep xs) x.
Proof.
  induction xs as [|y xs IH]; intros Hin; [destruct Hin|].
  destruct xs as [|z xs].
  - destruct Hin as [->|[]]. apply mentions_self.
  - change (String.concat sep (y :: z :: xs))
      with (y +++ sep +++ String.concat sep (z :: xs)).
    destruct Hin as [->|Hin].
    + apply mentions_before, mentions_self.
    + apply mentions_after, mentions_after, IH, Hin.
Qed.

Lemma unknown_mentions (t : string) :
  mentions (unknown_tag_message t) ("<" +++ t +++ ">").
Proof.
  unfold unknown_tag_message.
  change ("Недопустимый HTML-тег: <" +++ t +++ ">. Разрешены: "
          +++ String.concat ", " allowedTags)
    with ("Недопустимый HTML-тег: " +++ "<" +++ t +++ ">"
          +++ (". Разрешены: " +++ String.concat ", " allowedTags)).
  apply mentions_after.
  exists EmptyString, (". Разрешены: " +++ String.concat ", " allowedTags).
  cbn [String.append]. rewrite append_assoc. reflexivity.
Qed.

Lemma nesting_mentions_found (expected : option string) (t : string) :
  mentions (nesting_message expected t) ("</" +++ t +++ ">").
Proof.
  unfold nesting_message.
  apply mentions_after, mentions_after.
  change (">, найден </" +++ t +++ ">") with (">, найден " +++ "</" +++ t +++ ">").
  apply mentions_after, mentions_self.
Qed.

Lemma nesting_mentions_expected (expected : option string) (t : string) :
  mentions (nesting_message expected t)
    ("</" +++ (match expected with Some l => l | None => "undefined"%string end) +++ ">").
Proof.
  unfold nesting_message.
  set (l := match expected with Some l => l | None => "undefined"%string end).
  change ("Неправильная вложенность тегов: ожидается </" +++ l +++ ">, найден </"
          +++ t +++ ">")
    with ("Неправильная вложенность тегов: ожидается " +++ "</" +++ l +++ ">"
          +++ (", найден </" +++ t +++ ">")).
  apply mentions_after.
  exists EmptyString, (", найден </" +++ t +++ ">").
  cbn [String.append]. rewrite append_assoc. reflexivity.
Qed.

Lemma unclosed_mentions (openTags : list string) (t : string) :
  In t openTags -> mentions (unclosed_message openTags) ("<" +++ t +++ ">").
Proof.
  intros Hin. unfold unclosed_message. apply mentions_after, concat_mentions.
  apply (in_map (fun t => "<" +++ t +++ ">")), Hin.
Qed.

Lemma check_invalid_rejection (names : list string) (w : list TagEvent) :
  forall openTags,
    (forall t, In t openTags -> In t names) ->
    (forall e, In e w -> In (event_name e) names) ->
    Validation.valid (check_events openTags w) = false ->
    exists message,
      Validation.error (check_events openTags w) = Some message
      /\ rejection names message.
Proof.
  induction w as [|e w IH]; intros openTags Hopen Hw H.
  - destruct openTags as [|t openTags]; [discriminate|].
    cbn [check_events]. eexists. split; [reflexivity|].
    split; [discriminate|]. right. right.
    exists (rev (t :: openTags)). split; [|split; [reflexivity|]].
    + intros E. apply (f_equal (@length string)) in E.
      rewrite length_rev in E. discriminate.
    + intros x Hx. split.
      * apply Hopen. apply in_rev. exact Hx.
      * apply unclosed_mentions. exact Hx.
  - assert (Hname : In (event_name e) names) by (apply Hw; left; reflexivity).
    assert (Hrest : forall e', In e' w -> In (event_name e') names)
      by (intros e' He'; apply Hw; right; exact He').
    destruct e as [t|t|t]; cbn [check_events] in *; cbn [event_name] in Hname;
      destruct (includes allowedTags t) eqn:Hinc; cbn [negb] in *.
    + apply IH; [|exact Hrest | exact H].
      intros x [<-|Hx]; [exact Hname | apply Hopen, Hx].
    + eexists. split; [reflexivity|]. split; [discriminate|]. left.
      exists t. repeat split; [exact Hname| |apply unknown_mentions].
      intros Hwl. apply includes_whitelisted in Hwl. congruence.
    + destruct openTags as [|l openTags].
      * eexists. split; [reflexivity|]. split; [discriminate|]. right. left.
        exists None, t. repeat split;
          [exact Hname | discriminate | apply nesting_mentions_found
          | apply (nesting_mentions_expected None)].
      * destruct (String.eqb l t) eqn:E.
        -- apply IH; [|exact Hrest | exact H].
           intros x Hx. apply Hopen. right. exact Hx.
        -- eexists. split; [reflexivity|]. split; [discriminate|]. right. left.
           exists (Some l), t. repeat split;
             [exact Hname | | apply nesting_mentions_found
             | apply (nesting_mentions_expected (Some l)) | apply Hopen; left; reflexivity].
           intros Heq. injection Heq as ->. rewrite String.eqb_refl in E. discriminate.
    + eexists. split; [reflexivity|]. split; [discriminate|]. left.
      exists t. repeat split; [exact Hname| |apply unknown_mentions].
      intros Hwl. apply includes_whitelisted in Hwl. congruence.
    + apply IH; [exact Hopen | exact Hrest | exact H].
    + eexists. split; [reflexivity|]. split; [discriminate|]. left.
      exists t. repeat split; [exact Hname| |apply unknown_mentions].
      intros Hwl. apply includes_whitelisted in Hwl. congruence.
Qed.

Lemma event_name_of (m : TagMatch.t) : event_name (event_of m) = tag_name m.
Proof.
  unfold event_of.
  destruct (startsWith _ _); [reflexivity|]. destruct (endsWith _ _); reflexivity.
Qed.

(** ** The matches of the tag pattern *)

Lemma take_letters_length (s : string) :
  (String.length (snd (take_letters s)) <= String.length s)%nat.
Proof.
  induction s as [|c s IH]; simpl; [lia|].
  destruct (is_letter c); [|simpl; lia].
  destruct (take_letters s) as [name rest]. simpl in *. lia.
Qed.

Lemma until_gt_length (s skipped rest : string) :
  until_gt s = Some (skipped, rest) -> (String.length rest < String.length s)%nat.
Proof.
  revert skipped rest. induction s as [|c s IH]; intros skipped rest H; simpl in H.
  - discriminate.
  - destruct (Ascii.eqb c ">").
    + injection H as _ <-. simpl. lia.
    + destruct (until_gt s) as [[sk r]|]; [|discriminate].
      injection H as _ <-. specialize (IH sk r eq_refl). simpl. lia.
Qed.

Lemma match_at_shorter (s rest : string) (m : TagMatch.t) :
  match_at s = Some (m, rest) -> (String.length rest < String.length s)%nat.
Proof.
  unfold match_at. intros H.
  destruct s as [|c s1]; [discriminate|].
  destruct (Ascii.eqb_spec c "<") as [->|Hne].
  - set (split := match s1 with
                  | String "/" s2 => ("/"%string, s2)
                  | _ => (EmptyString, s1)
                  end) in H.
    assert (Hsplit : (String.length (snd split) <= String.length s1)%nat).
    { subst split. destruct s1 as [|c1 s2]; [simpl; lia|].
      destruct (Ascii.eqb_spec c1 "/") as [->|Hne1]; [simpl; lia|].
      destruct c1 as [[] [] [] [] [] [] [] []]; simpl; try lia. }
    destruct split as [slash s2]. simpl in Hsplit.
    pose proof (take_letters_length s2) as Htake.
    destruct (take_letters s2) as [name s3]. simpl in Htake.
    destruct name as [|n0 name]; [discriminate|].
    destruct (until_gt s3) as [[skipped r]|] eqn:Hg; [|discriminate].
    injection H as _ <-. apply until_gt_length in Hg. simpl. lia.
  - destruct c as [[] [] [] [] [] [] [] []]; try discriminate. contradiction.
Qed.

(** The fuel given to [exec_all] by [tag_matches] is enough: more fuel
    finds the same matches. *)
Lemma exec_all_fuel (fuel : nat) :
  forall s, (String.length s <= fuel)%nat -> exec_all fuel s = exec_all (String.length s) s.
Proof.
  induction fuel as [fuel IH] using lt_wf_ind. intros s Hlen.
  destruct s as [|c s']; [destruct fuel; reflexivity|].
  destruct fuel as [|fuel]; [simpl in Hlen; lia|].
  cbn [exec_all String.length].
  destruct (match_at (String c s')) as [[m rest]|] eqn:Hm.
  - apply match_at_shorter in Hm. simpl in Hm, Hlen. f_equal.
    rewrite (IH fuel (Nat.lt_succ_diag_r fuel) rest) by lia.
    rewrite (IH (String.length s')) by lia. reflexivity.
  - simpl in Hlen. apply IH; lia.
Qed.

Lemma nested_whitelisted (w : list TagEvent) :
  well_nested w -> forall e, In e w -> whitelisted (event_name e).
Proof.
  intros H. induction H as [|t w Ht Hw IH|t a b Ht Ha IHa Hb IHb]; intros e He.
  - destruct He.
  - destruct He as [<-|He]; [exact Ht | apply IH, He].
  - destruct He as [<-|He]; [exact Ht|].
    apply in_app_or in He. destruct He as [He|[<-|He]];
      [apply IHa, He | exact Ht | apply IHb, He].
Qed.

(** What the validator does with the tags its pattern finds, names being
    the runs of letters the pattern captures: it accepts a text exactly when
    these, read as opening, closing and self-closing tags with lower-cased
    names, are properly nested occurrences of whitelisted names.  When it
    rejects, the error is a non-empty message of one of three kinds, each
    naming the captured name at fault: an unknown name; a closing tag that
    does not match the innermost open tag, with the expected and the found
    closing tag; or the tags left open. *)
Lemma validateHTML_accepts_nested_tags (text : string) :
  (Validation.valid (validateHTML text) = true <-> well_nested (tag_events text))
  /\ (forall tag, In tag (tag_names text) -> ~ whitelisted tag ->
       Validation.valid (validateHTML text) = false)
  /\ (Validation.valid (validateHTML text) = false ->
      exists message,
        Validation.error (validateHTML text) = Some message
        /\ rejection (tag_names text) message).
Proof.
  unfold validateHTML, tag_events, tag_names. rewrite check_tags_events.
  split; [apply valid_iff_nested|]. split.
  - intros tag Hin Hnot.
    destruct (Validation.valid (check_events [] (map event_of (tag_matches text))))
      eqn:Hvalid; [|reflexivity].
    exfalso. apply Hnot. apply valid_iff_nested in Hvalid.
    apply in_map_iff in Hin. destruct Hin as [m [<- Hm]].
    rewrite <- event_name_of. apply (nested_whitelisted _ Hvalid).
    apply in_map. exact Hm.
  - apply check_invalid_rejection.
    + intros t [].
    + intros e He. apply in_map_iff in He. destruct He as [m [<- Hm]].
      rewrite event_name_of. apply in_map. exact Hm.
Qed.

(** Examples: nesting, case, attributes and a self-closing tag are
    accepted; crossing tags, an unclosed tag and an unknown tag are
    rejected. *)
Example validateHTML_examples :
  Validation.valid (validateHTML "<b>Hello</b>") = true
  /\ Validation.valid (validateHTML "<B><a href='https://example.com'>x</a><s/></b>") = true
  /\ validateHTML "<b><i>x</b></i>"
     = Validation.fail (nesting_message (Some "i"%string) "b")
  /\ validateHTML "</b>" = Validation.fail (nesting_message None "b")
  /\ validateHTML "<b><i>x</i>" = Validation.fail (unclosed_message ["b"%string])
  /\ validateHTML "<div>x</div>" = Validation.fail (unknown_tag_message "div").
Proof. vm_compute. repeat split. Qed.

(** C7 (the code departs from the specification).  The pattern captures
    as the name of a tag only the letters that follow [<] or [</], and lets
    anything but [>] come after them.  A tag whose name goes on with a digit
    or a hyphen is therefore checked under the letters it begins with: the
    unknown tags [<b1>] and [<i-am-not-a-tag>] are read as [b] and [i], and
    the texts that hold them are accepted.  The same happens behind every
    name of the whitelist. *)
Theorem unknown_tag_passes_under_its_first_letters :
  validateHTML "<b1>x</b1>" = Validation.ok
  /\ tag_names "<b1>x</b1>" = ["b"; "b"]%string
  /\ includes allowedTags "b1" = false
  /\ validateHTML "<i-am-not-a-tag>x</i>" = Validation.ok
  /\ Forall (fun name =>
               includes allowedTags (name +++ "1") = false
               /\ validateHTML ("<" +++ name +++ "1>x</" +++ name +++ "1>") = Validation.ok)
       allowedTags.
Proof. vm_compute. repeat split; repeat constructor. Qed.

(** ** Duplication *)

Lemma sort_by_sorted {A : Type} (le : A -> A -> bool) (l : list A) :
  sorted_by le l -> sort_by le l = l.
Proof.
  induction l as [|x l IH]; intros H; [reflexivity|].
  simpl. destruct l as [|y l]; [reflexivity|].
  destruct H as [Hxy Hl]. rewrite (IH Hl). simpl. rewrite Hxy. reflexivity.
Qed.

Lemma insert_by_sorted {A : Type} (le : A -> A -> bool) (x : A) (l : list A) :
  (forall a b, le a b = false -> le b a = true) ->
  sorted_by le l -> sorted_by le (insert_by le x l).
Proof.
  intros Htotal. induction l as [|y l IH]; intros H; [exact I|].
  simpl. destruct (le x y) eqn:Hxy.
  - split; [exact Hxy | exact H].
  - specialize (Htotal x y Hxy).
    destruct l as [|z l].
    + simpl. split; [exact Htotal | exact I].
    + destruct H as [Hyz Hl]. specialize (IH Hl). simpl in *.
      destruct (le x z); split; assumption.
Qed.

Lemma sort_by_is_sorted {A : Type} (le : A -> A -> bool) (l : list A) :
  (forall a b, le a b = false -> le b a = true) ->
  sorted_by le (sort_by le l).
Proof.
  intros Htotal. induction l as [|x l IH]; [exact I|].
  simpl. apply insert_by_sorted; assumption.
Qed.

Lemma button_le_total (a b : PostButton.t) : button_le a b = false -> button_le b a = true.
Proof.
  unfold button_le. intros H.
  apply orb_false_iff in H. destruct H as [H1 H2].
  apply Z.ltb_ge in H1.
  destruct (PostButton.row b <? PostButton.row a) eqn:E; [reflexivity|].
  apply Z.ltb_ge in E. simpl.
  assert (Heq : PostButton.row a = PostButton.row b) by lia.
  rewrite Heq, Z.eqb_refl in *. simpl in *.
  apply Z.leb_gt in H2. apply Z.leb_le. lia.
Qed.

Lemma sorted_by_map {A B : Type} (leA : A -> A -> bool) (leB : B -> B -> bool)
    (f : A -> B) (l : list A) :
  (forall a b, leB (f a) (f b) = leA a b) ->
  sorted_by leA l -> sorted_by leB (map f l).
Proof.
  intros Hf. induction l as [|x l IH]; intros H; [exact I|].
  destruct l as [|y l]; [exact I|].
  destruct H as [Hxy Hl]. simpl. split; [rewrite Hf; exact Hxy | apply IH, Hl].
Qed.

Lemma addMedia_run (env : Env) (st : State) (postId : Z) (fileId : string)
    (fileType : MediaType.t) (fileSize : option Z) (caption : option string) :
  no_rejection env ->
  find_post (db st) postId <> None ->
  exists st',
    addMedia postId fileId fileType fileSize caption env st
    = (Ok (Media.mk (next_media_id (db st)) postId fileId fileType fileSize caption
             (Z.of_nat (length (media_of (db st) postId)))), st')
    /\ db st' = with_media
                  (media (db st)
                   ++ [Media.mk (next_media_id (db st)) postId fileId fileType fileSize
                         caption (Z.of_nat (length (media_of (db st) postId)))])
                  (next_media_id (db st) + 1) (db st).
Proof.
  intros Hnf Hpost.
  unfold addMedia, try_catch, bind, prisma, media_count, media_create.
  rewrite Hnf. cbn [fst snd db set_db count_db_call dbCalls]. rewrite Hnf.
  destruct (find_post (db st) postId) as [p|] eqn:Hp; [|contradiction].
  eexists. split; reflexivity.
Qed.

Lemma copy_media_run (env : Env) (postId : Z) (items : list Media.t) :
  no_rejection env ->
  forall (st : State) (k : nat),
    find_post (db st) postId <> None ->
    length (media_of (db st) postId) = k ->
    exists st',
      for_of items (fun media =>
        addMedia postId (Media.file_id media) (Media.file_type media)
          (truthy_number (Media.file_size media))
          (truthy_string (Media.caption media)) ;;
        ret tt) env st = (Ok tt, st')
      /\ db st' = with_media
                    (media (db st) ++ media_copies postId (next_media_id (db st)) k items)
                    (next_media_id (db st) + Z.of_nat (length items)) (db st).
Proof.
  intros Hnf. induction items as [|m rest IH]; intros st k Hpost Hk.
  - exists st. split; [reflexivity|]. simpl. rewrite app_nil_r, Z.add_0_r.
    destruct (db st). reflexivity.
  - destruct (addMedia_run env st postId (Media.file_id m) (Media.file_type m)
                (truthy_number (Media.file_size m)) (truthy_string (Media.caption m))
                Hnf Hpost) as [st1 [Hadd Hdb1]].
    destruct (IH st1 (S k)) as [st' [Hrun Hdb]].
    + rewrite Hdb1. unfold find_post in *. exact Hpost.
    + rewrite Hdb1. unfold media_of. simpl. rewrite filter_app. simpl. rewrite Z.eqb_refl.
      rewrite length_app. fold (media_of (db st) postId). rewrite Hk. simpl. lia.
    + exists st'. split.
      * cbn [for_of]. unfold bind at 1. unfold bind at 1. rewrite Hadd.
        cbv beta iota. unfold ret at 1. cbv beta iota. exact Hrun.
      * rewrite Hdb, Hdb1. unfold with_media.
        cbn [media next_media_id channels posts buttons schedules statistics
             next_post_id next_button_id next_schedule_id media_copies length].
        rewrite <- app_assoc. cbn [app]. rewrite Hk. f_equal. lia.
Qed.

Lemma addButton_run (env : Env) (st : State) (postId : Z) (text url : string)
    (row position : Z) :
  no_rejection env ->
  find_post (db st) postId <> None ->
  exists st',
    addButton postId text url row position env st
    = (Ok (PostButton.mk (next_button_id (db st)) postId text url row position), st')
    /\ db st' = with_buttons
                  (buttons (db st)
                   ++ [PostButton.mk (next_button_id (db st)) postId text url row position])
                  (next_button_id (db st) + 1) (db st).
Proof.
  intros Hnf Hpost.
  unfold addButton, try_catch, bind, prisma, postButton_create.
  rewrite Hnf.
  destruct (find_post (db st) postId) as [p|] eqn:Hp; [|contradiction].
  eexists. split; reflexivity.
Qed.

Lemma copy_buttons_run (env : Env) (postId : Z) (items : list PostButton.t) :
  no_rejection env ->
  forall (st : State),
    find_post (db st) postId <> None ->
    exists st',
      for_of items (fun button =>
        addButton postId (PostButton.text button) (PostButton.url button)
          (PostButton.row button) (PostButton.position button) ;;
        ret tt) env st = (Ok tt, st')
      /\ db st' = with_buttons
                    (buttons (db st) ++ button_copies postId (next_button_id (db st)) items)
                    (next_button_id (db st) + Z.of_nat (length items)) (db st).
Proof.
  intros Hnf. induction items as [|b rest IH]; intros st Hpost.
  - exists st. split; [reflexivity|]. simpl. rewrite app_nil_r, Z.add_0_r.
    destruct (db st). reflexivity.
  - destruct (addButton_run env st postId (PostButton.text b) (PostButton.url b)
                (PostButton.row b) (PostButton.position b) Hnf Hpost) as [st1 [Hadd Hdb1]].
    destruct (IH st1) as [st' [Hrun Hdb]].
    + rewrite Hdb1. unfold find_post in *. exact Hpost.
    + exists st'. split.
      * cbn [for_of]. unfold bind at 1. unfold bind at 1. rewrite Hadd.
        cbv beta iota. unfold ret at 1. cbv beta iota. exact Hrun.
      * rewrite Hdb, Hdb1. unfold with_buttons.
        cbn [media next_media_id channels posts buttons schedules statistics
             next_post_id next_button_id next_schedule_id button_copies length].
        rewrite <- app_assoc. cbn [app]. f_equal. lia.
Qed.

Lemma filter_none {A : Type} (f : A -> bool) (l : list A) :
  (forall x, In x l -> f x = false) -> filter f l = [].
Proof.
  induction l as [|x l IH]; intros H; [reflexivity|].
  simpl. rewrite (H x (or_introl eq_refl)). apply IH. intros y Hy. apply H. right. exact Hy.
Qed.

Lemma filter_all {A : Type} (f : A -> bool) (l : list A) :
  (forall x, In x l -> f x = true) -> filter f l = l.
Proof.
  induction l as [|x l IH]; intros H; [reflexivity|].
  simpl. rewrite (H x (or_introl eq_refl)). f_equal. apply IH.
  intros y Hy. apply H. right. exact Hy.
Qed.

(** The store after a duplication that nothing rejects. *)
Lemma duplicatePost_run (env : Env) (st : State) (postId : Z) (p : Post.t) :
  no_rejection env ->
  references_below (db st) ->
  find_post (db st) postId = Some p ->
  find_channel (db st) (Post.channel_id p) <> None ->
  exists st',
    duplicatePost postId env st
    = (Ok (Post.mk (next_post_id (db st)) (Post.channel_id p) (Post.text p)
             PostStatus.DRAFT None None), st')
    /\ db st'
       = mkDB (channels (db st))
           (posts (db st)
            ++ [Post.mk (next_post_id (db st)) (Post.channel_id p) (Post.text p)
                  PostStatus.DRAFT None None])
           (media (db st)
            ++ media_copies (next_post_id (db st)) (next_media_id (db st)) 0
                 (sort_by media_le (media_of (db st) postId)))
           (buttons (db st)
            ++ button_copies (next_post_id (db st)) (next_button_id (db st))
                 (sort_by button_le (buttons_of (db st) postId)))
           (schedules (db st)) (statistics (db st))
           (next_post_id (db st) + 1)
           (next_media_id (db st)
            + Z.of_nat (length (sort_by media_le (media_of (db st) postId))))
           (next_button_id (db st)
            + Z.of_nat (length (sort_by button_le (buttons_of (db st) postId))))
           (next_schedule_id (db st)).
Proof.
  intros Hnf [Hposts [Hmedia _]] Hp Hc.
  set (dup := Post.mk (next_post_id (db st)) (Post.channel_id p) (Post.text p)
                PostStatus.DRAFT None None).
  set (d1 := with_posts (posts (db st) ++ [dup]) (next_post_id (db st) + 1) (db st)).
  set (st1 := set_db d1 (count_db_call (set_db (db st) (count_db_call st)))).
  assert (Hpost1 : find_post (db st1) (Post.id dup) <> None).
  { apply (find_post_last (db st) dup). }
  assert (Hk : length (media_of (db st1) (Post.id dup)) = 0%nat).
  { unfold media_of. simpl. rewrite filter_none; [reflexivity|].
    intros m Hm. specialize (Hmedia m Hm). apply Z.eqb_neq. lia. }
  destruct (copy_media_run env (Post.id dup) (sort_by media_le (media_of (db st) postId))
              Hnf st1 0%nat Hpost1 Hk) as [st2 [Hrun2 Hdb2]].
  assert (Hpost2 : find_post (db st2) (Post.id dup) <> None).
  { rewrite Hdb2. exact Hpost1. }
  destruct (copy_buttons_run env (Post.id dup)
              (sort_by button_le (buttons_of (db st) postId)) Hnf st2 Hpost2)
    as [st3 [Hrun3 Hdb3]].
  exists st3. split.
  - unfold duplicatePost, try_catch. unfold bind at 1.
    unfold getPostById, try_catch, prisma, post_findUnique. rewrite Hnf, Hp.
    cbv beta iota. unfold bind at 1. unfold prisma, post_create.
    cbn [dbCalls set_db count_db_call db]. rewrite Hnf.
    cbn [PostFull.post PostFull.media PostFull.buttons].
    destruct (find_channel (db st) (Post.channel_id p)) as [c|]; [|contradiction].
    cbv beta iota. fold dup. fold d1. fold st1.
    unfold bind at 1. rewrite Hrun2. cbv beta iota.
    unfold bind at 1. rewrite Hrun3. reflexivity.
  - rewrite Hdb3, Hdb2. reflexivity.
Qed.

Lemma media_copies_post (postId : Z) (items : list Media.t) :
  forall id k x, In x (media_copies postId id k items) -> Media.post_id x = postId.
Proof.
  induction items as [|m rest IH]; intros id k x Hx; [destruct Hx|].
  destruct Hx as [<-|Hx]; [reflexivity | apply (IH _ _ _ Hx)].
Qed.

Lemma button_copies_post (postId : Z) (items : list PostButton.t) :
  forall id x, In x (button_copies postId id items) -> PostButton.post_id x = postId.
Proof.
  induction items as [|b rest IH]; intros id x Hx; [destruct Hx|].
  destruct Hx as [<-|Hx]; [reflexivity | apply (IH _ _ Hx)].
Qed.

Lemma media_copies_sorted (postId : Z) (items : list Media.t) :
  forall id k, sorted_by media_le (media_copies postId id k items).
Proof.
  induction items as [|m rest IH]; intros id k; [exact I|].
  destruct rest as [|m' rest]; [exact I|].
  split; [|apply (IH (id + 1) (S k))].
  unfold media_le. simpl. apply Z.leb_le. lia.
Qed.

Lemma button_copies_sorted (postId : Z) (items : list PostButton.t) :
  forall id, sorted_by button_le items -> sorted_by button_le (button_copies postId id items).
Proof.
  induction items as [|b rest IH]; intros id H; [exact I|].
  destruct rest as [|b' rest]; [exact I|].
  destruct H as [Hle Hrest]. split; [exact Hle | apply (IH (id + 1) Hrest)].
Qed.

Lemma media_copies_fields (postId : Z) (items : list Media.t) :
  forall id k,
    map Media.file_id (media_copies postId id k items) = map Media.file_id items
    /\ map Media.file_type (media_copies postId id k items) = map Media.file_type items
    /\ map Media.position (media_copies postId id k items)
       = map Z.of_nat (seq k (length items))
    /\ map Media.file_size (media_copies postId id k items)
       = map (fun m => truthy_number (Media.file_size m)) items
    /\ map Media.caption (media_copies postId id k items)
       = map (fun m => truthy_string (Media.caption m)) items.
Proof.
  induction items as [|m rest IH]; intros id k; [repeat split|].
  destruct (IH (id + 1) (S k)) as [H1 [H2 [H3 [H4 H5]]]].
  simpl. rewrite H1, H2, H3, H4, H5. repeat split.
Qed.

Lemma button_copies_content (postId : Z) (items : list PostButton.t) :
  forall id, map button_content (button_copies postId id items) = map button_content items.
Proof.
  induction items as [|b rest IH]; intros id; [reflexivity|].
  simpl. rewrite IH. reflexivity.
Qed.

Lemma media_copies_plain (postId : Z) (items : list Media.t) :
  forall id k,
    map Media.position items = map Z.of_nat (seq k (length items)) ->
    (forall m, In m items ->
       Media.file_size m <> Some 0 /\ Media.caption m <> Some EmptyString) ->
    map media_content (media_copies postId id k items) = map media_content items.
Proof.
  induction items as [|m rest IH]; intros id k Hpos Hplain; [reflexivity|].
  simpl in Hpos. injection Hpos as Hk Hrest.
  simpl. rewrite (IH (id + 1) (S k) Hrest).
  - f_equal. unfold media_content. simpl.
    destruct (Hplain m (or_introl eq_refl)) as [Hsize Hcap].
    rewrite Hk.
    assert (Hs : truthy_number (Media.file_size m) = Media.file_size m).
    { destruct (Media.file_size m) as [[| |]|]; try reflexivity. contradiction. }
    assert (Hc : truthy_string (Media.caption m) = Media.caption m).
    { destruct (Media.caption m) as [[|]|]; try reflexivity. contradiction. }
    rewrite Hs, Hc. reflexivity.
  - intros m' Hm'. apply Hplain. right. exact Hm'.
Qed.

Lemma find_nothing {A : Type} (f : A -> bool) (l : list A) :
  (forall x, In x l -> f x = false) -> find f l = None.
Proof.
  induction l as [|x l IH]; intros H; [reflexivity|].
  simpl. rewrite (H x (or_introl eq_refl)). apply IH. intros y Hy. apply H. right. exact Hy.
Qed.

(** C8, as amended.  In a store that answers and keeps its references,
    duplicating a post whose channel exists returns a new post which reads
    back as a fresh draft of the original: status DRAFT, the original's
    channel and text, no remote message id, no publication time, no
    schedule, no statistics.  Its buttons are the original's (label, url,
    row, position).  Its media are the original's in position order, with
    the same file and type, at positions 0, 1, ..., and with the size and
    the caption passed through [x || undefined]; so when the original's
    media are at positions 0, 1, ... and none has a zero size or an empty
    caption, the duplicate's media equal the original's in file, type, size,
    caption and position. *)
Theorem duplicate_is_fresh_draft (env : Env) (st : State) (postId : Z)
    (original : PostFull.t) :
  no_rejection env ->
  references_below (db st) ->
  lookup_post (db st) postId = Some original ->
  PostFull.channel original <> None ->
  exists copy,
    lookup_post (db (snd (duplicatePost postId env st))) (next_post_id (db st)) = Some copy
    /\ fst (duplicatePost postId env st) = Ok (PostFull.post copy)
    /\ fresh_draft_of original copy
    /\ map button_content (PostFull.buttons copy)
       = map button_content (PostFull.buttons original)
    /\ media_copied original copy
    /\ (plain_media original -> identical_copy original copy).
Proof.
  intros Hnf Href Hlookup Hchannel.
  unfold lookup_post, post_findUnique in Hlookup. cbn [fst] in Hlookup.
  destruct (find_post (db st) postId) as [p|] eqn:Hp; [|discriminate].
  injection Hlookup as <-. cbn [PostFull.channel] in Hchannel.
  destruct (duplicatePost_run env st postId p Hnf Href Hp Hchannel) as [st' [Hrun Hdb]].
  rewrite Hrun. cbn [fst snd].
  destruct Href as [Hposts [Hmedia [Hbuttons [Hschedules Hstatistics]]]].
  set (newId := next_post_id (db st)) in *.
  set (dup := Post.mk newId (Post.channel_id p) (Post.text p) PostStatus.DRAFT None None)
    in *.
  set (items := sort_by media_le (media_of (db st) postId)) in *.
  set (bitems := sort_by button_le (buttons_of (db st) postId)) in *.
  assert (Hfind : find_post (db st') newId = Some dup).
  { unfold find_post. rewrite Hdb. cbn [posts]. apply find_fresh; [|reflexivity].
    intros q Hq. specialize (Hposts q Hq). fold newId in Hposts. lia. }
  assert (Hm : media_of (db st') newId = media_copies newId (next_media_id (db st)) 0 items).
  { unfold media_of. rewrite Hdb. cbn [media]. rewrite filter_app.
    rewrite filter_none, filter_all; [reflexivity| |].
    - intros x Hx. apply media_copies_post in Hx. rewrite Hx. apply Z.eqb_refl.
    - intros x Hx. specialize (Hmedia x Hx). fold newId in Hmedia. apply Z.eqb_neq. lia. }
  assert (Hb : buttons_of (db st') newId
               = button_copies newId (next_button_id (db st)) bitems).
  { unfold buttons_of. rewrite Hdb. cbn [buttons]. rewrite filter_app.
    rewrite filter_none, filter_all; [reflexivity| |].
    - intros x Hx. apply button_copies_post in Hx. rewrite Hx. apply Z.eqb_refl.
    - intros x Hx. specialize (Hbuttons x Hx). fold newId in Hbuttons.
      apply Z.eqb_neq. lia. }
  assert (Hs : schedule_of (db st') newId = None).
  { unfold schedule_of. rewrite Hdb. cbn [schedules]. apply find_nothing.
    intros x Hx. specialize (Hschedules x Hx). fold newId in Hschedules.
    apply Z.eqb_neq. lia. }
  assert (Hst : statistics_of (db st') newId = None).
  { unfold statistics_of. rewrite Hdb. cbn [statistics]. apply find_nothing.
    intros x Hx. specialize (Hstatistics x Hx). fold newId in Hstatistics.
    apply Z.eqb_neq. lia. }
  eexists. split.
  { unfold lookup_post, post_findUnique. cbn [fst]. rewrite Hfind, Hm, Hb, Hs, Hst.
    rewrite (sort_by_sorted media_le), (sort_by_sorted button_le); [reflexivity| |].
    - apply button_copies_sorted. apply sort_by_is_sorted. exact button_le_total.
    - apply media_copies_sorted. }
  cbn [PostFull.post PostFull.media PostFull.buttons PostFull.schedule PostFull.statistics].
  pose proof (media_copies_fields newId items (next_media_id (db st)) 0) as Hfields.
  pose proof (button_copies_content newId bitems (next_button_id (db st))) as Hcontent.
  assert (Hfresh : fresh_draft_of
                     (PostFull.mk p (find_channel (db st) (Post.channel_id p)) items bitems
                        (schedule_of (db st) postId) (statistics_of (db st) postId))
                     (PostFull.mk dup (find_channel (db st') (Post.channel_id dup))
                        (media_copies newId (next_media_id (db st)) 0 items)
                        (button_copies newId (next_button_id (db st)) bitems) None None)).
  { repeat split. }
  split; [reflexivity|]. split; [exact Hfresh|]. split; [exact Hcontent|].
  split; [exact Hfields|].
  intros [Hpos Hplain]. cbn [PostFull.media] in Hpos, Hplain.
  split; [exact Hfresh|]. split; [|exact Hcontent].
  cbn [PostFull.media]. apply media_copies_plain; assumption.
Qed.

Lemma duplicate_is_fresh_draft_witness :
  exists copy,
    lookup_post
      (db (snd (duplicatePost 1 (Examples.env_of Examples.no_fault Examples.rejecting)
                  (Examples.state_of Examples.catalogue))))
      (next_post_id (db (Examples.state_of Examples.catalogue))) = Some copy
    /\ fst (duplicatePost 1 (Examples.env_of Examples.no_fault Examples.rejecting)
              (Examples.state_of Examples.catalogue)) = Ok (PostFull.post copy)
    /\ fresh_draft_of Examples.catalogue_original copy
    /\ map button_content (PostFull.buttons copy)
       = map button_content (PostFull.buttons Examples.catalogue_original)
    /\ media_copied Examples.catalogue_original copy
    /\ (plain_media Examples.catalogue_original ->
        identical_copy Examples.catalogue_original copy).
Proof.
  apply (duplicate_is_fresh_draft (Examples.env_of Examples.no_fault Examples.rejecting)
           (Examples.state_of Examples.catalogue) 1 Examples.catalogue_original).
  - intros n. reflexivity.
  - repeat split; intros x Hx; simpl in Hx;
      repeat (destruct Hx as [<-|Hx]; [simpl; lia|]); destruct Hx.
  - reflexivity.
  - discriminate.
Defined.

(** C8, as the specification states it, fails: an original with a media
    row of size 0 at position 0 and a second media row at position 2 is
    duplicated with no size on the first row and with positions 0 and 1. *)
Lemma duplicate_renumbers_and_drops_zero_size :
  lookup_post Examples.gapped 1 = Some Examples.gapped_original
  /\ lookup_post
       (db (snd (duplicatePost 1 (Examples.env_of Examples.no_fault Examples.rejecting)
                   (Examples.state_of Examples.gapped))))
       2 = Some Examples.gapped_copy
  /\ ~ identical_copy Examples.gapped_original Examples.gapped_copy.
Proof.
  split; [reflexivity|]. split; [reflexivity|].
  intros [_ [Hmedia _]]. vm_compute in Hmedia. discriminate.
Qed.

(** ** The remote message id is set exactly on PUBLISHED posts *)

Lemma unsent_consistent (p : Post.t) :
  Post.telegram_message_id p = None -> Post.status p <> PostStatus.PUBLISHED -> consistent p.
Proof. intros H1 H2. split; intros H; congruence. Qed.

Lemma invariant_new_post (d d' : DB) (p : Post.t) :
  store_invariant d -> consistent p -> Post.id p = next_post_id d ->
  posts d' = posts d ++ [p] -> schedules d' = schedules d ->
  next_post_id d' = next_post_id d + 1 ->
  store_invariant d'.
Proof.
  intros (Ha & Hb & Hc & Hd & He) Hp Hid Hposts Hsch Hnext.
  unfold store_invariant. rewrite Hposts, Hsch, Hnext.
  split; [|split; [|split; [|split]]].
  - intros q Hq. apply in_app_or in Hq. destruct Hq as [Hq|[<-|[]]]; auto.
  - intros s Hs Hpend q Hq Hqid. apply in_app_or in Hq. destruct Hq as [Hq|[<-|[]]].
    + apply (Hb s Hs Hpend q Hq Hqid).
    + specialize (He s Hs). lia.
  - exact Hc.
  - intros q Hq. apply in_app_or in Hq. destruct Hq as [Hq|[<-|[]]].
    + specialize (Hd q Hq). lia.
    + lia.
  - intros s Hs. specialize (He s Hs). lia.
Qed.

Lemma invariant_status_patch (d d' : DB) (k : Z) (u : PostPatch.t) (s : PostStatus.t) :
  store_invariant d -> unsent (posts d) k ->
  PostPatch.status u = Some s -> s <> PostStatus.PUBLISHED ->
  PostPatch.telegram_message_id u = None ->
  posts d' = patch_rows k u (posts d) -> schedules d' = schedules d ->
  next_post_id d' = next_post_id d ->
  store_invariant d'.
Proof.
  intros (Ha & Hb & Hc & Hd & He) Hk Hs Hne Hm Hposts Hsch Hnext.
  unfold store_invariant. rewrite Hposts, Hsch, Hnext.
  split; [|split; [|split; [|split]]].
  - intros q Hq. apply in_patched in Hq. destruct Hq as [[q0 [Hq0 [Hid ->]]]|[Hq _]]; auto.
    apply unsent_consistent; simpl; rewrite ?Hm, ?Hs; auto.
  - intros r Hr Hpend q Hq Hqid. apply in_patched in Hq.
    destruct Hq as [[q0 [Hq0 [Hid ->]]]|[Hq _]].
    + simpl. rewrite Hm. apply (Hb r Hr Hpend q0 Hq0). exact Hqid.
    + apply (Hb r Hr Hpend q Hq Hqid).
  - exact Hc.
  - intros q Hq. apply in_patched in Hq. destruct Hq as [[q0 [Hq0 [Hid ->]]]|[Hq _]]; auto.
    simpl. apply Hd, Hq0.
  - exact He.
Qed.

Lemma patched_post_ids (i : Z) (u : SchedulePatch.t) (l : list Schedule.t) :
  map Schedule.post_id (patch_schedules i u l) = map Schedule.post_id l.
Proof.
  unfold patch_schedules. rewrite map_map. apply map_ext.
  intros q. destruct (Schedule.id q =? i); reflexivity.
Qed.

Lemma invariant_schedule_patch (d d' : DB) (i : Z) (u : SchedulePatch.t)
    (s : ScheduleStatus.t) :
  store_invariant d ->
  SchedulePatch.status u = Some s -> s <> ScheduleStatus.PENDING ->
  schedules d' = patch_schedules i u (schedules d) ->
  posts d' = posts d -> next_post_id d' = next_post_id d ->
  store_invariant d'.
Proof.
  intros (Ha & Hb & Hc & Hd & He) Hs Hne Hsch Hposts Hnext.
  unfold store_invariant. rewrite Hposts, Hsch, Hnext.
  split; [|split; [|split; [|split]]].
  - exact Ha.
  - intros r Hr Hpend. apply in_patched in Hr.
    destruct Hr as [[r0 [Hr0 [Hid ->]]]|[Hr _]].
    + simpl in Hpend. rewrite Hs in Hpend. contradiction.
    + apply (Hb r Hr Hpend).
  - rewrite patched_post_ids. exact Hc.
  - exact Hd.
  - intros r Hr. apply in_patched in Hr.
    destruct Hr as [[r0 [Hr0 [Hid ->]]]|[Hr _]]; [simpl|]; auto.
Qed.

Lemma NoDup_map_eq {A : Type} (f : A -> Z) (l : list A) (x y : A) :
  NoDup (map f l) -> In x l -> In y l -> f x = f y -> x = y.
Proof.
  induction l as [|a l IH]; intros Hnd Hx Hy Hxy; [destruct Hx|].
  simpl in Hnd. inversion Hnd as [|? ? Hnotin Hnd']; subst.
  destruct Hx as [->|Hx], Hy as [->|Hy]; auto.
  - exfalso. apply Hnotin. rewrite Hxy. apply in_map, Hy.
  - exfalso. apply Hnotin. rewrite <- Hxy. apply in_map, Hx.
Qed.

Lemma delivered_rows_in (k now mid : Z) (l : list Post.t) (p : Post.t) :
  In p (delivered_rows k now mid l) ->
  (exists q, In q l /\ Post.id q = k /\ Post.id p = k
             /\ Post.status p = PostStatus.PUBLISHED
             /\ Post.telegram_message_id p = Some mid)
  \/ (In p l /\ Post.id p <> k).
Proof.
  unfold delivered_rows. intros Hp. apply in_patched in Hp.
  destruct Hp as [[q1 [Hq1 [Hid1 ->]]]|[Hp Hne]].
  - apply in_patched in Hq1. destruct Hq1 as [[q2 [Hq2 [Hid2 ->]]]|[Hq1 Hne]].
    + left. exists q2. simpl. auto.
    + contradiction.
  - apply in_patched in Hp. destruct Hp as [[q2 [Hq2 [Hid2 ->]]]|[Hp _]].
    + simpl in Hne. contradiction.
    + right. auto.
Qed.

Lemma invariant_delivered (d d' : DB) (r : Schedule.t) (u : SchedulePatch.t)
    (now mid : Z) :
  store_invariant d -> In r (schedules d) ->
  SchedulePatch.status u = Some ScheduleStatus.PUBLISHED ->
  posts d' = delivered_rows (Schedule.post_id r) now mid (posts d) ->
  schedules d' = patch_schedules (Schedule.id r) u (schedules d) ->
  next_post_id d' = next_post_id d ->
  store_invariant d'.
Proof.
  intros (Ha & Hb & Hc & Hd & He) Hr Hs Hposts Hsch Hnext.
  unfold store_invariant. rewrite Hposts, Hsch, Hnext.
  split; [|split; [|split; [|split]]].
  - intros q Hq. apply delivered_rows_in in Hq.
    destruct Hq as [[q0 [_ [_ [_ [Hst Hm]]]]]|[Hq _]]; auto.
    split; intros _; [exact Hst | rewrite Hm; discriminate].
  - intros r' Hr' Hpend. apply in_patched in Hr'.
    destruct Hr' as [[r0 [Hr0 [Hid ->]]]|[Hr' Hne]].
    + simpl in Hpend. rewrite Hs in Hpend. discriminate.
    + intros q Hq Hqid. apply delivered_rows_in in Hq.
      destruct Hq as [[q0 [_ [_ [Hk _]]]]|[Hq _]].
      * exfalso. apply Hne. f_equal.
        apply (NoDup_map_eq Schedule.post_id (schedules d)); auto. congruence.
      * apply (Hb r' Hr' Hpend q Hq Hqid).
  - rewrite patched_post_ids. exact Hc.
  - intros q Hq. apply delivered_rows_in in Hq.
    destruct Hq as [[q0 [Hq0 [Hid0 [Hk _]]]]|[Hq _]]; auto.
    rewrite Hk, <- Hid0. auto.
  - intros r' Hr'. apply in_patched in Hr'.
    destruct Hr' as [[r0 [Hr0 [Hid ->]]]|[Hr' _]]; [simpl|]; auto.
Qed.

(** Queries and requests that leave the posts, the schedules and the post
    sequence alone keep every property that only reads those. *)
Section PostView.

Variable env : Env.
Variable P : DB -> Prop.
Hypothesis P_frame : forall d d',
  posts d' = posts d -> schedules d' = schedules d -> next_post_id d' = next_post_id d ->
  P d -> P d'.

Lemma view_media_count (postId : Z) : stable env (on_db P) (prisma (media_count postId)).
Proof. apply stable_prisma_db. intros d H. exact H. Qed.

Lemma view_media_create (postId : Z) (fileId : string) (fileType : MediaType.t)
    (fileSize : option Z) (caption : option string) (position : Z) :
  stable env (on_db P)
    (prisma (media_create postId fileId fileType fileSize caption position)).
Proof.
  apply stable_prisma_db. intros d H. unfold media_create.
  destruct (find_post d postId); simpl; [|exact H].
  apply (P_frame d); auto.
Qed.

Lemma view_postButton_create (postId : Z) (text url : string) (row position : Z) :
  stable env (on_db P) (prisma (postButton_create postId text url row position)).
Proof.
  apply stable_prisma_db. intros d H. unfold postButton_create.
  destruct (find_post d postId); simpl; [|exact H].
  apply (P_frame d); auto.
Qed.

Lemma view_addMedia (postId : Z) (fileId : string) (fileType : MediaType.t)
    (fileSize : option Z) (caption : option string) :
  stable env (on_db P) (addMedia postId fileId fileType fileSize caption).
Proof.
  unfold addMedia. apply stable_try.
  - apply stable_bind; [apply view_media_count | intros n; apply view_media_create].
  - intros e. apply stable_throw.
Qed.

Lemma view_addButton (postId : Z) (text url : string) (row position : Z) :
  stable env (on_db P) (addButton postId text url row position).
Proof.
  unfold addButton. apply stable_try.
  - apply view_postButton_create.
  - intros e. apply stable_throw.
Qed.

Lemma view_add_draft_content (postId : Z) (draft : PostDraft.t) :
  stable env (on_db P) (add_draft_content postId draft).
Proof.
  unfold add_draft_content, ignore. apply stable_bind.
  - apply stable_for_of. intros x _. apply stable_bind.
    + apply view_addMedia.
    + intros a. apply stable_ret.
  - intros u. apply stable_for_of. intros x _. apply stable_bind.
    + apply view_addButton.
    + intros a. apply stable_ret.
Qed.

Lemma view_getPostById (postId : Z) : stable env (on_db P) (getPostById postId).
Proof.
  unfold getPostById. apply stable_try.
  - apply stable_prisma_db. intros d H. exact H.
  - intros e. apply stable_ret.
Qed.

Lemma view_getChannelById (id : Z) : stable env (on_db P) (getChannelById id).
Proof.
  unfold getChannelById. apply stable_try.
  - apply stable_prisma_db. intros d H. exact H.
  - intros e. apply stable_ret.
Qed.

Lemma view_reply_quietly (text : string) : stable env (on_db P) (reply_quietly text).
Proof.
  unfold reply_quietly, ignore. apply stable_try.
  - apply stable_bind; [apply stable_telegram_db | intros a; apply stable_ret].
  - intros e. apply stable_ret.
Qed.

Lemma view_edit_or_reply_quietly (text : string) :
  stable env (on_db P) (edit_or_reply_quietly text).
Proof.
  unfold edit_or_reply_quietly, ignore. apply stable_try.
  - apply stable_bind; [apply stable_telegram_db | intros a; apply stable_ret].
  - intros e. apply view_reply_quietly.
Qed.

End PostView.

Lemma invariant_frame (d d' : DB) :
  posts d' = posts d -> schedules d' = schedules d -> next_post_id d' = next_post_id d ->
  store_invariant d -> store_invariant d'.
Proof. intros H1 H2 H3 H. unfold store_invariant. rewrite H1, H2, H3. exact H. Qed.

Lemma unsent_frame (k : Z) (d d' : DB) :
  posts d' = posts d -> schedules d' = schedules d -> next_post_id d' = next_post_id d ->
  store_invariant d /\ unsent (posts d) k -> store_invariant d' /\ unsent (posts d') k.
Proof.
  intros H1 H2 H3 [H Hk]. split; [apply (invariant_frame d); assumption|].
  rewrite H1. exact Hk.
Qed.

(** [createPost] with a status other than PUBLISHED adds a consistent post
    that has not been sent. *)
Lemma createPost_unsent (env : Env) (channelId : Z) (text : string) (status : PostStatus.t) :
  status <> PostStatus.PUBLISHED ->
  hoare env (on_db store_invariant) (createPost channelId text (Some status))
    (fun r st =>
       store_invariant (db st)
       /\ forall p, r = Ok p -> unsent (posts (db st)) (Post.id p)).
Proof.
  intros Hne st Hinv. unfold on_db in Hinv.
  unfold createPost, try_catch, prisma, throw, post_create.
  destruct (dbFault env (dbCalls st)); simpl.
  - split; [exact Hinv | discriminate].
  - destruct (find_channel (db st) channelId); simpl.
    + split.
      * apply (invariant_new_post (db st) _
                 (Post.mk (next_post_id (db st)) channelId text status None None));
          [exact Hinv | apply unsent_consistent; [reflexivity | exact Hne] | reflexivity..].
      * intros p Hp. injection Hp as <-. simpl. intros q Hq Hid.
        apply in_app_or in Hq. destruct Hq as [Hq|[<-|[]]]; [|reflexivity].
        destruct Hinv as (_ & _ & _ & Hd & _). specialize (Hd q Hq). lia.
    + split; [exact Hinv | discriminate].
Qed.

Lemma create_post_from_draft_unsent (env : Env) (status : PostStatus.t) (channelId : Z)
    (text : string) (draft : PostDraft.t) :
  status <> PostStatus.PUBLISHED ->
  hoare env (on_db store_invariant) (create_post_from_draft status channelId text draft)
    (fun r st =>
       store_invariant (db st)
       /\ forall p, r = Ok p -> unsent (posts (db st)) (Post.id p)).
Proof.
  intros Hne. unfold create_post_from_draft.
  eapply hoare_bind.
  - apply (createPost_unsent env channelId text status Hne).
  - intros post. simpl.
    eapply hoare_bind with
      (R := fun _ st => store_invariant (db st) /\ unsent (posts (db st)) (Post.id post)).
    + eapply hoare_weaken.
      * apply (view_add_draft_content env
                 (fun d => store_invariant d /\ unsent (posts d) (Post.id post))
                 (unsent_frame (Post.id post))).
      * intros st [H1 H2]. split; [exact H1 | apply H2; reflexivity].
      * intros r st H. exact H.
    + intros u. apply hoare_ret. intros st [H1 H2]. split; [exact H1|].
      intros p Hp. injection Hp as <-. exact H2.
    + intros e st [H1 _]. split; [exact H1 | discriminate].
  - intros e st [H1 _]. split; [exact H1 | discriminate].
Qed.

Lemma handleSaveDraft_invariant (env : Env) : stable env (on_db store_invariant) handleSaveDraft.
Proof.
  unfold handleSaveDraft, getPostDraft.
  apply stable_bind; [apply stable_bind; [apply stable_getSession | intros s; apply stable_ret]|].
  intros draft. destruct (committable draft) as [[[d channelId] text]|].
  - apply stable_try.
    + apply stable_bind.
      * eapply hoare_weaken.
        -- apply (create_post_from_draft_unsent env PostStatus.DRAFT channelId text d).
           discriminate.
        -- auto.
        -- intros r st [H _]. exact H.
      * intros post. apply stable_bind; [apply view_getChannelById|].
        intros channel.
        apply stable_bind; [apply view_edit_or_reply_quietly|].
        intros u. apply stable_putSession_db.
    + intros e. apply view_reply_quietly.
  - apply view_reply_quietly.
Qed.

Lemma duplicatePost_invariant (env : Env) (postId : Z) :
  stable env (on_db store_invariant) (duplicatePost postId).
Proof.
  unfold duplicatePost. apply stable_try; [|intros e; apply stable_throw].
  apply stable_bind; [apply view_getPostById|].
  intros [original|]; [|apply stable_throw].
  apply stable_bind.
  - apply stable_prisma_db. intros d H. unfold post_create.
    destruct (find_channel d _); simpl; [|exact H].
    apply (invariant_new_post d _
             (Post.mk (next_post_id d) (Post.channel_id (PostFull.post original))
                (Post.text (PostFull.post original)) PostStatus.DRAFT None None));
      [exact H | apply unsent_consistent; [reflexivity | discriminate] | reflexivity..].
  - intros duplicate. apply stable_bind.
    + apply stable_for_of. intros x _. apply stable_bind.
      * apply (view_addMedia env _ invariant_frame).
      * intros a. apply stable_ret.
    + intros u. apply stable_bind.
      * apply stable_for_of. intros x _. apply stable_bind.
        -- apply (view_addButton env _ invariant_frame).
        -- intros a. apply stable_ret.
      * intros u'. apply stable_ret.
Qed.

Lemma patched_unsent (k j : Z) (u : PostPatch.t) (l : list Post.t) :
  PostPatch.telegram_message_id u = None -> unsent l j -> unsent (patch_rows k u l) j.
Proof.
  intros Hu Hj q Hq Hid. apply in_patched in Hq.
  destruct Hq as [[q0 [Hq0 [Hk ->]]]|[Hq _]].
  - simpl. rewrite Hu. apply (Hj q0 Hq0). exact Hid.
  - apply (Hj q Hq Hid).
Qed.

Lemma schedule_create_unsent (k scheduledAt : Z) (d : DB) :
  store_invariant d /\ unsent (posts d) k ->
  store_invariant (snd (schedule_create k scheduledAt d))
  /\ unsent (posts (snd (schedule_create k scheduledAt d))) k.
Proof.
  intros [Hinv Hk]. unfold schedule_create.
  destruct (find_post d k) as [p|] eqn:Hp; [|simpl; auto].
  destruct (schedule_of d k) as [s|] eqn:Hs; simpl; [auto|].
  split; [|exact Hk].
  destruct Hinv as (Ha & Hb & Hc & Hd & He).
  unfold store_invariant. simpl.
  split; [|split; [|split; [|split]]].
  - exact Ha.
  - intros r Hr Hpend. apply in_app_or in Hr. destruct Hr as [Hr|[<-|[]]].
    + apply (Hb r Hr Hpend).
    + exact Hk.
  - rewrite map_app. simpl.
    apply (Permutation_NoDup (Permutation_cons_append _ _)).
    constructor; [|exact Hc].
    intros Hin. apply in_map_iff in Hin. destruct Hin as [r [Hid Hr]].
    unfold schedule_of in Hs. apply (find_none _ _ Hs) in Hr.
    rewrite Hid, Z.eqb_refl in Hr. discriminate.
  - exact Hd.
  - intros r Hr. apply in_app_or in Hr. destruct Hr as [Hr|[<-|[]]]; [auto|].
    simpl. unfold find_post in Hp. apply find_some in Hp. destruct Hp as [Hin Hid].
    apply Z.eqb_eq in Hid. rewrite <- Hid. auto.
Qed.

Lemma post_update_unsent (k : Z) (s : PostStatus.t) (d : DB) :
  s <> PostStatus.PUBLISHED ->
  store_invariant d /\ unsent (posts d) k ->
  store_invariant (snd (post_update k (PostPatch.mk None (Some s) None None) d))
  /\ unsent (posts (snd (post_update k (PostPatch.mk None (Some s) None None) d))) k.
Proof.
  intros Hne [Hinv Hk]. unfold post_update.
  destruct (find_post d k) as [p|]; simpl; [|auto].
  split.
  - apply (invariant_status_patch d _ k (PostPatch.mk None (Some s) None None) s);
      auto.
  - apply patched_unsent; auto.
Qed.

Lemma schedulePost_invariant (env : Env) (postId scheduledAt : Z) :
  stable env (on_db (fun d => store_invariant d /\ unsent (posts d) postId))
    (schedulePost postId scheduledAt).
Proof.
  unfold schedulePost, updatePost.
  apply stable_try; [|intros e; apply stable_throw].
  apply stable_bind.
  - apply stable_prisma_db. intros d. apply schedule_create_unsent.
  - intros schedule. apply stable_bind; [|intros p; apply stable_ret].
    apply stable_try; [|intros e; apply stable_throw].
    apply stable_prisma_db. intros d. apply post_update_unsent. discriminate.
Qed.

Lemma create_scheduled_post_invariant (env : Env) (channelId : Z) (text : string)
    (draft : PostDraft.t) (scheduledAt : Z) :
  stable env (on_db store_invariant) (create_scheduled_post channelId text draft scheduledAt).
Proof.
  unfold create_scheduled_post. eapply hoare_bind.
  - apply (create_post_from_draft_unsent env PostStatus.SCHEDULED channelId text draft).
    discriminate.
  - intros post. simpl. apply hoare_bind with (R := fun _ st => store_invariant (db st)).
    + eapply hoare_weaken.
      * apply (schedulePost_invariant env (Post.id post) scheduledAt).
      * intros st [H1 H2]. split; [exact H1 | apply H2; reflexivity].
      * intros r st [H _]. exact H.
    + intros s. apply hoare_ret. auto.
    + auto.
  - intros e st [H _]. exact H.
Qed.

Lemma handleScheduledPost_invariant (formatDate : Z -> string) (env : Env) :
  stable env (on_db store_invariant) (handleScheduledPost formatDate).
Proof.
  unfold handleScheduledPost, getPostDraft.
  apply stable_bind; [apply stable_bind; [apply stable_getSession | intros s; apply stable_ret]|].
  intros draft. destruct (committable draft) as [[[d channelId] text]|];
    [|apply view_reply_quietly].
  destruct (PostDraft.scheduledAt d) as [scheduledAt|]; [|apply view_reply_quietly].
  apply stable_try; [|intros e; apply view_reply_quietly].
  apply stable_bind; [apply create_scheduled_post_invariant|].
  intros post. apply stable_bind; [|intros u; apply stable_putSession_db].
  apply stable_try; [|intros e; apply stable_ret].
  apply stable_bind; [apply view_getChannelById|].
  intros channel. unfold ignore. apply stable_try.
  - apply stable_bind; [apply stable_telegram_db | intros a; apply stable_ret].
  - intros e. apply stable_bind; [apply stable_telegram_db | intros a; apply stable_ret].
Qed.

(** ** The three outcomes of a delivery when the store answers *)

Lemma find_patched (k : Z) (u : PostPatch.t) (l : list Post.t) :
  find (fun p => Post.id p =? k) (patch_rows k u l)
  = option_map (PostPatch.apply u) (find (fun p => Post.id p =? k) l).
Proof.
  unfold patch_rows. induction l as [|q l IH]; simpl; [reflexivity|].
  destruct (Post.id q =? k) eqn:E; simpl.
  - rewrite E. reflexivity.
  - rewrite E. exact IH.
Qed.

Lemma publish_cases (env : Env) (st : State) (postId : Z) :
  no_rejection env ->
  (fst (publishPostToTelegram postId env st) = Ok false
   /\ db (snd (publishPostToTelegram postId env st)) = db st
   /\ lookup_fails (db st) postId)
  \/ (fst (publishPostToTelegram postId env st) = Ok false
      /\ db (snd (publishPostToTelegram postId env st))
         = with_posts (patch_rows postId failed_patch (posts (db st)))
             (next_post_id (db st)) (db st))
  \/ (fst (publishPostToTelegram postId env st) = Ok true
      /\ exists message_id,
           db (snd (publishPostToTelegram postId env st))
           = with_posts (delivered_rows postId (clock env) message_id (posts (db st)))
               (next_post_id (db st)) (db st)).
Proof.
  intros Hnf.
  cbv beta iota delta
    [publishPostToTelegram try_catch bind getPostById updatePost newDate ret throw prisma
     telegram ignore post_findUnique post_update].
  repeat rewrite Hnf. simpl.
  destruct (find_post (db st) postId) as [p|] eqn:Hp; simpl.
  2: { left. repeat split. left. exact Hp. }
  destruct (find_channel (db st) (Post.channel_id p)) as [c|] eqn:Hc; simpl.
  2: { left. repeat split. right. exists p. auto. }
  right.
  assert (Hfind : forall u n,
             find_post
               (with_posts
                  (map (fun q => if Post.id q =? postId then PostPatch.apply u q else q)
                     (posts (db st))) n (db st)) postId
             = Some (PostPatch.apply u p)).
  { intros u n. unfold find_post. simpl.
    change (map (fun q => if Post.id q =? postId then PostPatch.apply u q else q)
              (posts (db st))) with (patch_rows postId u (posts (db st))).
    rewrite find_patched.
    unfold find_post in Hp. rewrite Hp. reflexivity. }
  destruct (sort_by media_le (media_of (db st) postId)) as [|m1 [|m2 ms]]; simpl.
  - destruct (tgResult env (tgCalls st)) as [mid|e]; simpl;
      repeat (first [rewrite Hnf | rewrite Hp | rewrite Hfind | progress simpl]).
    + right. split; [reflexivity|]. exists mid. reflexivity.
    + left. split; reflexivity.
  - destruct (tgResult env (tgCalls st)) as [mid|e]; simpl;
      repeat (first [rewrite Hnf | rewrite Hp | rewrite Hfind | progress simpl]).
    + right. split; [reflexivity|]. exists mid. reflexivity.
    + left. split; reflexivity.
  - destruct (tgResult env (tgCalls st)) as [mid|e]; simpl.
    + destruct (reply_markup_of (sort_by button_le (buttons_of (db st) postId)));
        simpl.
      * destruct (tgResult env (S (tgCalls st))) as [mid2|e]; simpl;
          repeat (first [rewrite Hnf | rewrite Hp | rewrite Hfind | progress simpl]).
        -- right. split; [reflexivity|]. exists mid. reflexivity.
        -- left. split; reflexivity.
      * repeat (first [rewrite Hnf | rewrite Hp | rewrite Hfind | progress simpl]).
        right. split; [reflexivity|]. exists mid. reflexivity.
    + repeat (first [rewrite Hnf | rewrite Hp | rewrite Hfind | progress simpl]).
      left. split; reflexivity.
Qed.

(** ** The tick of the scheduler *)

Lemma find_schedule_some (d : DB) (i : Z) :
  (exists r, In r (schedules d) /\ Schedule.id r = i) ->
  exists r, find_schedule d i = Some r.
Proof.
  intros [r [Hin Hid]]. unfold find_schedule.
  destruct (find _ (schedules d)) as [r'|] eqn:Hfind; [eauto|].
  apply (find_none _ _ Hfind) in Hin. rewrite Hid, Z.eqb_refl in Hin. discriminate.
Qed.

Lemma process_due_schedule_step (env : Env) (st : State) (s : Schedule.t) :
  no_rejection env ->
  (exists r, In r (schedules (db st)) /\ Schedule.id r = Schedule.id s) ->
  delivery_step s (clock env) (db st) (db (snd (process_due_schedule s env st))).
Proof.
  intros Hnf Hrow.
  unfold process_due_schedule, try_catch. unfold bind at 1. unfold getBotInstance.
  destruct (botInstance env).
  - unfold bind at 1. unfold ret at 1. unfold bind at 1.
    destruct (publish_cases env st (Schedule.post_id s) Hnf)
      as [(Hr & Hd & _)|[(Hr & Hd)|(Hr & mid & Hd)]];
      destruct (publishPostToTelegram (Schedule.post_id s) env st) as [r st1];
      simpl in Hr, Hd; subst r;
      assert (Hrow1 : exists r, find_schedule (db st1) (Schedule.id s) = Some r)
        by (apply find_schedule_some; rewrite Hd; exact Hrow);
      destruct Hrow1 as [r Hfind];
      unfold bind, newDate, prisma, schedule_update, ret; rewrite Hnf, Hfind;
      cbn [fst snd db set_db with_schedules posts schedules next_post_id];
      rewrite Hd; cbn [with_posts posts schedules next_post_id].
    + split; [reflexivity|]. left. eexists. split; [|split; [reflexivity|]].
      * reflexivity.
      * left. reflexivity.
    + split; [reflexivity|]. left. eexists. split; [|split; [reflexivity|]].
      * reflexivity.
      * right. reflexivity.
    + split; [reflexivity|]. right. eexists. exists mid.
      split; [|split; reflexivity]. reflexivity.
  - unfold throw at 1. unfold bind at 1.
    destruct (find_schedule_some (db st) (Schedule.id s) Hrow) as [r Hfind].
    unfold bind, prisma, schedule_update, post_update, ret. rewrite Hnf, Hfind.
    cbn [fst snd db set_db count_db_call dbCalls]. rewrite Hnf.
    unfold find_post.
    cbn [fst snd db set_db with_schedules posts schedules next_post_id].
    destruct (find _ (posts (db st)));
      cbn [fst snd db set_db with_schedules with_posts posts schedules next_post_id].
    + split; [reflexivity|]. left. eexists. split; [|split; [reflexivity|]].
      * reflexivity.
      * right. reflexivity.
    + split; [reflexivity|]. left. eexists. split; [|split; [reflexivity|]].
      * reflexivity.
      * left. reflexivity.
Qed.

Lemma patched_row_exists (i : Z) (u : SchedulePatch.t) (l : list Schedule.t)
    (s : Schedule.t) :
  (exists r, In r l /\ Schedule.id r = Schedule.id s
             /\ Schedule.post_id r = Schedule.post_id s) ->
  exists r, In r (patch_schedules i u l) /\ Schedule.id r = Schedule.id s
            /\ Schedule.post_id r = Schedule.post_id s.
Proof.
  intros [r [Hin [Hid Hpost]]].
  exists (if Schedule.id r =? i then SchedulePatch.apply u r else r). split.
  - unfold patch_schedules.
    apply (in_map (fun q => if Schedule.id q =? i then SchedulePatch.apply u q else q)).
    exact Hin.
  - destruct (Schedule.id r =? i); simpl; auto.
Qed.

Lemma tick_step (s : Schedule.t) (rest : list Schedule.t) (now : Z) (d d' : DB) :
  tick_invariant (s :: rest) d -> delivery_step s now d d' -> tick_invariant rest d'.
Proof.
  intros (Hinv & Hnd & Hrest) [Hnext Hstep].
  simpl in Hnd. inversion Hnd as [|? ? Hnotin Hnd']; subst.
  destruct (Hrest s (or_introl eq_refl)) as [Hs [r [Hr [Hrid Hrpost]]]].
  destruct Hstep as [(u & Hu & Hsch & Hposts)|(u & mid & Hu & Hsch & Hposts)].
  - assert (Hmid : store_invariant (with_posts (posts d') (next_post_id d) d)).
    { destruct Hposts as [Hposts|Hposts].
      - apply (invariant_frame d); auto.
      - apply (invariant_status_patch d _ (Schedule.post_id s) failed_patch PostStatus.FAILED);
          auto. discriminate. }
    split; [|split; [exact Hnd'|]].
    + apply (invariant_schedule_patch (with_posts (posts d') (next_post_id d) d) d'
               (Schedule.id s) u ScheduleStatus.FAILED); auto. discriminate.
    + intros s' Hs'. destruct (Hrest s' (or_intror Hs')) as [Hu' Hrow]. split.
      * destruct Hposts as [->| ->]; [exact Hu'|]. apply patched_unsent; auto.
      * rewrite Hsch. apply patched_row_exists. exact Hrow.
  - split; [|split; [exact Hnd'|]].
    + apply (invariant_delivered d d' r u now mid); auto.
      * rewrite Hrpost. exact Hposts.
      * rewrite Hrid. exact Hsch.
    + intros s' Hs'. destruct (Hrest s' (or_intror Hs')) as [Hu' Hrow]. split.
      * intros q Hq Hqid. rewrite Hposts in Hq. apply delivered_rows_in in Hq.
        destruct Hq as [[q0 [_ [_ [Hk _]]]]|[Hq _]].
        -- exfalso. apply Hnotin. rewrite <- Hk, Hqid.
           apply (in_map Schedule.post_id). exact Hs'.
        -- apply (Hu' q Hq Hqid).
      * rewrite Hsch. apply patched_row_exists. exact Hrow.
Qed.

Lemma tick_loop (env : Env) (rest : list Schedule.t) :
  no_rejection env ->
  forall st, tick_invariant rest (db st) ->
    store_invariant (db (snd (for_of rest process_due_schedule env st))).
Proof.
  intros Hnf. induction rest as [|s rest IH]; intros st Hinv.
  - simpl. destruct Hinv as [H _]. exact H.
  - assert (Hstep : tick_invariant rest (db (snd (process_due_schedule s env st)))).
    { apply (tick_step s rest (clock env) (db st)); [exact Hinv|].
      apply process_due_schedule_step; [exact Hnf|].
      destruct Hinv as (_ & _ & Hrest).
      destruct (Hrest s (or_introl eq_refl)) as [_ [r [Hr [Hid _]]]]. eauto. }
    simpl. unfold bind.
    destruct (process_due_schedule s env st) as [[u|e] st1]; simpl in Hstep |- *.
    + apply IH. exact Hstep.
    + destruct Hstep as [H _]. exact H.
Qed.

Lemma sort_by_permutation {A : Type} (le : A -> A -> bool) (l : list A) :
  Permutation (sort_by le l) l.
Proof.
  assert (Hins : forall x l', Permutation (insert_by le x l') (x :: l')).
  { intros x l'. induction l' as [|y l' IH]; simpl; [reflexivity|].
    destruct (le x y); [reflexivity|].
    rewrite IH. apply perm_swap. }
  induction l as [|x l IH]; simpl; [reflexivity|].
  rewrite Hins. apply perm_skip. exact IH.
Qed.

Lemma NoDup_map_filter {A : Type} (f : A -> Z) (g : A -> bool) (l : list A) :
  NoDup (map f l) -> NoDup (map f (filter g l)).
Proof.
  induction l as [|x l IH]; simpl; intros H; [constructor|].
  inversion H as [|? ? Hnotin Hnd]; subst.
  destruct (g x); simpl; [|auto].
  constructor; [|auto].
  intros Hin. apply Hnotin. apply in_map_iff in Hin. destruct Hin as [y [Hy Hin]].
  apply filter_In in Hin. rewrite <- Hy. apply in_map. apply Hin.
Qed.

Lemma due_is_pending (now : Z) (s : Schedule.t) :
  is_due now s = true -> Schedule.status s = ScheduleStatus.PENDING.
Proof.
  unfold is_due. intros H. apply andb_true_iff in H. destruct H as [H _].
  destruct (Schedule.status s); simpl in H; congruence.
Qed.

Lemma due_schedules_invariant (now : Z) (d : DB) :
  store_invariant d ->
  tick_invariant (sort_by schedule_le (filter (is_due now) (schedules d))) d.
Proof.
  intros Hinv. split; [exact Hinv|]. split.
  - apply (Permutation_NoDup
             (Permutation_map Schedule.post_id
                (Permutation_sym (sort_by_permutation schedule_le _)))).
    apply NoDup_map_filter. destruct Hinv as (_ & _ & Hc & _). exact Hc.
  - intros s Hs.
    apply (Permutation_in _ (sort_by_permutation schedule_le _)) in Hs.
    apply filter_In in Hs. destruct Hs as [Hin Hdue]. split.
    + destruct Hinv as (_ & Hb & _). apply (Hb s Hin). apply (due_is_pending now). exact Hdue.
    + exists s. auto.
Qed.

Lemma tick_invariant_kept (env : Env) (st : State) :
  no_rejection env -> store_invariant (db st) ->
  store_invariant (db (snd (checkAndPublishScheduledPosts env st))).
Proof.
  intros Hnf Hinv.
  pose proof (tick_loop env (sort_by schedule_le (filter (is_due (clock env))
                                                    (schedules (db st)))) Hnf
                (set_db (db st) (count_db_call st))
                (due_schedules_invariant (clock env) (db st) Hinv)) as Hloop.
  unfold checkAndPublishScheduledPosts, try_catch. unfold bind at 1. unfold newDate at 1.
  unfold bind at 1. unfold prisma at 1. rewrite Hnf. unfold schedule_findMany_due.
  destruct (sort_by schedule_le (filter (is_due (clock env)) (schedules (db st))))
    as [|s due].
  - simpl. exact Hinv.
  - destruct (for_of (s :: due) process_due_schedule env
                (set_db (db st) (count_db_call st))) as [[u|e] st1];
      simpl in Hloop |- *; exact Hloop.
Qed.

(** ** Publish-now *)

Lemma patch_rows_app (k : Z) (u : PostPatch.t) (l1 l2 : list Post.t) :
  patch_rows k u (l1 ++ l2) = patch_rows k u l1 ++ patch_rows k u l2.
Proof. apply map_app. Qed.

Lemma handlePublishNow_invariant (env : Env) (st : State) :
  no_rejection env -> store_invariant (db st) ->
  store_invariant (db (snd (handlePublishNow env st))).
Proof.
  intros Hnf Hinv.
  destruct (committable (Session.postDraft (session st))) as [[[draft channelId] text]|]
    eqn:Hdraft.
  - rewrite (handlePublishNow_run env st draft channelId text Hdraft).
    destruct (find_channel (db st) channelId) as [c|] eqn:Hc.
    + destruct (create_post_from_draft_ok env st PostStatus.PUBLISHED channelId text draft c
                  Hnf Hc) as [st1 [Hrun [Hfr _]]].
      destruct Hfr as (Hposts & Hchannels & Hsch & _ & Hnext & _).
      simpl in Hposts, Hchannels, Hsch, Hnext.
      assert (Hold : forall p, In p (posts (db st)) -> Post.id p <> next_post_id (db st)).
      { intros p Hp. destruct Hinv as (_ & _ & _ & Hd & _). specialize (Hd p Hp). lia. }
      set (post := Post.mk (next_post_id (db st)) channelId text PostStatus.PUBLISHED
                     None None) in *.
      assert (Hfind : find_post (db st1) (Post.id post) = Some post).
      { unfold find_post. rewrite Hposts. apply find_fresh; [exact Hold | reflexivity]. }
      assert (Hc1 : find_channel (db st1) (Post.channel_id post) = Some c).
      { unfold find_channel. rewrite Hchannels. exact Hc. }
      assert (Hpub : exists published st2 p',
                 publishPostToTelegram (Post.id post) env st1 = (Ok published, st2)
                 /\ posts (db st2) = posts (db st) ++ [p']
                 /\ schedules (db st2) = schedules (db st)
                 /\ next_post_id (db st2) = next_post_id (db st) + 1
                 /\ Post.id p' = next_post_id (db st)
                 /\ consistent p').
      { destruct (publish_cases env st1 (Post.id post) Hnf)
          as [(_ & _ & Hfail)|[(Hr & Hd)|(Hr & mid & Hd)]].
        - exfalso. destruct Hfail as [Hnone|[p [Hp Hnone]]]; [congruence|].
          rewrite Hfind in Hp. injection Hp as <-. congruence.
        - destruct (publishPostToTelegram (Post.id post) env st1) as [r st2].
          simpl in Hr, Hd. subst r.
          exists false, st2, (PostPatch.apply failed_patch post).
          rewrite Hd. cbn [with_posts posts schedules next_post_id].
          rewrite Hposts, patch_rows_app, (patch_rows_fresh _ _ _ Hold).
          unfold patch_rows. simpl. rewrite Z.eqb_refl.
          repeat split; auto; simpl; intros; congruence.
        - destruct (publishPostToTelegram (Post.id post) env st1) as [r st2].
          simpl in Hr, Hd. subst r.
          exists true, st2,
            (Post.mk (next_post_id (db st)) channelId text PostStatus.PUBLISHED
               (Some (clock env)) (Some mid)).
          rewrite Hd. cbn [with_posts posts schedules next_post_id].
          rewrite Hposts. unfold delivered_rows.
          rewrite !patch_rows_app, !(patch_rows_fresh _ _ _ Hold).
          unfold patch_rows. simpl. rewrite Z.eqb_refl. simpl. rewrite Z.eqb_refl.
          repeat split; auto; simpl; intros; congruence. }
      destruct Hpub as (published & st2 & p' & Hpub & Hposts2 & Hsch2 & Hnext2 & Hid & Hcons).
      destruct (notify_then_clear_log env st2 channelId
                  (fun channel =>
                     if published
                     then published_message (channel_name channel) (Post.id post)
                     else saved_not_published_message (channel_name channel) (Post.id post))
                  Hnf)
        as [st3 [Hnotify [_ [Hdb3 _]]]].
      assert (Hfinal : handlePublishNow env st = (Ok tt, st3)).
      { rewrite (handlePublishNow_run env st draft channelId text Hdraft).
        unfold try_catch. unfold bind at 1. rewrite Hrun. cbv beta iota.
        unfold bind at 1. rewrite Hpub. cbv beta iota.
        rewrite Hnotify. reflexivity. }
      rewrite (handlePublishNow_run env st draft channelId text Hdraft) in Hfinal.
      rewrite Hfinal. cbn [snd]. rewrite Hdb3.
      apply (invariant_new_post (db st) (db st2) p'); auto.
    + unfold try_catch. unfold bind at 1.
      unfold create_post_from_draft. unfold bind at 1.
      unfold createPost, try_catch, prisma, post_create, throw.
      rewrite Hnf, Hc. cbv beta iota.
      apply (view_reply_quietly env store_invariant publish_failed_message). exact Hinv.
  - unfold handlePublishNow, getPostDraft, getSession.
    unfold bind at 1. unfold bind at 1. unfold ret at 1. cbv beta iota.
    rewrite Hdraft.
    apply (view_reply_quietly env store_invariant). exact Hinv.
Qed.

(** ** Every operation keeps the invariant *)

Lemma empty_store_invariant (d : DB) :
  posts d = [] -> schedules d = [] -> store_invariant d.
Proof.
  intros Hp Hs. unfold store_invariant. rewrite Hp, Hs. simpl.
  split; [|split; [|split; [|split]]]; try (intros ? []). constructor.
Qed.

Lemma run_invariant (op : Action) (env : Env) (st : State) :
  no_rejection env -> store_invariant (db st) -> store_invariant (db (run op env st)).
Proof.
  intros Hnf Hinv. destruct op as [| |formatDate| |postId]; simpl.
  - apply handlePublishNow_invariant; assumption.
  - apply (handleSaveDraft_invariant env st Hinv).
  - apply (handleScheduledPost_invariant formatDate env st Hinv).
  - apply tick_invariant_kept; assumption.
  - apply (duplicatePost_invariant env postId st Hinv).
Qed.

Lemma reachable_invariant (d : DB) : reachable d -> store_invariant d.
Proof.
  intros H. induction H as [d Hp Hs|op env st _ IH Hnf].
  - apply empty_store_invariant; assumption.
  - apply run_invariant; assumption.
Qed.

(** C3, as amended.  In every store reached from one without posts and
    schedules by complete runs of publish-now, save-as-draft, scheduling,
    the scheduler's tick and duplication, during which no query is
    rejected, a post carries a remote message id if and only if its status
    is PUBLISHED.  The session in which each operation runs and the answers
    of the platform are arbitrary. *)
Theorem message_id_iff_published (d : DB) (p : Post.t) :
  reachable d -> In p (posts d) ->
  (Post.telegram_message_id p <> None <-> Post.status p = PostStatus.PUBLISHED).
Proof.
  intros Hreach Hin. destruct (reachable_invariant d Hreach) as [Ha _].
  apply (Ha p Hin).
Qed.

Lemma message_id_iff_published_witness :
  Post.telegram_message_id (Post.mk 1 1 "<b>Hello</b>" PostStatus.PUBLISHED (Some 2000) (Some 77))
    <> None
  <-> Post.status (Post.mk 1 1 "<b>Hello</b>" PostStatus.PUBLISHED (Some 2000) (Some 77))
      = PostStatus.PUBLISHED.
Proof.
  apply (message_id_iff_published
           (db (run (duplicate 1) (Examples.env_of Examples.no_fault Examples.rejecting)
                  (run publish_now (Examples.env_of Examples.no_fault (Examples.delivering 77))
                     Examples.composing)))).
  - apply reachable_step; [|intros n; reflexivity].
    apply reachable_step; [|intros n; reflexivity].
    apply reachable_empty; reflexivity.
  - left. reflexivity.
Defined.

(** C3, as the specification states it, fails: publish-now creates the
    post as PUBLISHED before it is delivered, and when the store rejects
    the next query the handler ends there: the post stays PUBLISHED without
    a remote message id. *)
Lemma rejected_query_leaves_published_post_unsent :
  posts (db (snd (handlePublishNow
                    (Examples.env_of Examples.second_query_rejected (Examples.delivering 77))
                    Examples.composing)))
  = [Post.mk 1 1 "<b>Hello</b>" PostStatus.PUBLISHED None None]
  /\ ~ consistent (Post.mk 1 1 "<b>Hello</b>" PostStatus.PUBLISHED None None).
Proof.
  split; [reflexivity|].
  unfold consistent. simpl. intros [_ H]. apply (H eq_refl). reflexivity.
Qed.

(** * Properties of the further parts *)

(** ** Callback data: numbers as text *)

Lemma uint_digits (d : Decimal.uint) : all_digits (NilEmpty.string_of_uint d) = true.
Proof. induction d; simpl; auto. Qed.

Lemma digits_value_pos (d : Decimal.uint) (acc : positive) :
  digits_value (Zpos acc) (NilEmpty.string_of_uint d) = Zpos (Pos.of_uint_acc d acc).
Proof.
  revert acc. induction d; intros acc; [reflexivity|..];
    cbn [NilEmpty.string_of_uint digits_value Pos.of_uint_acc]; rewrite <- IHd; f_equal;
    match goal with
    | |- context [Z.of_nat (nat_of_ascii ?c)] =>
        let v := eval vm_compute in (Z.of_nat (nat_of_ascii c)) in
        change (Z.of_nat (nat_of_ascii c)) with v
    end; lia.
Qed.

Lemma digits_value_zero (d : Decimal.uint) :
  digits_value 0 (NilEmpty.string_of_uint d) = Z.of_N (Pos.of_uint d).
Proof.
  induction d; simpl; try reflexivity; try exact IHd;
    match goal with
    | |- digits_value (Zpos ?k) _ = _ => apply (digits_value_pos d k)
    end.
Qed.

Lemma to_double_safe (n : Z) : n <= MAX_SAFE_INTEGER -> to_double n = finite n.
Proof.
  unfold MAX_SAFE_INTEGER, to_double. intros H.
  destruct (n <? 2 ^ 53) eqn:E; [reflexivity|]. apply Z.ltb_ge in E. lia.
Qed.

Lemma number_digits (n : Z) :
  0 <= n <= MAX_SAFE_INTEGER ->
  exists c digits,
    number_toString n = String c digits
    /\ all_digits (String c digits) = true
    /\ parseInt (String c digits) = finite n.
Proof.
  intros [Hn Hsafe]. unfold parseInt. rewrite <- (to_double_safe n Hsafe). clear Hsafe.
  assert (H : exists c digits,
            number_toString n = String c digits
            /\ all_digits (String c digits) = true
            /\ digits_value 0 (String c digits) = n);
    [|destruct H as [c [digits [Hs [Hd Hv]]]]; exists c, digits; rewrite Hv; auto].
  unfold number_toString. destruct n as [|p|p]; [| |lia].
  - exists "0"%char, EmptyString. repeat split.
  - simpl. unfold NilZero.string_of_uint.
    pose proof (uint_digits (Pos.to_uint p)) as Hd.
    pose proof (digits_value_zero (Pos.to_uint p)) as Hv.
    rewrite DecimalPos.Unsigned.of_to in Hv.
    destruct (Pos.to_uint p) eqn:E;
      eexists; eexists; (split; [reflexivity|]; split; [exact Hd | exact Hv]).
Qed.

(** ** Callback data: the patterns *)

Lemma take_all_digits (digits rest : string) :
  all_digits digits = true ->
  (match rest with
   | EmptyString => True
   | String c _ => is_digit c = false
   end) ->
  take_digits (digits +++ rest) = (digits, rest).
Proof.
  intros Hd Hrest. induction digits as [|c digits IH]; simpl.
  - destruct rest as [|c rest]; [reflexivity|]. simpl. rewrite Hrest. reflexivity.
  - simpl in Hd. apply andb_true_iff in Hd. destruct Hd as [Hc Hd].
    rewrite Hc, (IH Hd). reflexivity.
Qed.

Lemma take_digits_parts (s digits rest : string) :
  take_digits s = (digits, rest) -> s = digits +++ rest /\ all_digits digits = true.
Proof.
  revert digits rest. induction s as [|c s IH]; intros digits rest H; simpl in H.
  - injection H as <- <-. auto.
  - destruct (is_digit c) eqn:Hc.
    + destruct (take_digits s) as [d r]. injection H as <- <-.
      destruct (IH d r eq_refl) as [-> Hd]. simpl. rewrite Hc. auto.
    + injection H as <- <-. auto.
Qed.

Lemma underscores_app (a b : string) :
  underscores (a +++ b) = (underscores a + underscores b)%nat.
Proof.
  induction a as [|c a IH]; simpl; [reflexivity|].
  destruct (Ascii.eqb c "_"); simpl; rewrite IH; reflexivity.
Qed.

Lemma digits_no_underscore (s : string) : all_digits s = true -> underscores s = O.
Proof.
  induction s as [|c s IH]; simpl; intros H; [reflexivity|].
  apply andb_true_iff in H. destruct H as [Hc Hs].
  destruct (Ascii.eqb_spec c "_") as [->|_]; [discriminate|]. auto.
Qed.

Lemma digits_to_end_spec (s digits : string) :
  digits_to_end s = Some digits -> s = digits /\ all_digits digits = true.
Proof.
  unfold digits_to_end. intros H.
  destruct (take_digits s) as [d r] eqn:E.
  destruct d as [|c d]; [discriminate|]. destruct r; [|discriminate].
  injection H as <-. apply take_digits_parts in E. destruct E as [-> Hd].
  rewrite append_nil_r. auto.
Qed.

Lemma digits_to_end_digits (c : ascii) (digits : string) :
  all_digits (String c digits) = true ->
  digits_to_end (String c digits) = Some (String c digits).
Proof.
  intros H. unfold digits_to_end.
  assert (E : take_digits (String c digits +++ EmptyString) = (String c digits, EmptyString))
    by (apply take_all_digits; [exact H | exact I]).
  rewrite append_nil_r in E. rewrite E. reflexivity.
Qed.

Lemma strip_prefix_spec (p s rest : string) : strip_prefix p s = Some rest -> s = p +++ rest.
Proof.
  revert s. induction p as [|a p IH]; intros s H; simpl in H.
  - injection H as <-. reflexivity.
  - destruct s as [|b s]; [discriminate|].
    destruct (Ascii.eqb_spec a b) as [->|_]; [|discriminate].
    simpl. f_equal. apply IH. exact H.
Qed.

Lemma strip_prefix_app (p rest : string) : strip_prefix p (p +++ rest) = Some rest.
Proof.
  induction p as [|a p IH]; simpl; [reflexivity|]. rewrite Ascii.eqb_refl. exact IH.
Qed.

(** A pattern that only matches texts that begin with an underscore and
    hold [k] of them is not found before a suffix with [k] underscores. *)
Lemma search_skips {A : Type} (pattern : string -> option A) (k : nat)
    (before after : string) :
  (forall s m, pattern s = Some m ->
     underscores s = k /\ exists rest, s = String "_" rest) ->
  underscores after = k ->
  search pattern (before +++ after) = search pattern after.
Proof.
  intros Hk Hafter. induction before as [|c before IH]; [reflexivity|].
  cbn [append search].
  destruct (pattern (String c (before +++ after))) as [m|] eqn:E; [|exact IH].
  exfalso. apply Hk in E. destruct E as [E [rest Hrest]].
  injection Hrest as -> _. simpl in E. rewrite underscores_app in E. lia.
Qed.

Lemma channel_pattern_shape (s m : string) :
  channel_pattern s = Some m ->
  underscores s = 1%nat /\ exists rest, s = String "_" rest.
Proof.
  unfold channel_pattern. intros H.
  destruct (strip_prefix "_" s) as [rest|] eqn:E; [|discriminate].
  apply strip_prefix_spec in E. apply digits_to_end_spec in H. destruct H as [-> Hd].
  subst s. simpl. rewrite (digits_no_underscore _ Hd). eauto.
Qed.

Lemma page_pattern_shape (s m : string) :
  page_pattern s = Some m ->
  underscores s = 2%nat /\ exists rest, s = String "_" rest.
Proof.
  unfold page_pattern. intros H.
  destruct (strip_prefix "_pg_" s) as [rest|] eqn:E; [|discriminate].
  apply strip_prefix_spec in E. apply digits_to_end_spec in H. destruct H as [-> Hd].
  subst s. simpl. rewrite (digits_no_underscore _ Hd). eauto.
Qed.

Lemma search_found {A : Type} (pattern : string -> option A) (s : string) (m : A) :
  pattern s = Some m -> search pattern s = Some m.
Proof. intros H. destruct s; simpl; rewrite H; reflexivity. Qed.

(** X1.  [parseChannelId] reads back the id that [buildChannelCallback]
    wrote, for every id from 0 to [Number.MAX_SAFE_INTEGER] and whatever
    the prefix. *)
Theorem parseChannelId_reads_built_callback (channelId : Z) (prefix : string) :
  0 <= channelId <= MAX_SAFE_INTEGER ->
  parseChannelId (buildChannelCallback channelId prefix) = Some (finite channelId).
Proof.
  intros Hn. destruct (number_digits channelId Hn) as [c [digits [Hs [Hd Hv]]]].
  unfold parseChannelId, buildChannelCallback. rewrite Hs.
  rewrite (search_skips channel_pattern 1 prefix ("_" +++ String c digits)
             channel_pattern_shape).
  - rewrite (search_found channel_pattern _ (String c digits)).
    + simpl. rewrite Hv. reflexivity.
    + unfold channel_pattern. simpl strip_prefix. apply digits_to_end_digits. exact Hd.
  - rewrite underscores_app, (digits_no_underscore _ Hd). reflexivity.
Qed.

Lemma parseChannelId_reads_built_callback_witness :
  parseChannelId (buildChannelCallback 42 CallbackPrefix.NEW_POST_CHANNEL)
  = Some (finite 42).
Proof.
  apply (parseChannelId_reads_built_callback 42 CallbackPrefix.NEW_POST_CHANNEL).
  unfold MAX_SAFE_INTEGER. lia.
Defined.

(** X2.  [parsePage] reads back the page that [buildPaginationCallback]
    wrote, for every page from 0 to [Number.MAX_SAFE_INTEGER] and whatever
    the prefix. *)
Theorem parsePage_reads_built_callback (page : Z) (prefix : string) :
  0 <= page <= MAX_SAFE_INTEGER ->
  parsePage (buildPaginationCallback page prefix) = Some (finite page).
Proof.
  intros Hn. destruct (number_digits page Hn) as [c [digits [Hs [Hd Hv]]]].
  unfold parsePage, buildPaginationCallback, CallbackPrefix.PAGE. rewrite Hs.
  rewrite (search_skips page_pattern 2 prefix ("_" +++ "pg" +++ "_" +++ String c digits)
             page_pattern_shape).
  - rewrite (search_found page_pattern _ (String c digits)).
    + simpl. rewrite Hv. reflexivity.
    + unfold page_pattern. simpl strip_prefix. apply digits_to_end_digits. exact Hd.
  - rewrite !underscores_app, (digits_no_underscore _ Hd). reflexivity.
Qed.

Lemma parsePage_reads_built_callback_witness :
  parsePage (buildPaginationCallback 3 "dr") = Some (finite 3).
Proof. apply (parsePage_reads_built_callback 3 "dr"). unfold MAX_SAFE_INTEGER. lia. Defined.

Lemma post_pattern_skips (before after : string) :
  no_digit before = true ->
  (exists rest, after = String "_" rest) ->
  search post_pattern (before +++ after) = search post_pattern after.
Proof.
  intros Hno [rest ->]. induction before as [|c before IH]; [reflexivity|].
  simpl in Hno. apply andb_true_iff in Hno. destruct Hno as [Hc Hno].
  cbn [append search].
  replace (post_pattern (String c (before +++ String "_" rest))) with (@None string);
    [exact (IH Hno)|].
  unfold post_pattern. cbn [strip_prefix].
  destruct (Ascii.eqb "_" c); [|reflexivity].
  destruct before as [|a before]; simpl.
  - reflexivity.
  - simpl in Hno. apply andb_true_iff in Hno. destruct Hno as [Ha _].
    apply negb_true_iff in Ha. rewrite Ha. reflexivity.
Qed.

Lemma post_pattern_at_id (c : ascii) (digits rest : string) :
  all_digits (String c digits) = true ->
  (rest = EmptyString \/ exists rest', rest = String "_" rest') ->
  post_pattern ("_" +++ String c digits +++ rest) = Some (String c digits).
Proof.
  intros Hd Hrest. unfold post_pattern. cbn [append strip_prefix]. rewrite Ascii.eqb_refl.
  change (String c (digits +++ rest)) with (String c digits +++ rest).
  rewrite (take_all_digits (String c digits) rest Hd).
  - destruct Hrest as [->|[rest' ->]]; reflexivity.
  - destruct Hrest as [->|[rest' ->]]; [exact I | reflexivity].
Qed.

(** X3.  For every post id from 0 to [Number.MAX_SAFE_INTEGER],
    [parsePostId] reads back the id from the data written by
    [buildSchedulePostCallback] (whatever the action), by
    [buildPostStatusCallback], and by [buildPostCallback] when the action
    holds no digit. *)
Theorem parsePostId_reads_built_callbacks (postId : Z) :
  0 <= postId <= MAX_SAFE_INTEGER ->
  (forall action,
     parsePostId (buildSchedulePostCallback postId action) = Some (finite postId))
  /\ (forall action,
        parsePostId (buildPostStatusCallback action postId) = Some (finite postId))
  /\ (forall action, no_digit action = true ->
        parsePostId (buildPostCallback postId action) = Some (finite postId)).
Proof.
  intros Hn. destruct (number_digits postId Hn) as [c [digits [Hs [Hd Hv]]]].
  split; [|split].
  - intros action. unfold parsePostId, buildSchedulePostCallback. rewrite Hs.
    change ("sch_p_" +++ String c digits +++ "_" +++ action)
      with ("sch_p" +++ ("_" +++ String c digits +++ String "_" action)).
    rewrite post_pattern_skips; [|reflexivity | eexists; reflexivity].
    rewrite (search_found post_pattern _ (String c digits)).
    + simpl. rewrite Hv. reflexivity.
    + apply post_pattern_at_id; [exact Hd | right; eexists; reflexivity].
  - intros action. unfold parsePostId, buildPostStatusCallback. rewrite Hs.
    assert (Hend : post_pattern ("_" +++ String c digits +++ EmptyString)
                   = Some (String c digits))
      by (apply post_pattern_at_id; [exact Hd | left; reflexivity]).
    rewrite append_nil_r in Hend.
    destruct action.
    + change (CallbackPrefix.EDIT_POST +++ "_" +++ status_action_name action_edit +++ "_"
              +++ String c digits)
        with ("ep_edit" +++ ("_" +++ String c digits)).
      rewrite post_pattern_skips; [|reflexivity | eexists; reflexivity].
      rewrite (search_found post_pattern _ (String c digits) Hend).
      simpl. rewrite Hv. reflexivity.
    + change (CallbackPrefix.EDIT_POST +++ "_" +++ status_action_name action_delete +++ "_"
              +++ String c digits)
        with ("ep_delete" +++ ("_" +++ String c digits)).
      rewrite post_pattern_skips; [|reflexivity | eexists; reflexivity].
      rewrite (search_found post_pattern _ (String c digits) Hend).
      simpl. rewrite Hv. reflexivity.
  - intros action Hno. unfold parsePostId, buildPostCallback. rewrite Hs.
    assert (Hend : post_pattern ("_" +++ String c digits +++ EmptyString)
                   = Some (String c digits))
      by (apply post_pattern_at_id; [exact Hd | left; reflexivity]).
    rewrite append_nil_r in Hend.
    rewrite post_pattern_skips; [|exact Hno | eexists; reflexivity].
    rewrite (search_found post_pattern _ (String c digits) Hend).
    simpl. rewrite Hv. reflexivity.
Qed.

(** X4.  For every number from 0 to [Number.MAX_SAFE_INTEGER], the hour
    and the minute callbacks are read back by their own parser and refused
    by the other one. *)
Theorem time_callbacks_round_trip (n : Z) :
  0 <= n <= MAX_SAFE_INTEGER ->
  parseHour (buildTimeCallback n) = Some (finite n)
  /\ parseMinute (buildMinuteCallback n) = Some (finite n)
  /\ parseHour (buildMinuteCallback n) = None
  /\ parseMinute (buildTimeCallback n) = None.
Proof.
  intros Hn. destruct (number_digits n Hn) as [c [digits [Hs [Hd Hv]]]].
  unfold parseHour, parseMinute, buildTimeCallback, buildMinuteCallback, anchored_pattern.
  rewrite Hs. cbn [CallbackPrefix.TIME CallbackPrefix.TIME_MINUTE append strip_prefix Ascii.eqb
                   Bool.eqb].
  rewrite (digits_to_end_digits c digits Hd). simpl. rewrite Hv. auto.
Qed.

Lemma split_on_nonempty (sep : ascii) (a : string) : split_on sep a <> [].
Proof.
  destruct a as [|c a]; simpl; [discriminate|].
  destruct (Ascii.eqb c sep); [discriminate|].
  destruct (split_on sep a); discriminate.
Qed.

Lemma split_on_app (sep : ascii) (a b : string) :
  split_on sep (a +++ String sep b) = split_on sep a ++ split_on sep b.
Proof.
  induction a as [|c a IH]; simpl.
  - rewrite Ascii.eqb_refl. reflexivity.
  - destruct (Ascii.eqb c sep); simpl; [rewrite IH; reflexivity|].
    rewrite IH. destruct (split_on sep a) as [|piece pieces] eqn:E; [|reflexivity].
    exfalso. apply (split_on_nonempty _ _ E).
Qed.

Lemma split_on_join (sep : ascii) (a : string) :
  String.concat (String sep EmptyString) (split_on sep a) = a.
Proof.
  induction a as [|c a IH]; simpl; [reflexivity|].
  destruct (split_on sep a) as [|piece pieces] eqn:E;
    [exfalso; apply (split_on_nonempty _ _ E)|].
  rewrite <- IH.
  destruct (Ascii.eqb_spec c sep) as [->|_]; [reflexivity|].
  destruct pieces; reflexivity.
Qed.

Lemma split_on_whole (s : string) : underscores s = O -> split_on "_" s = [s].
Proof.
  induction s as [|c s IH]; simpl; intros H; [reflexivity|].
  destruct (Ascii.eqb c "_"); [discriminate|]. rewrite (IH H). reflexivity.
Qed.

Lemma uint_no_underscore (d : Decimal.uint) : underscores (NilEmpty.string_of_uint d) = O.
Proof. apply digits_no_underscore, uint_digits. Qed.

Lemma number_no_underscore (n : Z) : underscores (number_toString n) = O.
Proof.
  unfold number_toString. destruct n as [|p|p]; [reflexivity| |].
  - simpl. unfold NilZero.string_of_uint.
    pose proof (uint_no_underscore (Pos.to_uint p)) as H.
    destruct (Pos.to_uint p); exact H.
  - simpl. unfold NilZero.string_of_uint.
    pose proof (uint_no_underscore (Pos.to_uint p)) as H.
    destruct (Pos.to_uint p); exact H.
Qed.

(** X5.  [extractAction] gives back the action of a callback written by
    [buildPostCallback], for every action and every id. *)
Theorem extractAction_of_post_callback (postId : Z) (action : string) :
  extractAction (buildPostCallback postId action) = action.
Proof.
  unfold extractAction, buildPostCallback.
  change (action +++ "_" +++ number_toString postId)
    with (action +++ String "_" (number_toString postId)).
  rewrite split_on_app, (split_on_whole _ (number_no_underscore postId)).
  rewrite length_app, removelast_last. simpl length.
  replace (1 <? length (split_on "_" action) + 1)%nat with true.
  - apply split_on_join.
  - symmetry. apply Nat.ltb_lt.
    destruct (split_on "_" action) as [|piece pieces] eqn:E; simpl; [|lia].
    exfalso. apply (split_on_nonempty _ _ E).
Qed.

(** ** Pagination *)






Lemma parsePostId_reads_built_callbacks_witness :
  (forall action, parsePostId (buildSchedulePostCallback 15 action) = Some (finite 15))
  /\ (forall action, parsePostId (buildPostStatusCallback action 15) = Some (finite 15))
  /\ (forall action, no_digit action = true ->
        parsePostId (buildPostCallback 15 action) = Some (finite 15)).
Proof. apply (parsePostId_reads_built_callbacks 15). unfold MAX_SAFE_INTEGER. lia. Defined.

Lemma time_callbacks_round_trip_witness :
  parseHour (buildTimeCallback 23) = Some (finite 23)
  /\ parseMinute (buildMinuteCallback 23) = Some (finite 23)
  /\ parseHour (buildMinuteCallback 23) = None
  /\ parseMinute (buildTimeCallback 23) = None.
Proof. apply (time_callbacks_round_trip 23). unfold MAX_SAFE_INTEGER. lia. Defined.

(** ** The tick of the scheduler *)

(** X8.  With no record due, the tick does nothing: it sends no request
    and leaves the store and the session as they are, whatever the store
    and the platform answer. *)
Theorem tick_without_due_records (env : Env) (st : State) :
  filter (is_due (clock env)) (schedules (db st)) = [] ->
  fst (checkAndPublishScheduledPosts env st) = Ok tt
  /\ db (snd (checkAndPublishScheduledPosts env st)) = db st
  /\ session (snd (checkAndPublishScheduledPosts env st)) = session st
  /\ apiLog (snd (checkAndPublishScheduledPosts env st)) = apiLog st.
Proof.
  intros Hnone.
  unfold checkAndPublishScheduledPosts, try_catch, bind, newDate, prisma, ret,
    schedule_findMany_due.
  destruct (dbFault env (dbCalls st)); simpl; [auto|].
  rewrite Hnone. simpl. auto.
Qed.

Lemma tick_without_due_records_witness :
  fst (checkAndPublishScheduledPosts (Examples.env_of Examples.no_fault Examples.rejecting)
         (Examples.state_of Examples.catalogue)) = Ok tt
  /\ db (snd (checkAndPublishScheduledPosts
                (Examples.env_of Examples.no_fault Examples.rejecting)
                (Examples.state_of Examples.catalogue)))
     = db (Examples.state_of Examples.catalogue)
  /\ session (snd (checkAndPublishScheduledPosts
                     (Examples.env_of Examples.no_fault Examples.rejecting)
                     (Examples.state_of Examples.catalogue)))
     = session (Examples.state_of Examples.catalogue)
  /\ apiLog (snd (checkAndPublishScheduledPosts
                    (Examples.env_of Examples.no_fault Examples.rejecting)
                    (Examples.state_of Examples.catalogue)))
     = apiLog (Examples.state_of Examples.catalogue).
Proof.
  apply (tick_without_due_records (Examples.env_of Examples.no_fault Examples.rejecting)
           (Examples.state_of Examples.catalogue)).
  reflexivity.
Defined.

Lemma find_post_some (d : DB) (k : Z) :
  (exists p, In p (posts d) /\ Post.id p = k) -> exists p, find_post d k = Some p.
Proof.
  intros [p [Hin Hid]]. unfold find_post.
  destruct (find _ (posts d)) as [q|] eqn:Hfind; [eauto|].
  apply (find_none _ _ Hfind) in Hin. rewrite Hid, Z.eqb_refl in Hin. discriminate.
Qed.

Lemma process_due_schedule_returns (env : Env) (st : State) (s : Schedule.t) :
  no_rejection env ->
  (exists r, In r (schedules (db st)) /\ Schedule.id r = Schedule.id s) ->
  (exists p, In p (posts (db st)) /\ Post.id p = Schedule.post_id s) ->
  fst (process_due_schedule s env st) = Ok tt.
Proof.
  intros Hnf Hrow Hpost.
  unfold process_due_schedule, try_catch. unfold bind at 1. unfold getBotInstance.
  destruct (botInstance env).
  - unfold bind at 1. unfold ret at 1. unfold bind at 1.
    destruct (publish_cases env st (Schedule.post_id s) Hnf)
      as [(Hr & Hd & _)|[(Hr & Hd)|(Hr & mid & Hd)]];
      destruct (publishPostToTelegram (Schedule.post_id s) env st) as [r st1];
      simpl in Hr, Hd; subst r;
      assert (Hrow1 : exists r, find_schedule (db st1) (Schedule.id s) = Some r)
        by (apply find_schedule_some; rewrite Hd; exact Hrow);
      destruct Hrow1 as [r Hfind];
      unfold bind, newDate, prisma, schedule_update, ret; rewrite Hnf, Hfind;
      reflexivity.
  - unfold throw at 1. unfold bind at 1.
    destruct (find_schedule_some (db st) (Schedule.id s) Hrow) as [r Hfind].
    destruct (find_post_some (db st) (Schedule.post_id s) Hpost) as [p Hp].
    unfold bind, prisma, schedule_update, post_update, ret. rewrite Hnf, Hfind.
    cbn [fst snd db set_db count_db_call dbCalls]. rewrite Hnf.
    unfold find_post in *.
    cbn [fst snd db set_db with_schedules posts schedules next_post_id].
    rewrite Hp. reflexivity.
Qed.

Lemma patch_rows_ids (k : Z) (u : PostPatch.t) (l : list Post.t) :
  map Post.id (patch_rows k u l) = map Post.id l.
Proof.
  unfold patch_rows. rewrite map_map. apply map_ext.
  intros q. destruct (Post.id q =? k); reflexivity.
Qed.

Lemma delivery_step_ids (s : Schedule.t) (now : Z) (d d' : DB) :
  delivery_step s now d d' -> map Post.id (posts d') = map Post.id (posts d).
Proof.
  intros [_ [(u & _ & _ & [H|H])|(u & mid & _ & _ & H)]]; rewrite H.
  - reflexivity.
  - apply patch_rows_ids.
  - unfold delivered_rows. rewrite !patch_rows_ids. reflexivity.
Qed.

Lemma delivery_step_closes (s : Schedule.t) (now : Z) (d d' : DB) :
  delivery_step s now d d' ->
  exists u status,
    schedules d' = patch_schedules (Schedule.id s) u (schedules d)
    /\ SchedulePatch.status u = Some status
    /\ status <> ScheduleStatus.PENDING.
Proof.
  intros [_ [(u & Hu & H & _)|(u & mid & Hu & H & _)]].
  - exists u, ScheduleStatus.FAILED. repeat split; auto. discriminate.
  - exists u, ScheduleStatus.PUBLISHED. repeat split; auto. discriminate.
Qed.

Lemma post_exists_by_ids (l l' : list Post.t) (k : Z) :
  map Post.id l' = map Post.id l ->
  (exists p, In p l /\ Post.id p = k) -> exists p, In p l' /\ Post.id p = k.
Proof.
  intros Hids [p [Hin Hid]].
  assert (Hk : In k (map Post.id l')).
  { rewrite Hids, <- Hid. apply in_map. exact Hin. }
  apply in_map_iff in Hk. destruct Hk as [q [Hq Hin']]. eauto.
Qed.

Lemma tick_loop_closes (env : Env) (now : Z) (rest : list Schedule.t) :
  no_rejection env ->
  forall st,
    (forall s, In s rest ->
       (exists r, In r (schedules (db st)) /\ Schedule.id r = Schedule.id s
                  /\ Schedule.post_id r = Schedule.post_id s)
       /\ exists p, In p (posts (db st)) /\ Post.id p = Schedule.post_id s) ->
    (forall r, In r (schedules (db st)) -> is_due now r = true ->
       exists s, In s rest /\ Schedule.id s = Schedule.id r) ->
    fst (for_of rest process_due_schedule env st) = Ok tt
    /\ forall r, In r (schedules (db (snd (for_of rest process_due_schedule env st)))) ->
         is_due now r = false.
Proof.
  intros Hnf. induction rest as [|s rest IH]; intros st Hrows Hdue.
  - simpl. split; [reflexivity|]. intros r Hr.
    destruct (is_due now r) eqn:E; [|reflexivity].
    destruct (Hdue r Hr E) as [s [[] _]].
  - destruct (Hrows s (or_introl eq_refl)) as [[r0 [Hr0 [Hid0 Hpost0]]] Hp0].
    assert (Hrow : exists r, In r (schedules (db st)) /\ Schedule.id r = Schedule.id s)
      by eauto.
    pose proof (process_due_schedule_returns env st s Hnf Hrow Hp0) as Hok.
    pose proof (process_due_schedule_step env st s Hnf Hrow) as Hstep.
    simpl. unfold bind.
    destruct (process_due_schedule s env st) as [res st1]. simpl in Hok, Hstep. subst res.
    destruct (delivery_step_closes _ _ _ _ Hstep) as (u & status & Hsch & Hu & Hne).
    apply IH.
    + intros s' Hs'. destruct (Hrows s' (or_intror Hs')) as [Hrow' Hpost']. split.
      * rewrite Hsch. apply patched_row_exists. exact Hrow'.
      * apply (post_exists_by_ids (posts (db st))); [|exact Hpost'].
        apply (delivery_step_ids s (clock env)). exact Hstep.
    + intros r Hr Hr_due. rewrite Hsch in Hr. apply in_patched in Hr.
      destruct Hr as [[q [_ [_ ->]]]|[Hr Hne_id]].
      * exfalso. unfold is_due in Hr_due. simpl in Hr_due. rewrite Hu in Hr_due.
        destruct status; simpl in Hr_due; congruence.
      * destruct (Hdue r Hr Hr_due) as [s' [[<-|Hs'] Hid']]; [congruence | eauto].
Qed.

Lemma tick_run (env : Env) (st : State) :
  dbFault env (dbCalls st) = None ->
  checkAndPublishScheduledPosts env st
  = (Ok tt,
     snd (for_of (sort_by schedule_le (filter (is_due (clock env)) (schedules (db st))))
            process_due_schedule env (set_db (db st) (count_db_call st)))).
Proof.
  intros Hnf.
  unfold checkAndPublishScheduledPosts, try_catch. unfold bind at 1. unfold newDate at 1.
  unfold bind at 1. unfold prisma at 1. rewrite Hnf. unfold schedule_findMany_due.
  destruct (sort_by schedule_le (filter (is_due (clock env)) (schedules (db st))))
    as [|s due]; [reflexivity|].
  destruct (for_of (s :: due) process_due_schedule env
              (set_db (db st) (count_db_call st))) as [[u|e] st1]; [destruct u|];
    reflexivity.
Qed.

Lemma filter_nothing {A : Type} (f : A -> bool) (l : list A) :
  (forall x, In x l -> f x = false) -> filter f l = [].
Proof.
  induction l as [|x l IH]; intros H; simpl; [reflexivity|].
  rewrite (H x (or_introl eq_refl)). apply IH. intros y Hy. apply H. right. exact Hy.
Qed.

(** X9.  When the store answers and every schedule has its post, one tick
    closes every due record: after it no schedule is PENDING with a time
    that has come, so nothing is left for the next tick to retry. *)
Theorem tick_closes_every_due_record (env : Env) (st : State) :
  no_rejection env ->
  (forall s, In s (schedules (db st)) ->
     exists p, In p (posts (db st)) /\ Post.id p = Schedule.post_id s) ->
  fst (checkAndPublishScheduledPosts env st) = Ok tt
  /\ filter (is_due (clock env)) (schedules (db (snd (checkAndPublishScheduledPosts env st))))
     = [].
Proof.
  intros Hnf Hfk. rewrite (tick_run env st (Hnf _)). cbn [fst snd].
  split; [reflexivity|]. apply filter_nothing.
  apply (tick_loop_closes env (clock env)); [exact Hnf| |].
  - intros s Hs. apply (Permutation_in _ (sort_by_permutation schedule_le _)) in Hs.
    apply filter_In in Hs. destruct Hs as [Hin _]. split; [eauto | apply Hfk, Hin].
  - intros r Hr Hdue. exists r. split; [|reflexivity].
    apply (Permutation_in _ (Permutation_sym (sort_by_permutation schedule_le _))).
    apply filter_In. auto.
Qed.

Lemma tick_closes_every_due_record_witness :
  fst (checkAndPublishScheduledPosts (Examples.env_of Examples.no_fault Examples.rejecting)
         (Examples.state_of Examples.two_due)) = Ok tt
  /\ filter (is_due (clock (Examples.env_of Examples.no_fault Examples.rejecting)))
       (schedules (db (snd (checkAndPublishScheduledPosts
                              (Examples.env_of Examples.no_fault Examples.rejecting)
                              (Examples.state_of Examples.two_due)))))
     = [].
Proof.
  apply (tick_closes_every_due_record (Examples.env_of Examples.no_fault Examples.rejecting)
           (Examples.state_of Examples.two_due)).
  - intros n. reflexivity.
  - intros s Hs. simpl in Hs. destruct Hs as [<-|[<-|[]]].
    + exists Examples.hello. split; [left; reflexivity | reflexivity].
    + exists Examples.second. split; [right; left; reflexivity | reflexivity].
Defined.

(** ** What the tick leaves alone *)

Lemma changed_only_at_refl {A : Type} (key : A -> Z) (keys : list Z) (l : list A) :
  changed_only_at key keys l l.
Proof. induction l; constructor; auto. Qed.

Lemma changed_only_at_patch {A : Type} (key : A -> Z) (keys : list Z) (k : Z)
    (f : A -> A) (l0 l : list A) :
  (forall x, key (f x) = key x) ->
  In k keys ->
  changed_only_at key keys l0 l ->
  changed_only_at key keys l0 (map (fun q => if key q =? k then f q else q) l).
Proof.
  intros Hf Hk H. induction H as [|x x' l0 l [Hkey Hsame] _ IH]; simpl; constructor; auto.
  destruct (key x' =? k) eqn:E.
  - apply Z.eqb_eq in E. split.
    + rewrite Hf. exact Hkey.
    + intros Hnot. exfalso. apply Hnot. rewrite <- Hkey, E. exact Hk.
  - auto.
Qed.

Lemma touches_only_refl (postIds scheduleIds : list Z) (d : DB) :
  touches_only postIds scheduleIds d d.
Proof. repeat split; apply changed_only_at_refl. Qed.

Lemma touches_only_post_update (postIds scheduleIds : list Z) (d0 d : DB) (k : Z)
    (u : PostPatch.t) :
  In k postIds -> touches_only postIds scheduleIds d0 d ->
  touches_only postIds scheduleIds d0 (snd (post_update k u d)).
Proof.
  intros Hk H. unfold post_update. destruct (find_post d k); [|exact H].
  destruct H as (Hp & Hs & Hrest). simpl. split; [|split; [exact Hs | exact Hrest]].
  apply (changed_only_at_patch Post.id postIds k (PostPatch.apply u)); auto.
Qed.

Lemma touches_only_schedule_update (postIds scheduleIds : list Z) (d0 d : DB) (k : Z)
    (u : SchedulePatch.t) :
  In k scheduleIds -> touches_only postIds scheduleIds d0 d ->
  touches_only postIds scheduleIds d0 (snd (schedule_update k u d)).
Proof.
  intros Hk H. unfold schedule_update. destruct (find_schedule d k); [|exact H].
  destruct H as (Hp & Hs & Hrest). simpl. split; [exact Hp | split; [|exact Hrest]].
  apply (changed_only_at_patch Schedule.id scheduleIds k (SchedulePatch.apply u)); auto.
Qed.

Ltac db_step :=
  first
    [ apply stable_ret | apply stable_throw | apply stable_telegram_db
    | apply stable_getSession | apply stable_newDate | apply stable_getBotInstance
    | apply stable_putSession_db
    | apply stable_bind; [| intros ?]
    | apply stable_try; [| intros ?]
    | match goal with
      | |- stable _ _ (match ?x with _ => _ end) => destruct x
      | |- stable _ _ (if ?x then _ else _) => destruct x
      end ].

Lemma publish_touches_only (env : Env) (postIds scheduleIds : list Z) (d0 : DB) (k : Z) :
  In k postIds ->
  stable env (on_db (touches_only postIds scheduleIds d0)) (publishPostToTelegram k).
Proof.
  intros Hk.
  assert (Hupdate : forall u,
    stable env (on_db (touches_only postIds scheduleIds d0)) (prisma (post_update k u))).
  { intros u. apply stable_prisma_db. intros d. apply touches_only_post_update. exact Hk. }
  assert (Hfind :
    stable env (on_db (touches_only postIds scheduleIds d0)) (prisma (post_findUnique k))).
  { apply stable_prisma_db. intros d H. exact H. }
  unfold publishPostToTelegram, getPostById, updatePost.
  repeat first [ apply Hupdate | apply Hfind | db_step ].
Qed.

Lemma process_touches_only (env : Env) (postIds scheduleIds : list Z) (d0 : DB)
    (s : Schedule.t) :
  In (Schedule.post_id s) postIds -> In (Schedule.id s) scheduleIds ->
  stable env (on_db (touches_only postIds scheduleIds d0)) (process_due_schedule s).
Proof.
  intros Hp Hs.
  assert (Hupdate : forall u,
    stable env (on_db (touches_only postIds scheduleIds d0))
      (prisma (post_update (Schedule.post_id s) u))).
  { intros u. apply stable_prisma_db. intros d. apply touches_only_post_update. exact Hp. }
  assert (Hsched : forall u,
    stable env (on_db (touches_only postIds scheduleIds d0))
      (prisma (schedule_update (Schedule.id s) u))).
  { intros u. apply stable_prisma_db. intros d. apply touches_only_schedule_update.
    exact Hs. }
  unfold process_due_schedule.
  repeat first [ apply Hupdate | apply Hsched | apply publish_touches_only; exact Hp
               | db_step ].
Qed.

(** X10.  The tick changes nothing but the due records and their posts:
    every other schedule and post, and all channels, media, buttons and
    statistics, are as before, whatever the store and the platform
    answer. *)
Theorem tick_touches_only_due_records (env : Env) (st : State) :
  touches_only
    (map Schedule.post_id (filter (is_due (clock env)) (schedules (db st))))
    (map Schedule.id (filter (is_due (clock env)) (schedules (db st))))
    (db st) (db (snd (checkAndPublishScheduledPosts env st))).
Proof.
  set (due := filter (is_due (clock env)) (schedules (db st))).
  assert (Hloop : forall (l : list Schedule.t),
             (forall s, In s l -> In s due) ->
             stable env (on_db (touches_only (map Schedule.post_id due)
                                  (map Schedule.id due) (db st)))
               (for_of l process_due_schedule)).
  { intros l Hl. apply stable_for_of. intros s Hs. apply process_touches_only.
    - apply in_map, Hl, Hs.
    - apply in_map, Hl, Hs. }
  unfold checkAndPublishScheduledPosts, try_catch. unfold bind at 1. unfold newDate at 1.
  unfold bind at 1. unfold prisma at 1.
  destruct (dbFault env (dbCalls st)); [apply touches_only_refl|].
  unfold schedule_findMany_due. fold due.
  assert (Hsorted : forall s, In s (sort_by schedule_le due) -> In s due)
    by (intros s; apply Permutation_in, sort_by_permutation).
  specialize (Hloop (sort_by schedule_le due) Hsorted
                (set_db (db st) (count_db_call st)) (touches_only_refl _ _ _)).
  destruct (sort_by schedule_le due) as [|s l]; [apply touches_only_refl|].
  destruct (for_of (s :: l) process_due_schedule env (set_db (db st) (count_db_call st)))
    as [[u|e] st1]; exact Hloop.
Qed.

(** ** What a delivery records *)

Lemma status_update_keeps_columns (k : Z) (status : PostStatus.t) (d : DB) :
  delivery_columns (snd (post_update k (PostPatch.mk None (Some status) None None) d))
  = delivery_columns d.
Proof.
  unfold post_update. destruct (find_post d k); [|reflexivity].
  unfold delivery_columns. simpl. rewrite map_map. apply map_ext.
  intros q. destruct (Post.id q =? k); reflexivity.
Qed.

Lemma failed_update_changes_nothing (k : Z) (u : PostPatch.t) (d d' : DB) (e : string) :
  post_update k u d = (Throw e, d') -> d' = d.
Proof.
  unfold post_update. destruct (find_post d k); intros H; inversion H. reflexivity.
Qed.

Lemma publish_records (env : Env) (postId : Z) (columns : list (option Z * option Z)) :
  hoare env (on_db (fun d => delivery_columns d = columns)) (publishPostToTelegram postId)
    (fun r st =>
       match r with
       | Ok true => True
       | Ok false => delivery_columns (db st) = columns
       | Throw _ => False
       end).
Proof.
  set (P := fun d => delivery_columns d = columns).
  assert (Hstatus : forall status,
    stable env (on_db P) (updatePost postId None (Some status))).
  { intros status. unfold updatePost. apply stable_try; [|intros e; apply stable_throw].
    apply stable_prisma_db. intros d H. unfold P in *.
    rewrite status_update_keeps_columns. exact H. }
  unfold publishPostToTelegram.
  apply (hoare_try env (on_db P)
           (fun r st => match r with Ok true => True | _ => on_db P st end)).
  - apply (hoare_bind env (on_db P) (fun _ st => on_db P st)).
    + apply view_getPostById.
    + intros [post|]; [|apply hoare_ret; auto].
      destruct (PostFull.channel post) as [channel|]; [|apply hoare_ret; auto].
      apply (hoare_bind env (on_db P) (fun _ st => on_db P st)).
      * match goal with |- hoare ?e ?p ?m _ => change (stable e p m) end.
        repeat db_step.
      * intros messageId.
        apply (hoare_bind env (on_db P) (fun _ st => on_db P st)); [apply Hstatus| |auto].
        intros p.
        apply (hoare_bind env (on_db P) (fun _ st => on_db P st));
          [apply stable_newDate| |auto].
        intros now.
        apply (hoare_bind env (on_db P)
                 (fun r st => match r with Ok _ => True | Throw _ => on_db P st end)).
        -- intros st H. unfold prisma, on_db in *.
           destruct (dbFault env (dbCalls st)); simpl; [exact H|].
           destruct (post_update postId _ (db st)) as [[q|e] d'] eqn:E; simpl; [exact I|].
           apply failed_update_changes_nothing in E. subst d'. exact H.
        -- intros q. apply hoare_ret. auto.
        -- auto.
      * auto.
    + auto.
  - intros [|] st H; exact H.
  - intros e.
    apply (hoare_bind env (on_db P)
             (fun r st => match r with Ok _ => on_db P st | Throw _ => False end)).
    + apply (hoare_try env (on_db P) (fun _ st => on_db P st)).
      * apply stable_bind; [apply Hstatus | intros p; apply stable_ret].
      * auto.
      * intros e'. apply hoare_ret. auto.
    + intros u. apply hoare_ret. auto.
    + intros e' st H. exact H.
Qed.

(** X11.  The result of a delivery tells what was recorded.  It never
    throws; when it returns [false] no remote message id and no publication
    time has been written, for any post; when it returns [true] the
    platform accepted the send and the post is PUBLISHED with the message id
    the platform returned and the time of the delivery.  This holds
    whatever the store and the platform answer. *)
Theorem delivery_result_tells_what_was_recorded (env : Env) (st : State) (postId : Z) :
  match fst (publishPostToTelegram postId env st) with
  | Ok false =>
      delivery_columns (db (snd (publishPostToTelegram postId env st)))
      = delivery_columns (db st)
  | Ok true =>
      exists message_id,
        tgResult env (tgCalls st) = Delivered message_id
        /\ post_published (db (snd (publishPostToTelegram postId env st))) postId
             (clock env) message_id
  | Throw _ => False
  end.
Proof.
  pose proof (publish_records env postId (delivery_columns (db st)) st eq_refl) as H.
  destruct (publishPostToTelegram postId env st) as [[[|]|e] st1] eqn:E; simpl in H |- *.
  - destruct (publish_true_effects postId env st st1 E) as [mid [Htg [Hpost _]]].
    exists mid. auto.
  - exact H.
  - exact H.
Qed.

(** ** Publish-now when the platform accepts the send *)

Lemma publish_delivered (env : Env) (st : State) (postId : Z) (p : Post.t) (c : Channel.t) :
  no_rejection env ->
  find_post (db st) postId = Some p ->
  find_channel (db st) (Post.channel_id p) = Some c ->
  (forall n, exists m, tgResult env n = Delivered m) ->
  exists message_id st1,
    tgResult env (tgCalls st) = Delivered message_id
    /\ publishPostToTelegram postId env st = (Ok true, st1)
    /\ db st1 = with_posts (delivered_rows postId (clock env) message_id (posts (db st)))
                  (next_post_id (db st)) (db st)
    /\ session st1 = session st.
Proof.
  intros Hnf Hp Hc Hall.
  destruct (Hall (tgCalls st)) as [mid Hmid]. exists mid.
  destruct (Hall (S (tgCalls st))) as [mid2 Hmid2].
  cbv beta iota delta
    [publishPostToTelegram try_catch bind getPostById updatePost newDate ret throw prisma
     telegram ignore post_findUnique post_update].
  repeat rewrite Hnf. simpl. rewrite Hp. simpl. rewrite Hc. simpl.
  assert (Hfind : forall u n,
             find_post
               (with_posts
                  (map (fun q => if Post.id q =? postId then PostPatch.apply u q else q)
                     (posts (db st))) n (db st)) postId
             = Some (PostPatch.apply u p)).
  { intros u n. unfold find_post. simpl.
    change (map (fun q => if Post.id q =? postId then PostPatch.apply u q else q)
              (posts (db st))) with (patch_rows postId u (posts (db st))).
    rewrite find_patched.
    unfold find_post in Hp. rewrite Hp. reflexivity. }
  destruct (sort_by media_le (media_of (db st) postId)) as [|m1 [|m2 ms]]; simpl.
  - rewrite Hmid. simpl.
    repeat (first [rewrite Hnf | rewrite Hp | rewrite Hfind | progress simpl]).
    eexists. repeat split.
  - rewrite Hmid. simpl.
    repeat (first [rewrite Hnf | rewrite Hp | rewrite Hfind | progress simpl]).
    eexists. repeat split.
  - rewrite Hmid. simpl.
    destruct (reply_markup_of (sort_by button_le (buttons_of (db st) postId))); simpl.
    + rewrite Hmid2. simpl.
      repeat (first [rewrite Hnf | rewrite Hp | rewrite Hfind | progress simpl]).
      eexists. repeat split.
    + repeat (first [rewrite Hnf | rewrite Hp | rewrite Hfind | progress simpl]).
      eexists. repeat split.
Qed.

(** X12.  Publish-now with a draft that passes the guard, a store that
    answers, an existing channel and a platform that accepts the requests:
    the post created for the draft is in the store, PUBLISHED, with the
    message id the platform returned for the send and the time of the
    delivery; the admin is sent the text that says the post was published;
    and the draft is cleared. *)
Theorem publish_now_records_delivery (env : Env) (st : State) (draft : PostDraft.t)
    (channelId : Z) (text : string) (c : Channel.t) :
  committable (Session.postDraft (session st)) = Some (draft, channelId, text) ->
  no_rejection env ->
  post_ids_fresh (db st) ->
  find_channel (db st) channelId = Some c ->
  (forall n, exists m, tgResult env n = Delivered m) ->
  exists message_id,
    tgResult env (tgCalls st) = Delivered message_id
    /\ posts (db (snd (handlePublishNow env st)))
       = posts (db st)
         ++ [Post.mk (next_post_id (db st)) channelId text PostStatus.PUBLISHED
               (Some (clock env)) (Some message_id)]
    /\ In (editMessageText
             (published_message (channel_name (Some c)) (next_post_id (db st))))
         (map fst (apiLog (snd (handlePublishNow env st))))
    /\ session (snd (handlePublishNow env st)) = cleared.
Proof.
  intros Hdraft Hnf Hfresh Hc Hall.
  destruct (create_post_from_draft_ok env st PostStatus.PUBLISHED channelId text draft c
              Hnf Hc) as [st1 [Hrun [Hfr [Hs [Hl Hn]]]]].
  destruct Hfr as [Hposts [Hchannels _]]. simpl in Hposts, Hchannels.
  assert (Hold : forall p, In p (posts (db st)) -> Post.id p <> next_post_id (db st)).
  { intros p Hp. specialize (Hfresh p Hp). lia. }
  set (post := Post.mk (next_post_id (db st)) channelId text PostStatus.PUBLISHED None None)
    in *.
  assert (Hfind : find_post (db st1) (Post.id post) = Some post).
  { unfold find_post. rewrite Hposts. apply find_fresh; [exact Hold | reflexivity]. }
  assert (Hc1 : find_channel (db st1) (Post.channel_id post) = Some c).
  { unfold find_channel. rewrite Hchannels. exact Hc. }
  destruct (publish_delivered env st1 (Post.id post) post c Hnf Hfind Hc1 Hall)
    as [mid [st2 [Hmid [Hpub [Hdb2 Hs2]]]]].
  rewrite Hn in Hmid. exists mid. split; [exact Hmid|].
  destruct (notify_then_clear_log env st2 channelId
              (fun channel => published_message (channel_name channel) (Post.id post)) Hnf)
    as [st3 [Hnotify [Hs3 [Hdb3 Hlog3]]]].
  assert (Hfinal : handlePublishNow env st = (Ok tt, st3)).
  { rewrite (handlePublishNow_run env st draft channelId text Hdraft).
    unfold try_catch. unfold bind at 1. rewrite Hrun. cbv beta iota.
    unfold bind at 1. rewrite Hpub. cbv beta iota.
    rewrite Hnotify. reflexivity. }
  rewrite Hfinal. cbn [snd fst].
  split; [|split].
  - rewrite Hdb3, Hdb2. simpl. rewrite Hposts. unfold delivered_rows.
    rewrite !patch_rows_app, !(patch_rows_fresh _ _ _ Hold).
    unfold patch_rows. simpl. rewrite Z.eqb_refl. simpl. rewrite Z.eqb_refl. reflexivity.
  - assert (Hch : find_channel (db st2) channelId = Some c).
    { unfold find_channel. rewrite Hdb2. simpl. rewrite Hchannels. exact Hc. }
    rewrite Hch in Hlog3. exact Hlog3.
  - exact Hs3.
Qed.

Lemma publish_now_records_delivery_witness :
  exists message_id,
    tgResult (Examples.env_of Examples.no_fault (Examples.delivering 77))
      (tgCalls Examples.composing) = Delivered message_id
    /\ posts (db (snd (handlePublishNow
                        (Examples.env_of Examples.no_fault (Examples.delivering 77))
                        Examples.composing)))
       = posts (db Examples.composing)
         ++ [Post.mk (next_post_id (db Examples.composing)) 1 "<b>Hello</b>"
               PostStatus.PUBLISHED
               (Some (clock (Examples.env_of Examples.no_fault (Examples.delivering 77))))
               (Some message_id)]
    /\ In (editMessageText
             (published_message (channel_name (Some Examples.news))
                (next_post_id (db Examples.composing))))
         (map fst (apiLog (snd (handlePublishNow
                                  (Examples.env_of Examples.no_fault (Examples.delivering 77))
                                  Examples.composing))))
    /\ session (snd (handlePublishNow
                       (Examples.env_of Examples.no_fault (Examples.delivering 77))
                       Examples.composing)) = cleared.
Proof.
  apply (publish_now_records_delivery
           (Examples.env_of Examples.no_fault (Examples.delivering 77)) Examples.composing
           Examples.draft 1 "<b>Hello</b>" Examples.news).
  - reflexivity.
  - intros n. reflexivity.
  - intros p [].
  - reflexivity.
  - intros n. eexists. reflexivity.
Defined.

(** ** What a commit stores *)

Lemma draft_media_run (env : Env) (postId : Z) (files : list SessionMediaFile.t) :
  no_rejection env ->
  forall (st : State) (k : nat),
    find_post (db st) postId <> None ->
    length (media_of (db st) postId) = k ->
    exists st',
      for_of files (fun media =>
        ignore (addMedia postId (SessionMediaFile.fileId media)
                  (SessionMediaFile.fileType media) (SessionMediaFile.fileSize media)
                  (SessionMediaFile.caption media))) env st = (Ok tt, st')
      /\ db st' = with_media
                    (media (db st) ++ draft_media postId (next_media_id (db st)) k files)
                    (next_media_id (db st) + Z.of_nat (length files)) (db st).
Proof.
  intros Hnf. induction files as [|m rest IH]; intros st k Hpost Hk.
  - exists st. split; [reflexivity|]. simpl. rewrite app_nil_r, Z.add_0_r.
    destruct (db st). reflexivity.
  - destruct (addMedia_run env st postId (SessionMediaFile.fileId m)
                (SessionMediaFile.fileType m) (SessionMediaFile.fileSize m)
                (SessionMediaFile.caption m) Hnf Hpost) as [st1 [Hadd Hdb1]].
    destruct (IH st1 (S k)) as [st' [Hrun Hdb]].
    + rewrite Hdb1. unfold find_post in *. exact Hpost.
    + rewrite Hdb1. unfold media_of. simpl. rewrite filter_app. simpl. rewrite Z.eqb_refl.
      rewrite length_app. fold (media_of (db st) postId). rewrite Hk. simpl. lia.
    + exists st'. split.
      * cbn [for_of]. unfold bind at 1. unfold ignore at 1. unfold bind at 1. rewrite Hadd.
        cbv beta iota. unfold ret at 1. cbv beta iota. exact Hrun.
      * rewrite Hdb, Hdb1. unfold with_media.
        cbn [media next_media_id channels posts buttons schedules statistics
             next_post_id next_button_id next_schedule_id draft_media length].
        rewrite <- app_assoc. cbn [app]. rewrite Hk. f_equal. lia.
Qed.

Lemma draft_buttons_run (env : Env) (postId : Z) (items : list SessionButton.t) :
  no_rejection env ->
  forall (st : State),
    find_post (db st) postId <> None ->
    exists st',
      for_of items (fun button =>
        ignore (addButton postId (SessionButton.text button) (SessionButton.url button)
                  (SessionButton.row button) (SessionButton.position button)))
        env st = (Ok tt, st')
      /\ db st' = with_buttons
                    (buttons (db st) ++ draft_buttons postId (next_button_id (db st)) items)
                    (next_button_id (db st) + Z.of_nat (length items)) (db st).
Proof.
  intros Hnf. induction items as [|b rest IH]; intros st Hpost.
  - exists st. split; [reflexivity|]. simpl. rewrite app_nil_r, Z.add_0_r.
    destruct (db st). reflexivity.
  - destruct (addButton_run env st postId (SessionButton.text b) (SessionButton.url b)
                (SessionButton.row b) (SessionButton.position b) Hnf Hpost)
      as [st1 [Hadd Hdb1]].
    destruct (IH st1) as [st' [Hrun Hdb]].
    + rewrite Hdb1. unfold find_post in *. exact Hpost.
    + exists st'. split.
      * cbn [for_of]. unfold bind at 1. unfold ignore at 1. unfold bind at 1. rewrite Hadd.
        cbv beta iota. unfold ret at 1. cbv beta iota. exact Hrun.
      * rewrite Hdb, Hdb1. unfold with_buttons.
        cbn [media next_media_id channels posts buttons schedules statistics
             next_post_id next_button_id next_schedule_id draft_buttons length].
        rewrite <- app_assoc. cbn [app]. f_equal. lia.
Qed.

Lemma create_post_from_draft_run (env : Env) (st : State) (status : PostStatus.t)
    (channelId : Z) (text : string) (draft : PostDraft.t) (c : Channel.t) :
  no_rejection env ->
  references_below (db st) ->
  find_channel (db st) channelId = Some c ->
  exists st1,
    create_post_from_draft status channelId text draft env st
    = (Ok (Post.mk (next_post_id (db st)) channelId text status None None), st1)
    /\ db st1 = committed (db st) status channelId text draft
    /\ session st1 = session st /\ apiLog st1 = apiLog st /\ tgCalls st1 = tgCalls st.
Proof.
  intros Hnf [Hposts [Hmedia _]] Hc.
  set (post := Post.mk (next_post_id (db st)) channelId text status None None).
  set (d1 := with_posts (posts (db st) ++ [post]) (next_post_id (db st) + 1) (db st)).
  set (st1 := set_db d1 (count_db_call st)).
  assert (Hpost1 : find_post (db st1) (Post.id post) <> None).
  { apply (find_post_last (db st) post). }
  assert (Hk : length (media_of (db st1) (Post.id post)) = 0%nat).
  { unfold media_of. simpl. rewrite filter_none; [reflexivity|].
    intros m Hm. specialize (Hmedia m Hm). apply Z.eqb_neq. lia. }
  destruct (draft_media_run env (Post.id post) (files_of draft) Hnf st1 0%nat Hpost1 Hk)
    as [st2 [Hrun2 Hdb2]].
  assert (Hpost2 : find_post (db st2) (Post.id post) <> None).
  { rewrite Hdb2. exact Hpost1. }
  destruct (draft_buttons_run env (Post.id post) (buttons_of_draft draft) Hnf st2 Hpost2)
    as [st3 [Hrun3 Hdb3]].
  assert (Hrun : create_post_from_draft status channelId text draft env st = (Ok post, st3)).
  { unfold create_post_from_draft. unfold bind at 1.
    unfold createPost, try_catch, prisma, post_create.
    rewrite Hnf, Hc. cbv beta iota. fold post. fold d1. fold st1.
    unfold bind at 1. unfold add_draft_content. unfold bind at 1.
    rewrite Hrun2. cbv beta iota. rewrite Hrun3. reflexivity. }
  exists st3. split; [exact Hrun|]. split.
  - rewrite Hdb3, Hdb2. reflexivity.
  - destruct (writes_frame env st channelId text draft) as [Hchat _].
    specialize (Hchat status). simpl in Hchat. rewrite Hrun in Hchat. exact Hchat.
Qed.

Lemma draft_media_post (postId : Z) (files : list SessionMediaFile.t) :
  forall id k x, In x (draft_media postId id k files) -> Media.post_id x = postId.
Proof.
  induction files as [|f rest IH]; intros id k x Hx; simpl in Hx; [destruct Hx|].
  destruct Hx as [<-|Hx]; [reflexivity | apply (IH _ _ _ Hx)].
Qed.

Lemma draft_buttons_post (postId : Z) (items : list SessionButton.t) :
  forall id x, In x (draft_buttons postId id items) -> PostButton.post_id x = postId.
Proof.
  induction items as [|b rest IH]; intros id x Hx; simpl in Hx; [destruct Hx|].
  destruct Hx as [<-|Hx]; [reflexivity | apply (IH _ _ Hx)].
Qed.

Lemma draft_media_sorted (postId : Z) (files : list SessionMediaFile.t) :
  forall id k, sorted_by media_le (draft_media postId id k files).
Proof.
  induction files as [|f rest IH]; intros id k; [exact I|].
  destruct rest as [|g rest]; [exact I|].
  split; [|apply IH].
  unfold media_le. simpl. apply Z.leb_le. lia.
Qed.

Lemma draft_media_positions (postId : Z) (files : list SessionMediaFile.t) :
  forall id k,
    map Media.position (draft_media postId id k files)
    = map Z.of_nat (seq k (length files)).
Proof.
  induction files as [|f rest IH]; intros id k; simpl; [reflexivity|].
  rewrite IH. reflexivity.
Qed.

(** What [getPostById] reads for the post of a commit made in store [d]. *)
Lemma committed_lookup (d d' : DB) (status : PostStatus.t) (channelId : Z) (text : string)
    (draft : PostDraft.t) (c : Channel.t) (extra : list Schedule.t) :
  references_below d ->
  find_channel d channelId = Some c ->
  channels d' = channels d ->
  posts d' = posts (committed d status channelId text draft) ->
  media d' = media (committed d status channelId text draft) ->
  buttons d' = buttons (committed d status channelId text draft) ->
  schedules d' = schedules d ++ extra ->
  statistics d' = statistics d ->
  lookup_post d' (next_post_id d)
  = Some (committed_post d status channelId text draft c
            (find (fun s => Schedule.post_id s =? next_post_id d) extra)).
Proof.
  intros (Hposts & Hmedia & Hbuttons & Hschedules & Hstatistics) Hc Hch Hp Hm Hb Hs Hst.
  set (newId := next_post_id d) in *.
  set (post := Post.mk newId channelId text status None None).
  assert (Hfind : find_post d' newId = Some post).
  { unfold find_post. rewrite Hp. cbn [committed posts]. apply find_fresh; [|reflexivity].
    intros q Hq. specialize (Hposts q Hq). fold newId in Hposts. lia. }
  assert (Hm' : media_of d' newId
                = draft_media newId (next_media_id d) 0 (files_of draft)).
  { unfold media_of. rewrite Hm. cbn [committed media]. rewrite filter_app.
    rewrite filter_none, filter_all; [reflexivity| |].
    - intros x Hx. apply draft_media_post in Hx. rewrite Hx. apply Z.eqb_refl.
    - intros x Hx. specialize (Hmedia x Hx). fold newId in Hmedia. apply Z.eqb_neq. lia. }
  assert (Hb' : buttons_of d' newId
                = draft_buttons newId (next_button_id d) (buttons_of_draft draft)).
  { unfold buttons_of. rewrite Hb. cbn [committed buttons]. rewrite filter_app.
    rewrite filter_none, filter_all; [reflexivity| |].
    - intros x Hx. apply draft_buttons_post in Hx. rewrite Hx. apply Z.eqb_refl.
    - intros x Hx. specialize (Hbuttons x Hx). fold newId in Hbuttons.
      apply Z.eqb_neq. lia. }
  assert (Hs' : schedule_of d' newId
                = find (fun s => Schedule.post_id s =? newId) extra).
  { unfold schedule_of. rewrite Hs.
    assert (Hskip : forall l, (forall x, In x l -> Schedule.post_id x < newId) ->
              find (fun s => Schedule.post_id s =? newId) (l ++ extra)
              = find (fun s => Schedule.post_id s =? newId) extra).
    { induction l as [|x l IH]; intros Hl; [reflexivity|]. simpl.
      assert (Hx : Schedule.post_id x < newId) by (apply Hl; left; reflexivity).
      destruct (Schedule.post_id x =? newId) eqn:E; [apply Z.eqb_eq in E; lia|].
      apply IH. intros y Hy. apply Hl. right. exact Hy. }
    apply Hskip. exact Hschedules. }
  assert (Hst' : statistics_of d' newId = None).
  { unfold statistics_of. rewrite Hst. apply find_nothing.
    intros x Hx. specialize (Hstatistics x Hx). fold newId in Hstatistics.
    apply Z.eqb_neq. lia. }
  unfold lookup_post, post_findUnique. cbn [fst].
  rewrite Hfind, Hm', Hb', Hs', Hst'.
  rewrite (sort_by_sorted media_le); [|apply draft_media_sorted].
  unfold find_channel. rewrite Hch. fold (find_channel d (Post.channel_id post)).
  simpl Post.channel_id. rewrite Hc. reflexivity.
Qed.

(** X13.  A saved draft reads back.  When the store answers, its rows
    refer only to post ids the post sequence has passed and the channel
    exists, save-as-draft stores a post that [getPostById] returns
    with the status DRAFT, the channel and the text of the draft, the
    draft's files as its media in upload order at positions [0 .. n-1], the
    draft's buttons ordered by row and position, no schedule and no
    statistics; and the draft is cleared. *)
Theorem saved_draft_reads_back (env : Env) (st : State) (draft : PostDraft.t)
    (channelId : Z) (text : string) (c : Channel.t) :
  no_rejection env ->
  references_below (db st) ->
  committable (Session.postDraft (session st)) = Some (draft, channelId, text) ->
  find_channel (db st) channelId = Some c ->
  let st' := snd (handleSaveDraft env st) in
  lookup_post (db st') (next_post_id (db st))
  = Some (committed_post (db st) PostStatus.DRAFT channelId text draft c None)
  /\ map Media.position (PostFull.media
        (committed_post (db st) PostStatus.DRAFT channelId text draft c None))
     = map Z.of_nat (seq 0 (length (files_of draft)))
  /\ session st' = cleared.
Proof.
  intros Hnf Hrefs Hdraft Hc st'. subst st'.
  destruct (create_post_from_draft_run env st PostStatus.DRAFT channelId text draft c
              Hnf Hrefs Hc) as [st1 [Hrun [Hdb1 _]]].
  destruct (notify_then_clear_log env st1 channelId
              (fun channel => draft_saved_message (channel_name channel)) Hnf)
    as [st2 [Hnotify [Hsession [Hdb2 _]]]].
  assert (Hfull : handleSaveDraft env st = (Ok tt, st2)).
  { rewrite (handleSaveDraft_run env st draft channelId text Hdraft).
    unfold try_catch. unfold bind at 1. rewrite Hrun. cbv beta iota.
    rewrite Hnotify. reflexivity. }
  rewrite Hfull. cbn [snd fst].
  split; [|split; [apply draft_media_positions | exact Hsession]].
  rewrite Hdb2, Hdb1.
  apply (committed_lookup (db st) _ PostStatus.DRAFT channelId text draft c []
           Hrefs Hc); try reflexivity.
  simpl. rewrite app_nil_r. reflexivity.
Qed.

Lemma notify_scheduled_keeps_db (env : Env) (st : State) (channelId : Z)
    (message : option Channel.t -> string) :
  exists st',
    (try_catch
       (channel <- getChannelById channelId ;;
        try_catch (ignore (telegram (editMessageText (message channel))))
          (fun _ => ignore (telegram (reply (message channel)))))
       (fun _ => ret tt) ;;
     clearPostDraft) env st = (Ok tt, st')
    /\ session st' = cleared
    /\ db st' = db st.
Proof.
  unfold getChannelById, clearPostDraft, ignore,
    try_catch, bind, prisma, telegram, putSession, ret, channel_findUnique.
  repeat match goal with
         | |- context [match ?x with _ => _ end] =>
             match x with
             | context [match _ with _ => _ end] => fail 1
             | _ => destruct x eqn:?
             end
         end; eexists; repeat split.
Qed.

Lemma create_scheduled_post_run (env : Env) (st : State) (channelId : Z) (text : string)
    (draft : PostDraft.t) (scheduledAt : Z) (c : Channel.t) :
  no_rejection env ->
  references_below (db st) ->
  find_channel (db st) channelId = Some c ->
  exists st1,
    create_scheduled_post channelId text draft scheduledAt env st
    = (Ok (Post.mk (next_post_id (db st)) channelId text PostStatus.SCHEDULED None None),
       st1)
    /\ db st1
       = with_schedules
           (schedules (db st)
            ++ [Schedule.mk (next_schedule_id (db st)) (next_post_id (db st)) scheduledAt
                  None ScheduleStatus.PENDING 0 None])
           (next_schedule_id (db st) + 1)
           (committed (db st) PostStatus.SCHEDULED channelId text draft).
Proof.
  intros Hnf Hrefs Hc.
  destruct (create_post_from_draft_run env st PostStatus.SCHEDULED channelId text draft c
              Hnf Hrefs Hc) as [st1 [Hrun [Hdb1 _]]].
  destruct Hrefs as (Hposts & _ & _ & Hschedules & _).
  set (post := Post.mk (next_post_id (db st)) channelId text PostStatus.SCHEDULED None None)
    in *.
  assert (Hfind : find (fun p => Post.id p =? next_post_id (db st))
                    (posts (db st) ++ [post]) = Some post).
  { apply find_fresh; [|reflexivity].
    intros q Hq. specialize (Hposts q Hq). lia. }
  assert (Hnone : find (fun s => Schedule.post_id s =? next_post_id (db st))
                    (schedules (db st)) = None).
  { apply find_nothing. intros x Hx. specialize (Hschedules x Hx). apply Z.eqb_neq. lia. }
  assert (Hpatch : patch_rows (next_post_id (db st))
                     (PostPatch.mk None (Some PostStatus.SCHEDULED) None None)
                     (posts (db st) ++ [post]) = posts (db st) ++ [post]).
  { unfold patch_rows. rewrite map_app. f_equal.
    - rewrite <- (map_id (posts (db st))) at 2. apply map_ext_in.
      intros q Hq. specialize (Hposts q Hq).
      destruct (Post.id q =? next_post_id (db st)) eqn:E; [apply Z.eqb_eq in E; lia|].
      reflexivity.
    - simpl. rewrite Z.eqb_refl. reflexivity. }
  eexists. split.
  - unfold create_scheduled_post. unfold bind at 1. rewrite Hrun. cbv beta iota.
    unfold bind at 1. unfold schedulePost, try_catch, updatePost.
    unfold bind at 1. unfold prisma at 1. rewrite Hnf. rewrite Hdb1.
    unfold schedule_create, find_post, schedule_of. cbn [committed posts schedules].
    change (Post.id post) with (next_post_id (db st)). fold post.
    rewrite Hfind, Hnone. cbv beta iota.
    unfold bind at 1. unfold try_catch at 1. unfold prisma at 1.
    cbn [dbCalls set_db count_db_call db].
    rewrite Hnf. unfold post_update, find_post.
    cbn [with_schedules posts committed]. fold post. rewrite Hfind. cbv beta iota.
    unfold ret. cbv beta iota. reflexivity.
  - cbn [db set_db]. cbn [with_schedules with_posts posts channels media buttons schedules
                          statistics next_post_id next_media_id next_button_id
                          next_schedule_id committed].
    fold post.
    change (map (fun q => if Post.id q =? next_post_id (db st)
                          then PostPatch.apply
                                 (PostPatch.mk None (Some PostStatus.SCHEDULED) None None) q
                          else q) (posts (db st) ++ [post]))
      with (patch_rows (next_post_id (db st))
              (PostPatch.mk None (Some PostStatus.SCHEDULED) None None)
              (posts (db st) ++ [post])).
    rewrite Hpatch. reflexivity.
Qed.

(** X14.  A scheduled post reads back.  When the store answers, its rows
    refer only to post ids the post sequence has passed and the channel
    exists, the scheduled commit stores a post that [getPostById] returns with the status SCHEDULED, the content of the draft and one new
    schedule record: PENDING, no attempt made, at the time of the draft.
    The record is due exactly from that time on; and the draft is
    cleared. *)
Theorem scheduled_post_reads_back (formatDate : Z -> string) (env : Env) (st : State)
    (draft : PostDraft.t) (channelId : Z) (text : string) (scheduledAt : Z)
    (c : Channel.t) :
  no_rejection env ->
  references_below (db st) ->
  committable (Session.postDraft (session st)) = Some (draft, channelId, text) ->
  PostDraft.scheduledAt draft = Some scheduledAt ->
  find_channel (db st) channelId = Some c ->
  let st' := snd (handleScheduledPost formatDate env st) in
  let record := Schedule.mk (next_schedule_id (db st)) (next_post_id (db st)) scheduledAt
                  None ScheduleStatus.PENDING 0 None in
  lookup_post (db st') (next_post_id (db st))
  = Some (committed_post (db st) PostStatus.SCHEDULED channelId text draft c (Some record))
  /\ schedules (db st') = schedules (db st) ++ [record]
  /\ (forall now, is_due now record = (scheduledAt <=? now))
  /\ session st' = cleared.
Proof.
  intros Hnf Hrefs Hdraft Hat Hc st' record. subst st'.
  destruct (create_scheduled_post_run env st channelId text draft scheduledAt c
              Hnf Hrefs Hc) as [st1 [Hrun Hdb1]].
  destruct (notify_scheduled_keeps_db env st1 channelId
              (fun channel => scheduled_message formatDate (channel_name channel)
                                scheduledAt))
    as [st2 [Hnotify [Hsession Hdb2]]].
  assert (Hfull : handleScheduledPost formatDate env st = (Ok tt, st2)).
  { rewrite (handleScheduledPost_run formatDate env st draft channelId text scheduledAt
               Hdraft Hat).
    unfold try_catch at 1. unfold bind at 1. rewrite Hrun. cbv beta iota.
    rewrite Hnotify. reflexivity. }
  rewrite Hfull. cbn [snd fst].
  rewrite Hdb2, Hdb1. fold record.
  split; [|split; [reflexivity | split; [intros now; reflexivity | exact Hsession]]].
  replace (Some record)
    with (find (fun s => Schedule.post_id s =? next_post_id (db st)) [record])
    by (simpl; rewrite Z.eqb_refl; reflexivity).
  apply (committed_lookup (db st) _ PostStatus.SCHEDULED channelId text draft c [record]
           Hrefs Hc); reflexivity.
Qed.

Lemma saved_draft_reads_back_witness :
  let env := Examples.env_of Examples.no_fault Examples.rejecting in
  let st' := snd (handleSaveDraft env Examples.composing) in
  lookup_post (db st') 1
  = Some (PostFull.mk (Post.mk 1 1 "<b>Hello</b>" PostStatus.DRAFT None None)
            (Some Examples.news)
            [Media.mk 1 1 "AgACAgIAAxkBAAIB" MediaType.PHOTO (Some 51200) None 0]
            [PostButton.mk 1 1 "Read more" "https://example.com" 0 0]
            None None)
  /\ session st' = cleared.
Proof.
  destruct (saved_draft_reads_back
              (Examples.env_of Examples.no_fault Examples.rejecting) Examples.composing
              Examples.draft 1 "<b>Hello</b>" Examples.news) as [Hread [_ Hsession]].
  - intros n. reflexivity.
  - repeat split; intros x [].
  - reflexivity.
  - reflexivity.
  - split; [exact Hread | exact Hsession].
Defined.

Lemma scheduled_post_reads_back_witness :
  let env := Examples.env_of Examples.no_fault Examples.rejecting in
  let st' := snd (handleScheduledPost Examples.formatDate env Examples.composing) in
  lookup_post (db st') 1
  = Some (PostFull.mk (Post.mk 1 1 "<b>Hello</b>" PostStatus.SCHEDULED None None)
            (Some Examples.news)
            [Media.mk 1 1 "AgACAgIAAxkBAAIB" MediaType.PHOTO (Some 51200) None 0]
            [PostButton.mk 1 1 "Read more" "https://example.com" 0 0]
            (Some (Schedule.mk 1 1 5000 None ScheduleStatus.PENDING 0 None)) None)
  /\ schedules (db st') = [Schedule.mk 1 1 5000 None ScheduleStatus.PENDING 0 None].
Proof.
  destruct (scheduled_post_reads_back Examples.formatDate
              (Examples.env_of Examples.no_fault Examples.rejecting) Examples.composing
              Examples.draft 1 "<b>Hello</b>" 5000 Examples.news)
    as [Hread [Hrows _]].
  - intros n. reflexivity.
  - repeat split; intros x [].
  - reflexivity.
  - reflexivity.
  - reflexivity.
  - split; [exact Hread | exact Hrows].
Defined.

Lemma find_filter {A : Type} (f g : A -> bool) (l : list A) :
  (forall x, f x = true -> g x = true) ->
  find f (filter g l) = find f l.
Proof.
  intros H. induction l as [|x l IH]; [reflexivity|]. simpl.
  destruct (g x) eqn:Eg; simpl.
  - rewrite IH. reflexivity.
  - destruct (f x) eqn:Ef; [rewrite (H x Ef) in Eg; discriminate | exact IH].
Qed.

Lemma filter_filter {A : Type} (f g : A -> bool) (l : list A) :
  (forall x, f x = true -> g x = true) ->
  filter f (filter g l) = filter f l.
Proof.
  intros H. induction l as [|x l IH]; [reflexivity|]. simpl.
  destruct (g x) eqn:Eg; simpl.
  - rewrite IH. reflexivity.
  - destruct (f x) eqn:Ef; [rewrite (H x Ef) in Eg; discriminate | exact IH].
Qed.

Lemma find_filtered_out {A : Type} (f g : A -> bool) (l : list A) :
  (forall x, f x = true -> g x = false) ->
  find f (filter g l) = None.
Proof.
  intros H. apply find_nothing. intros x Hx. apply filter_In in Hx as [_ Hg].
  destruct (f x) eqn:Ef; [rewrite (H x Ef) in Hg; discriminate | reflexivity].
Qed.

Lemma filter_filtered_out {A : Type} (f g : A -> bool) (l : list A) :
  (forall x, f x = true -> g x = false) ->
  filter f (filter g l) = [].
Proof.
  intros H. apply filter_none. intros x Hx. apply filter_In in Hx as [_ Hg].
  destruct (f x) eqn:Ef; [rewrite (H x Ef) in Hg; discriminate | reflexivity].
Qed.

Lemma other_id (k postId other : Z) :
  other <> postId -> (k =? other) = true -> negb (k =? postId) = true.
Proof.
  intros Hne H. apply Z.eqb_eq in H. subst k.
  apply negb_true_iff, Z.eqb_neq. exact Hne.
Qed.

Lemma same_id (k postId : Z) : (k =? postId) = true -> negb (k =? postId) = false.
Proof. intros ->. reflexivity. Qed.

(** X15.  Deleting an existing post, when the store answers, removes the
    post and every media, button, schedule and statistics row that refers to
    it; what [getPostById] returns for any other post is as before, and so
    are the channels. *)
Theorem deletePost_removes_only_that_post (env : Env) (st : State) (postId : Z) (p : Post.t) :
  dbFault env (dbCalls st) = None ->
  find_post (db st) postId = Some p ->
  let st' := snd (deletePost postId env st) in
  fst (deletePost postId env st) = Ok tt
  /\ lookup_post (db st') postId = None
  /\ unreferenced (db st') postId
  /\ (forall other, other <> postId ->
        lookup_post (db st') other = lookup_post (db st) other)
  /\ channels (db st') = channels (db st).
Proof.
  intros Hnf Hp st'. subst st'.
  unfold deletePost, try_catch, ignore, bind, prisma, post_delete, ret.
  rewrite Hnf, Hp. cbn [fst snd db set_db].
  assert (Hun : unreferenced
                  (mkDB (channels (db st))
                     (filter (fun q => negb (Post.id q =? postId)) (posts (db st)))
                     (filter (fun m => negb (Media.post_id m =? postId)) (media (db st)))
                     (filter (fun b => negb (PostButton.post_id b =? postId))
                        (buttons (db st)))
                     (filter (fun s => negb (Schedule.post_id s =? postId))
                        (schedules (db st)))
                     (filter (fun s => negb (PostStatistics.post_id s =? postId))
                        (statistics (db st)))
                     (next_post_id (db st)) (next_media_id (db st))
                     (next_button_id (db st)) (next_schedule_id (db st))) postId).
  { unfold unreferenced, find_post, media_of, buttons_of, schedule_of, statistics_of.
    cbn [posts media buttons schedules statistics].
    repeat split;
      first [ apply find_filtered_out | apply filter_filtered_out ];
      intros x; apply same_id. }
  split; [reflexivity|]. split; [|split; [exact Hun|split; [|reflexivity]]].
  - unfold lookup_post, post_findUnique. cbn [fst].
    destruct Hun as [-> _]. reflexivity.
  - intros other Hne.
    unfold lookup_post, post_findUnique, find_post, media_of, buttons_of, schedule_of,
      statistics_of, find_channel.
    cbn [fst posts media buttons schedules statistics channels].
    rewrite !find_filter, !filter_filter; try reflexivity;
      intros x; apply other_id; exact Hne.
Qed.

Lemma deletePost_removes_only_that_post_witness :
  lookup_post (db (snd (deletePost 1 (Examples.env_of Examples.no_fault Examples.rejecting)
                          (Examples.state_of Examples.two_due)))) 1 = None
  /\ lookup_post (db (snd (deletePost 1
                             (Examples.env_of Examples.no_fault Examples.rejecting)
                             (Examples.state_of Examples.two_due)))) 2
     = lookup_post Examples.two_due 2.
Proof.
  destruct (deletePost_removes_only_that_post
              (Examples.env_of Examples.no_fault Examples.rejecting)
              (Examples.state_of Examples.two_due) 1 Examples.hello)
    as [_ [Hgone [_ [Hkept _]]]].
  - reflexivity.
  - reflexivity.
  - split; [exact Hgone | apply Hkept; discriminate].
Defined.

(** X16.  Writes to a post that does not exist are refused: [updatePost],
    [addMedia], [addButton], [schedulePost] and [deletePost] each throw
    their own message and leave the store as it was, whatever the store
    answers. *)
Theorem writes_to_missing_post_refused (env : Env) (st : State) (postId : Z) :
  find_post (db st) postId = None ->
  (forall text status,
     fst (updatePost postId text status env st) = Throw "Не удалось обновить публикацию"
     /\ db (snd (updatePost postId text status env st)) = db st)
  /\ (forall fileId fileType fileSize caption,
        fst (addMedia postId fileId fileType fileSize caption env st)
        = Throw "Не удалось добавить медиафайл"
        /\ db (snd (addMedia postId fileId fileType fileSize caption env st)) = db st)
  /\ (forall text url row position,
        fst (addButton postId text url row position env st)
        = Throw "Не удалось добавить кнопку"
        /\ db (snd (addButton postId text url row position env st)) = db st)
  /\ (forall scheduledAt,
        fst (schedulePost postId scheduledAt env st)
        = Throw "Не удалось запланировать публикацию"
        /\ db (snd (schedulePost postId scheduledAt env st)) = db st)
  /\ fst (deletePost postId env st) = Throw "Не удалось удалить публикацию"
  /\ db (snd (deletePost postId env st)) = db st.
Proof.
  intros Hp.
  repeat split; intros;
    cbv beta iota delta
      [updatePost addMedia addButton schedulePost deletePost try_catch bind prisma throw ret
       ignore post_update media_count media_create postButton_create schedule_create
       post_delete];
    repeat (first [ rewrite Hp
                  | match goal with
                    | |- context [match dbFault ?e ?n with _ => _ end] =>
                        destruct (dbFault e n)
                    end
                  | progress cbn [fst snd db set_db count_db_call dbCalls] ]);
    reflexivity.
Qed.

Lemma writes_to_missing_post_refused_witness :
  fst (schedulePost 7 5000 (Examples.env_of Examples.no_fault Examples.rejecting)
         (Examples.state_of Examples.one_due))
  = Throw "Не удалось запланировать публикацию"
  /\ db (snd (deletePost 7 (Examples.env_of Examples.no_fault Examples.rejecting)
                (Examples.state_of Examples.one_due))) = Examples.one_due.
Proof.
  destruct (writes_to_missing_post_refused
              (Examples.env_of Examples.no_fault Examples.rejecting)
              (Examples.state_of Examples.one_due) 7)
    as [_ [_ [_ [Hschedule [_ Hdelete]]]]].
  - reflexivity.
  - split; [apply (Hschedule 5000) | exact Hdelete].
Defined.

(** X17.  A post has one schedule: [schedulePost] on a post that already
    has a schedule record throws and leaves the store as it was, whatever
    the store answers. *)
Theorem second_schedule_refused (env : Env) (st : State) (postId scheduledAt : Z)
    (s : Schedule.t) :
  schedule_of (db st) postId = Some s ->
  fst (schedulePost postId scheduledAt env st) = Throw "Не удалось запланировать публикацию"
  /\ db (snd (schedulePost postId scheduledAt env st)) = db st.
Proof.
  intros Hs.
  unfold schedulePost, try_catch, bind, prisma, throw, schedule_create.
  rewrite Hs.
  destruct (dbFault env (dbCalls st)); [split; reflexivity|].
  destruct (find_post (db st) postId); split; reflexivity.
Qed.

Lemma second_schedule_refused_witness :
  fst (schedulePost 1 9000 (Examples.env_of Examples.no_fault Examples.rejecting)
         (Examples.state_of Examples.one_due))
  = Throw "Не удалось запланировать публикацию"
  /\ db (snd (schedulePost 1 9000 (Examples.env_of Examples.no_fault Examples.rejecting)
                (Examples.state_of Examples.one_due))) = Examples.one_due.
Proof.
  apply (second_schedule_refused (Examples.env_of Examples.no_fault Examples.rejecting)
           (Examples.state_of Examples.one_due) 1 9000 Examples.hello_due).
  reflexivity.
Defined.

Lemma incomplete_not_committable (s : Session.t) :
  incomplete s -> committable (Session.postDraft s) = None.
Proof.
  unfold incomplete, committable.
  destruct (Session.postDraft s) as [draft|]; [|reflexivity].
  intros [H | [H | [H | H]]]; rewrite H; simpl; try reflexivity;
    destruct (truthy_number (PostDraft.channelId draft)); reflexivity.
Qed.

Lemma reply_quietly_only_replied (env : Env) (st : State) (notice : string) :
  only_replied env st (reply_quietly notice env st).
Proof.
  unfold only_replied, reply_quietly, try_catch, ignore, bind, telegram, ret.
  destruct (tgResult env (tgCalls st)); simpl; repeat split; eexists; reflexivity.
Qed.

(** X18.  A commit of an incomplete draft stores nothing: when there is
    no draft, or its channel is absent or 0, or its text is absent or empty,
    each of the three commit handlers makes no query, leaves the store and
    the session as they are, and answers with one reply. *)
Theorem incomplete_draft_is_not_committed (formatDate : Z -> string) (env : Env)
    (st : State) :
  incomplete (session st) ->
  only_replied env st (handlePublishNow env st)
  /\ only_replied env st (handleSaveDraft env st)
  /\ only_replied env st (handleScheduledPost formatDate env st).
Proof.
  intros H. apply incomplete_not_committable in H.
  assert (Hpublish : handlePublishNow env st
                     = reply_quietly "❌ Недостаточно данных для публикации" env st).
  { unfold handlePublishNow, getPostDraft, getSession.
    unfold bind at 1. unfold bind at 1. unfold ret at 1. cbv beta iota.
    rewrite H. reflexivity. }
  assert (Hsave : handleSaveDraft env st
                  = reply_quietly "❌ Недостаточно данных для сохранения черновика" env st).
  { unfold handleSaveDraft, getPostDraft, getSession.
    unfold bind at 1. unfold bind at 1. unfold ret at 1. cbv beta iota.
    rewrite H. reflexivity. }
  assert (Hschedule : handleScheduledPost formatDate env st
                      = reply_quietly "❌ Недостаточно данных" env st).
  { unfold handleScheduledPost, getPostDraft, getSession.
    unfold bind at 1. unfold bind at 1. unfold ret at 1. cbv beta iota.
    rewrite H. reflexivity. }
  rewrite Hpublish, Hsave, Hschedule.
  split; [|split]; apply reply_quietly_only_replied.
Qed.

Lemma incomplete_draft_is_not_committed_witness :
  only_replied (Examples.env_of Examples.no_fault (Examples.delivering 5))
    (Examples.state_of Examples.one_due)
    (handlePublishNow (Examples.env_of Examples.no_fault (Examples.delivering 5))
       (Examples.state_of Examples.one_due)).
Proof.
  apply (incomplete_draft_is_not_committed Examples.formatDate
           (Examples.env_of Examples.no_fault (Examples.delivering 5))
           (Examples.state_of Examples.one_due)).
  exact I.
Defined.

(** X19.  Whatever is uploaded, in whatever state: the handler leaves the
    store alone, keeps the files the draft already holds in their order and
    adds at most one file after them, at the position that is the number of
    files held before; a file it adds has no known size above the limit of
    its type; and a draft with at most 10 files still has at most 10. *)
Theorem upload_keeps_draft_within_limits (env : Env) (st : State) (message : Message.t)
    (type : UploadType) :
  let st' := snd (handleMediaUpload message type env st) in
  db st' = db st
  /\ Session.awaitingInput (session st') = Session.awaitingInput (session st)
  /\ Session.currentOperation (session st') = Session.currentOperation (session st)
  /\ exists added,
       session_files st' = session_files st ++ added
       /\ (length added <= 1)%nat
       /\ (length (session_files st) <= 10 -> length (session_files st') <= 10)%nat
       /\ Forall within_limit added
       /\ map SessionMediaFile.position added
          = map (fun _ => Z.of_nat (length (session_files st))) added.
Proof.
  intros st'. subst st'.
  assert (Hnone : forall st0 : State,
            db st0 = db st -> session st0 = session st ->
            db st0 = db st
            /\ Session.awaitingInput (session st0) = Session.awaitingInput (session st)
            /\ Session.currentOperation (session st0) = Session.currentOperation (session st)
            /\ exists added,
                 session_files st0 = session_files st ++ added
                 /\ (length added <= 1)%nat
                 /\ (length (session_files st) <= 10 -> length (session_files st0) <= 10)%nat
                 /\ Forall within_limit added
                 /\ map SessionMediaFile.position added
                    = map (fun _ => Z.of_nat (length (session_files st))) added).
  { intros st0 Hdb Hs. unfold session_files. rewrite Hs.
    repeat split; try assumption. exists []. rewrite app_nil_r.
    repeat split; auto. }
  unfold handleMediaUpload, getAwaitingInput, getPostDraft, getSession, updatePostDraft,
    putSession, error_text.
  cbv beta iota delta [bind ret try_catch telegram].
  destruct (is_awaiting input_media (Session.awaitingInput (session st))); cbn [negb];
    [|apply Hnone; reflexivity].
  destruct (Session.postDraft (session st)) as [draft|] eqn:Hdraft.
  2:{ destruct (tgResult env (tgCalls st)); apply Hnone; reflexivity. }
  destruct (extract_file message type) as [[file mediaType]|] eqn:Hfile;
    [|apply Hnone; reflexivity].
  set (sizeValidation :=
         match truthy_number (TgFile.file_size file) with
         | Some size =>
             validateMediaSize size
               match type with
               | up_animation => up_document
               | _ => type
               end
         | None => Validation.ok
         end).
  destruct (Validation.valid sizeValidation) eqn:Hsize; cbn [negb].
  2:{ destruct (tgResult env (tgCalls st)); cbn [fst snd];
        [apply Hnone; reflexivity|].
      destruct (tgResult env (tgCalls _)); apply Hnone; reflexivity. }
  destruct (Validation.valid
              (validateMediaGroupSize
                 (Z.of_nat (length match PostDraft.mediaFiles draft with
                                   | Some files => files
                                   | None => []
                                   end) + 1))) eqn:Hgroup; cbn [negb].
  2:{ destruct (tgResult env (tgCalls st)); cbn [fst snd];
        [apply Hnone; reflexivity|].
      destruct (tgResult env (tgCalls _)); apply Hnone; reflexivity. }
  assert (Hlimit : within_limit
                     (SessionMediaFile.mk (TgFile.file_id file) mediaType
                        (TgFile.file_size file) (Message.caption message)
                        (Z.of_nat (length (files_of draft))))).
  { unfold within_limit. cbn [SessionMediaFile.fileSize SessionMediaFile.fileType].
    subst sizeValidation. unfold validateMediaSize in Hsize.
    destruct (TgFile.file_size file) as [size|]; [|exact I].
    destruct (Z.eq_dec size 0) as [->|Hnz].
    { unfold size_limit, LIMITS.MAX_PHOTO_SIZE, LIMITS.MAX_VIDEO_SIZE,
        LIMITS.MAX_DOCUMENT_SIZE. destruct mediaType; lia. }
    assert (Ht : truthy_number (Some size) = Some size) 
      by (destruct size; [exfalso; apply Hnz; reflexivity | reflexivity | reflexivity]).
    rewrite Ht in Hsize.
    unfold extract_file in Hfile.
    destruct type;
      [ destruct (Message.photo message) as [photos|]; [|discriminate];
        destruct (rev photos); [discriminate|]
      | destruct (Message.video message); [|discriminate]
      | destruct (Message.document message); [|discriminate]
      | destruct (Message.animation message); [|discriminate] ];
      injection Hfile as _ <-; cbn [size_limit];
      match type of Hsize with
      | Validation.valid (if ?c then _ else _) = true =>
          destruct c eqn:E; [discriminate | apply Z.ltb_ge in E; exact E]
      end. }
  assert (Hcount : (length (files_of draft) + 1 <= 10)%nat).
  { unfold validateMediaGroupSize, LIMITS.MAX_MEDIA_GROUP in Hgroup. fold (files_of draft) in Hgroup.
    destruct (10 <? Z.of_nat (length (files_of draft)) + 1) eqn:E; [discriminate|].
    apply Z.ltb_ge in E. lia. }
  fold (files_of draft).
  assert (Hsome : forall st0 : State,
            db st0 = db st ->
            session st0
            = Session.mk
                (Some (merge_draft draft
                         (PostDraft.mk None None None
                            (Some (files_of draft
                                   ++ [SessionMediaFile.mk (TgFile.file_id file) mediaType
                                         (TgFile.file_size file) (Message.caption message)
                                         (Z.of_nat (length (files_of draft)))]))
                            None None None None)))
                (Session.awaitingInput (session st))
                (Session.currentOperation (session st)) ->
            db st0 = db st
            /\ Session.awaitingInput (session st0) = Session.awaitingInput (session st)
            /\ Session.currentOperation (session st0) = Session.currentOperation (session st)
            /\ exists added,
                 session_files st0 = session_files st ++ added
                 /\ (length added <= 1)%nat
                 /\ (length (session_files st) <= 10 -> length (session_files st0) <= 10)%nat
                 /\ Forall within_limit added
                 /\ map SessionMediaFile.position added
                    = map (fun _ => Z.of_nat (length (session_files st))) added).
  { intros st0 Hdb Hs. unfold session_files. rewrite Hs, Hdraft.
    cbn [Session.postDraft Session.awaitingInput Session.currentOperation].
    repeat split; try assumption.
    exists [SessionMediaFile.mk (TgFile.file_id file) mediaType (TgFile.file_size file)
              (Message.caption message) (Z.of_nat (length (files_of draft)))].
    change (files_of (merge_draft draft _))
      with (files_of draft
            ++ [SessionMediaFile.mk (TgFile.file_id file) mediaType (TgFile.file_size file)
                  (Message.caption message) (Z.of_nat (length (files_of draft)))]).
    rewrite length_app. cbn [length map SessionMediaFile.position].
    repeat split; [lia | lia | repeat constructor; exact Hlimit]. }
  unfold getSession. cbv beta iota.
  cbn [session set_session db tgCalls apiLog dbCalls]. rewrite Hdraft.
  destruct (tgResult env (tgCalls st)); cbn [fst snd];
    [apply Hsome; reflexivity|].
  destruct (tgResult env _); apply Hsome; reflexivity.
Qed.

Lemma urls_fold (bs : list PostButton.t) :
  forall (k0 : InlineKeyboard) (r : list KeyboardButton),
    fold_left
      (fun k button => keyboard_url (PostButton.text button) (PostButton.url button) k)
      bs (k0 ++ [r])
    = k0 ++ [r ++ map button_label bs].
Proof.
  induction bs as [|b bs IH]; intros k0 r; simpl.
  - rewrite app_nil_r. reflexivity.
  - unfold keyboard_url at 2. rewrite removelast_last, last_last.
    rewrite IH, <- app_assoc. reflexivity.
Qed.

Lemma rows_fold (m : ButtonMap) (rows : list Z) :
  forall k0 : InlineKeyboard,
    fold_left
      (fun keyboard row =>
         keyboard_row
           (fold_left
              (fun k button =>
                 keyboard_url (PostButton.text button) (PostButton.url button) k)
              (sort_by position_le (map_get row m)) keyboard))
      rows (k0 ++ [[]])
    = k0
      ++ map (fun row => map button_label (sort_by position_le (map_get row m))) rows
      ++ [[]].
Proof.
  induction rows as [|row rows IH]; intros k0; simpl; [reflexivity|].
  rewrite urls_fold. unfold keyboard_row. simpl.
  rewrite IH, <- app_assoc. reflexivity.
Qed.

Lemma build_keyboard_rows (buttons : list PostButton.t) :
  build_keyboard buttons
  = map (map button_label)
      (map (fun row => sort_by position_le (map_get row (group_by_row buttons)))
         (sort_by default_sort_le (map fst (group_by_row buttons))))
    ++ [[]].
Proof.
  unfold build_keyboard, keyboard_new.
  rewrite (rows_fold (group_by_row buttons) _ []). simpl.
  rewrite map_map. reflexivity.
Qed.

Lemma map_get_push (row r : Z) (b : PostButton.t) (m : ButtonMap) :
  map_get r (map_push row b m)
  = if row =? r then map_get r m ++ [b] else map_get r m.
Proof.
  induction m as [|[k bs] m IH]; simpl.
  - rewrite Z.eqb_sym. destruct (r =? row); reflexivity.
  - destruct (k =? row) eqn:Ek; simpl.
    + apply Z.eqb_eq in Ek. subst k.
      destruct (row =? r) eqn:Er; reflexivity.
    + destruct (k =? r) eqn:Ekr.
      * apply Z.eqb_eq in Ekr. subst k. rewrite Z.eqb_sym, Ek. reflexivity.
      * exact IH.
Qed.

Lemma keys_push (row : Z) (b : PostButton.t) (m : ButtonMap) :
  map fst (map_push row b m)
  = if existsb (Z.eqb row) (map fst m) then map fst m else map fst m ++ [row].
Proof.
  induction m as [|[k bs] m IH]; simpl; [reflexivity|].
  rewrite (Z.eqb_sym row k).
  destruct (k =? row); simpl; [reflexivity|].
  rewrite IH. destruct (existsb (Z.eqb row) (map fst m)); reflexivity.
Qed.

Lemma group_fold (buttons : list PostButton.t) :
  forall m0 : ButtonMap,
    let m := fold_left (fun m button => map_push (PostButton.row button) button m)
               buttons m0 in
    (forall r, map_get r m
               = map_get r m0 ++ filter (fun b => PostButton.row b =? r) buttons)
    /\ (NoDup (map fst m0) -> NoDup (map fst m))
    /\ (forall r, In r (map fst m)
                  <-> In r (map fst m0) \/ exists b, In b buttons /\ PostButton.row b = r).
Proof.
  induction buttons as [|b buttons IH]; intros m0; simpl.
  - split; [intros r; rewrite app_nil_r; reflexivity|].
    split; [auto|]. intros r. split; [auto | intros [H | [b [[] _]]]; exact H].
  - destruct (IH (map_push (PostButton.row b) b m0)) as [Hget [Hnodup Hkeys]].
    assert (Hin : existsb (Z.eqb (PostButton.row b)) (map fst m0) = true
                  <-> In (PostButton.row b) (map fst m0)).
    { rewrite existsb_exists. split.
      - intros [x [Hx E]]. apply Z.eqb_eq in E. subst x. exact Hx.
      - intros H. exists (PostButton.row b). split; [exact H | apply Z.eqb_refl]. }
    split; [|split].
    + intros r. rewrite Hget, map_get_push.
      destruct (PostButton.row b =? r); [rewrite <- app_assoc|]; reflexivity.
    + intros H. apply Hnodup. rewrite keys_push.
      destruct (existsb (Z.eqb (PostButton.row b)) (map fst m0)) eqn:E; [exact H|].
      apply NoDup_app; [exact H | repeat constructor; intros [] |].
      intros x Hx [<-|[]]. apply Hin in Hx. discriminate.
    + intros r. rewrite Hkeys, keys_push.
      destruct (existsb (Z.eqb (PostButton.row b)) (map fst m0)) eqn:E.
      * assert (Hb : In (PostButton.row b) (map fst m0)) by (apply Hin; reflexivity).
        split.
        -- intros [H | [x [Hx Hr]]]; [left; exact H | right; exists x; auto].
        -- intros [H | [x [[<-|Hx] Hr]]];
             [left; exact H | left; rewrite <- Hr; exact Hb | right; exists x; auto].
      * rewrite in_app_iff. simpl. split.
        -- intros [[H | [H | []]] | [x [Hx Hr]]];
             [left; exact H | right; exists b; auto | right; exists x; auto].
        -- intros [H | [x [[<-|Hx] Hr]]];
             [left; left; exact H | left; right; left; exact Hr | right; exists x; auto].
Qed.

Lemma group_by_row_spec (buttons : list PostButton.t) :
  (forall r, map_get r (group_by_row buttons)
             = filter (fun b => PostButton.row b =? r) buttons)
  /\ NoDup (map fst (group_by_row buttons))
  /\ (forall r, In r (map fst (group_by_row buttons))
                <-> exists b, In b buttons /\ PostButton.row b = r).
Proof.
  destruct (group_fold buttons []) as [Hget [Hnodup Hkeys]].
  split; [exact Hget|]. split; [apply Hnodup; constructor|].
  intros r. rewrite (Hkeys r). simpl. tauto.
Qed.

Lemma filter_split {A : Type} (f : A -> bool) (l : list A) :
  Permutation l (filter f l ++ filter (fun x => negb (f x)) l).
Proof.
  induction l as [|x l IH]; simpl; [reflexivity|].
  destruct (f x); simpl.
  - apply perm_skip. exact IH.
  - apply Permutation_cons_app. exact IH.
Qed.

Lemma rows_cover (keys : list Z) :
  forall l : list PostButton.t,
    NoDup keys ->
    (forall b, In b l -> In (PostButton.row b) keys) ->
    Permutation
      (concat (map (fun k => filter (fun b => PostButton.row b =? k) l) keys)) l.
Proof.
  induction keys as [|k keys IH]; intros l Hnodup Hcover.
  - destruct l as [|b l]; [reflexivity|]. destruct (Hcover b (or_introl eq_refl)).
  - inversion Hnodup as [|k' keys' Hk Hrest]; subst. simpl.
    rewrite (filter_split (fun b => PostButton.row b =? k) l) at 2.
    apply Permutation_app_head.
    rewrite <- (IH (filter (fun b => negb (PostButton.row b =? k)) l) Hrest).
    + apply Permutation_refl'. f_equal. apply map_ext_in. intros k2 Hk2.
      induction l as [|b l IHl]; [reflexivity|]. simpl.
      destruct (PostButton.row b =? k) eqn:E; simpl.
      * apply Z.eqb_eq in E.
        destruct (PostButton.row b =? k2) eqn:E2.
        -- apply Z.eqb_eq in E2. exfalso. apply Hk. congruence.
        -- apply IHl. intros x Hx. apply Hcover. right. exact Hx.
      * destruct (PostButton.row b =? k2);
          [f_equal|]; apply IHl; intros x Hx; apply Hcover; right; exact Hx.
    + intros b Hb. apply filter_In in Hb as [Hb Hne].
      destruct (Hcover b Hb) as [E|H]; [|exact H].
      rewrite E, Z.eqb_refl in Hne. discriminate.
Qed.

Lemma concat_perm {A : Type} (f g : Z -> list A) (keys keys' : list Z) :
  Permutation keys keys' ->
  (forall k, Permutation (f k) (g k)) ->
  Permutation (concat (map f keys)) (concat (map g keys')).
Proof.
  intros Hkeys Hfg.
  transitivity (concat (map f keys')).
  - rewrite <- !flat_map_concat_map. apply Permutation_flat_map. exact Hkeys.
  - clear Hkeys. induction keys' as [|k l IH]; simpl; [reflexivity|].
    apply Permutation_app; [apply Hfg | exact IH].
Qed.

Lemma position_le_total (a b : PostButton.t) :
  position_le a b = false -> position_le b a = true.
Proof.
  unfold position_le. intros H. apply Z.leb_gt in H. apply Z.leb_le. lia.
Qed.

Lemma keyboard_layout (buttons : list PostButton.t) :
  let keys := sort_by default_sort_le (map fst (group_by_row buttons)) in
  let arrangement :=
    map (fun k => sort_by position_le (filter (fun b => PostButton.row b =? k) buttons))
      keys in
  build_keyboard buttons = map (map button_label) arrangement ++ [[]]
  /\ Permutation (concat arrangement) buttons
  /\ Forall one_row arrangement
  /\ map row_number arrangement = keys
  /\ NoDup keys
  /\ (forall k, In k keys -> exists b, In b buttons /\ PostButton.row b = k).
Proof.
  intros keys arrangement.
  destruct (group_by_row_spec buttons) as [Hget [Hnodup Hkeys]].
  assert (Hperm : Permutation keys (map fst (group_by_row buttons)))
    by apply sort_by_permutation.
  assert (Hin : forall k, In k keys -> exists b, In b buttons /\ PostButton.row b = k).
  { intros k Hk. apply Hkeys. apply (Permutation_in _ Hperm). exact Hk. }
  assert (Hrow : forall k, In k keys ->
            one_row (sort_by position_le
                       (filter (fun b => PostButton.row b =? k) buttons))
            /\ row_number (sort_by position_le
                             (filter (fun b => PostButton.row b =? k) buttons)) = k).
  { intros k Hk. destruct (Hin k Hk) as [b [Hb Hr]].
    assert (Hmem : forall x,
              In x (sort_by position_le
                      (filter (fun b => PostButton.row b =? k) buttons)) ->
              PostButton.row x = k).
    { intros x Hx. apply (Permutation_in _ (sort_by_permutation _ _)) in Hx.
      apply filter_In in Hx as [_ E]. apply Z.eqb_eq in E. exact E. }
    assert (Hb' : In b (sort_by position_le
                          (filter (fun b => PostButton.row b =? k) buttons))).
    { apply (Permutation_in _ (Permutation_sym (sort_by_permutation _ _))).
      apply filter_In. split; [exact Hb | apply Z.eqb_eq; exact Hr]. }
    destruct (sort_by position_le (filter (fun b => PostButton.row b =? k) buttons))
      as [|x r] eqn:E; [destruct Hb'|].
    split.
    - split; [discriminate|]. split.
      + rewrite <- E. apply sort_by_is_sorted. exact position_le_total.
      + intros a c Ha Hc. rewrite (Hmem a Ha), (Hmem c Hc). reflexivity.
    - apply Hmem. left. reflexivity. }
  split; [|split; [|split; [|split; [|split]]]].
  - rewrite build_keyboard_rows. subst arrangement keys. do 2 f_equal.
    apply map_ext. intros k. rewrite Hget. reflexivity.
  - subst arrangement.
    transitivity (concat (map (fun k => filter (fun b => PostButton.row b =? k) buttons)
                            (map fst (group_by_row buttons)))).
    + apply concat_perm; [exact Hperm|]. intros k. apply sort_by_permutation.
    + apply rows_cover; [exact Hnodup|]. intros b Hb. apply Hkeys. exists b. auto.
  - subst arrangement. apply Forall_forall. intros r Hr.
    apply in_map_iff in Hr as [k [<- Hk]]. apply (Hrow k Hk).
  - subst arrangement. rewrite map_map.
    rewrite <- (map_id keys) at 2. apply map_ext_in. intros k Hk. apply (Hrow k Hk).
  - apply (Permutation_NoDup (Permutation_sym Hperm)). exact Hnodup.
  - exact Hin.
Qed.

(** X20.  Every button of a post is shown once.  The keyboard is an
    arrangement of the post's buttons followed by one empty row: each
    button is in exactly one keyboard row, a keyboard row holds the buttons
    of one row number in the order of their positions, and no two keyboard
    rows hold the same row number. *)
Theorem keyboard_shows_every_button_once (buttons : list PostButton.t) :
  exists arrangement : list (list PostButton.t),
    build_keyboard buttons = map (map button_label) arrangement ++ [[]]
    /\ Permutation (concat arrangement) buttons
    /\ Forall one_row arrangement
    /\ NoDup (map row_number arrangement).
Proof.
  destruct (keyboard_layout buttons) as (Hbuild & Hperm & Hrows & Hnumbers & Hnodup & _).
  eexists. split; [exact Hbuild|]. split; [exact Hperm|]. split; [exact Hrows|].
  rewrite Hnumbers. exact Hnodup.
Qed.

Lemma insert_by_ext {A : Type} (le1 le2 : A -> A -> bool) (x : A) (l : list A) :
  (forall y, In y l -> le1 x y = le2 x y) ->
  insert_by le1 x l = insert_by le2 x l.
Proof.
  induction l as [|y l IH]; intros H; [reflexivity|]. simpl.
  rewrite (H y (or_introl eq_refl)).
  destruct (le2 x y); [reflexivity|].
  f_equal. apply IH. intros z Hz. apply H. right. exact Hz.
Qed.

Lemma sort_by_ext {A : Type} (le1 le2 : A -> A -> bool) (l : list A) :
  (forall x y, In x l -> In y l -> le1 x y = le2 x y) ->
  sort_by le1 l = sort_by le2 l.
Proof.
  induction l as [|x l IH]; intros H; [reflexivity|]. simpl.
  change (fold_right (insert_by le1) [] l) with (sort_by le1 l).
  change (fold_right (insert_by le2) [] l) with (sort_by le2 l).
  rewrite IH.
  - apply insert_by_ext. intros y Hy.
    apply H; [left; reflexivity | right].
    apply (Permutation_in _ (sort_by_permutation le2 l)). exact Hy.
  - intros a b Ha Hb. apply H; right; assumption.
Qed.

Lemma default_sort_below_ten (a b : Z) :
  0 <= a <= 9 -> 0 <= b <= 9 -> default_sort_le a b = (a <=? b).
Proof.
  intros Ha Hb.
  assert (Ea : a = 0 \/ a = 1 \/ a = 2 \/ a = 3 \/ a = 4 \/ a = 5 \/ a = 6 \/ a = 7
               \/ a = 8 \/ a = 9) by lia.
  assert (Eb : b = 0 \/ b = 1 \/ b = 2 \/ b = 3 \/ b = 4 \/ b = 5 \/ b = 6 \/ b = 7
               \/ b = 8 \/ b = 9) by lia.
  clear Ha Hb.
  repeat (destruct Ea as [-> | Ea]); try subst a;
    repeat (destruct Eb as [-> | Eb]); try subst b; reflexivity.
Qed.

Lemma leb_total (a b : Z) : (a <=? b) = false -> (b <=? a) = true.
Proof. intros H. apply Z.leb_gt in H. apply Z.leb_le. lia. Qed.

Lemma sorted_strictly (l : list Z) :
  NoDup l -> sorted_by Z.leb l -> sorted_by Z.ltb l.
Proof.
  induction l as [|x l IH]; intros Hnodup H; [exact I|].
  destruct l as [|y l]; [exact I|].
  destruct H as [Hxy Hl]. inversion Hnodup as [|x' l' Hx Hrest]; subst.
  split; [|apply IH; assumption].
  apply Z.leb_le in Hxy. apply Z.ltb_lt.
  assert (x <> y) by (intros ->; apply Hx; left; reflexivity). lia.
Qed.

(** X21.  When every row number lies in [0 .. 9], the keyboard rows come
    in strictly ascending order of their row number (and hold the buttons
    as in X20). *)
Theorem keyboard_rows_ascend_below_ten (buttons : list PostButton.t) :
  Forall (fun b => 0 <= PostButton.row b <= 9) buttons ->
  exists arrangement : list (list PostButton.t),
    build_keyboard buttons = map (map button_label) arrangement ++ [[]]
    /\ Permutation (concat arrangement) buttons
    /\ Forall one_row arrangement
    /\ sorted_by Z.ltb (map row_number arrangement).
Proof.
  intros Hrange.
  destruct (keyboard_layout buttons) as (Hbuild & Hperm & Hrows & Hnumbers & Hnodup & Hin).
  eexists. split; [exact Hbuild|]. split; [exact Hperm|]. split; [exact Hrows|].
  rewrite Hnumbers. apply sorted_strictly; [exact Hnodup|].
  rewrite (sort_by_ext default_sort_le Z.leb).
  - apply sort_by_is_sorted. exact leb_total.
  - assert (Hkey : forall k, In k (map fst (group_by_row buttons)) -> 0 <= k <= 9).
    { intros k Hk.
      destruct (Hin k) as [b [Hb <-]].
      - apply (Permutation_in _ (Permutation_sym (sort_by_permutation _ _))). exact Hk.
      - rewrite Forall_forall in Hrange. apply Hrange. exact Hb. }
    intros x y Hx Hy. apply default_sort_below_ten; apply Hkey; assumption.
Qed.

Lemma keyboard_rows_ascend_below_ten_witness :
  exists arrangement : list (list PostButton.t),
    build_keyboard [Examples.more_button; Examples.site_button]
    = map (map button_label) arrangement ++ [[]]
    /\ Permutation (concat arrangement) [Examples.more_button; Examples.site_button]
    /\ Forall one_row arrangement
    /\ sorted_by Z.ltb (map row_number arrangement).
Proof.
  apply (keyboard_rows_ascend_below_ten [Examples.more_button; Examples.site_button]).
  repeat constructor; vm_compute; discriminate.
Defined.

Lemma occurs_app (c : ascii) (a b : string) :
  occurs c (a +++ b) = occurs c a || occurs c b.
Proof.
  induction a as [|x a IH]; simpl; [reflexivity|].
  rewrite IH, orb_assoc. reflexivity.
Qed.

Lemma replace_removes (c : ascii) (replacement s : string) :
  occurs c replacement = false -> occurs c (replace_char c replacement s) = false.
Proof.
  intros H. induction s as [|x s IH]; simpl; [reflexivity|].
  destruct (Ascii.eqb x c) eqn:E.
  - rewrite occurs_app, H, IH. reflexivity.
  - simpl. rewrite E, IH. reflexivity.
Qed.

Lemma replace_keeps_out (c d : ascii) (replacement s : string) :
  occurs d replacement = false -> occurs d s = false ->
  occurs d (replace_char c replacement s) = false.
Proof.
  intros H. induction s as [|x s IH]; simpl; [reflexivity|].
  intros Hs. apply orb_false_iff in Hs as [Hx Hs].
  destruct (Ascii.eqb x c).
  - rewrite occurs_app, H, (IH Hs). reflexivity.
  - simpl. rewrite Hx, (IH Hs). reflexivity.
Qed.

Lemma replace_absent (c : ascii) (replacement s : string) :
  occurs c s = false -> replace_char c replacement s = s.
Proof.
  induction s as [|x s IH]; simpl; [reflexivity|].
  intros H. apply orb_false_iff in H as [Hx Hs].
  rewrite Hx, (IH Hs). reflexivity.
Qed.

Lemma no_tag_without_lt (fuel : nat) :
  forall s, occurs "<" s = false -> exec_all fuel s = [].
Proof.
  induction fuel as [|fuel IH]; intros s H; [reflexivity|].
  destruct s as [|x s]; [reflexivity|].
  simpl in H. apply orb_false_iff in H as [Hx Hs].
  assert (Hnone : match_at (String x s) = None).
  { unfold match_at.
    destruct x as [[] [] [] [] [] [] [] []]; try reflexivity. discriminate. }
  cbn [exec_all]. rewrite Hnone. apply IH. exact Hs.
Qed.

(** X22.  Escaped text holds no markup: the result of [escapeHTML] holds
    none of the characters [<], [>], the double quote and the apostrophe,
    [validateHTML] accepts it, and a text without the five escaped
    characters is returned as it is. *)
Theorem escaped_text_is_accepted_markup (text : string) :
  occurs "<" (escapeHTML text) = false
  /\ occurs ">" (escapeHTML text) = false
  /\ occurs double_quote (escapeHTML text) = false
  /\ occurs "'" (escapeHTML text) = false
  /\ validateHTML (escapeHTML text) = Validation.ok
  /\ (occurs "&" text = false -> occurs "<" text = false -> occurs ">" text = false ->
      occurs double_quote text = false -> occurs "'" text = false ->
      escapeHTML text = text).
Proof.
  assert (Hlt : occurs "<" (escapeHTML text) = false).
  { unfold escapeHTML.
    do 3 (apply replace_keeps_out; [reflexivity|]).
    apply replace_removes. reflexivity. }
  split; [exact Hlt|]. split; [|split; [|split; [|split]]].
  - unfold escapeHTML.
    do 2 (apply replace_keeps_out; [reflexivity|]).
    apply replace_removes. reflexivity.
  - unfold escapeHTML.
    apply replace_keeps_out; [reflexivity|].
    apply replace_removes. reflexivity.
  - unfold escapeHTML. apply replace_removes. reflexivity.
  - unfold validateHTML, tag_matches. rewrite (no_tag_without_lt _ _ Hlt). reflexivity.
  - intros H1 H2 H3 H4 H5. unfold escapeHTML.
    rewrite (replace_absent "&" _ text H1), (replace_absent "<" _ text H2),
      (replace_absent ">" _ text H3), (replace_absent double_quote _ text H4),
      (replace_absent "'" _ text H5).
    reflexivity.
Qed.

Lemma truncateText_length (text : list CodeUnit) (maxLength : Z) :
  Z.of_nat (length (truncateText text maxLength)) <= Z.max maxLength 3.
Proof.
  unfold truncateText, substring_from_start.
  destruct (Z.of_nat (length text) <=? maxLength) eqn:E.
  - apply Z.leb_le in E. lia.
  - apply Z.leb_gt in E. rewrite length_app, length_firstn. simpl length. lia.
Qed.

Lemma strip_tags_subset (text : list CodeUnit) :
  forall inside c, In c (strip_tags inside text) -> In c text.
Proof.
  induction text as [|x text IH]; intros inside c H; [destruct H|].
  simpl in H. destruct inside.
  - destruct (N.eqb x gt_sign); right; apply (IH _ _ H).
  - destruct (N.eqb x lt_sign && existsb (N.eqb gt_sign) text).
    + right. apply (IH _ _ H).
    + destruct H as [<-|H]; [left; reflexivity | right; apply (IH _ _ H)].
Qed.

Lemma no_gt_kept (text : list CodeUnit) (inside : bool) :
  existsb (N.eqb gt_sign) text = false ->
  existsb (N.eqb gt_sign) (strip_tags inside text) = false.
Proof.
  intros H. destruct (existsb (N.eqb gt_sign) (strip_tags inside text)) eqn:E;
    [|reflexivity].
  apply existsb_exists in E as [c [Hc Hgt]].
  apply strip_tags_subset in Hc.
  assert (Hex : existsb (N.eqb gt_sign) text = true)
    by (apply existsb_exists; exists c; auto).
  congruence.
Qed.

Lemma strip_tags_no_tag (text : list CodeUnit) :
  forall inside, has_tag (strip_tags inside text) = false.
Proof.
  induction text as [|c text IH]; intros inside; [reflexivity|].
  simpl. destruct inside.
  - destruct (N.eqb c gt_sign); apply IH.
  - destruct (N.eqb c lt_sign) eqn:Ec; simpl.
    + destruct (existsb (N.eqb gt_sign) text) eqn:Egt; simpl; [apply IH|].
      rewrite Ec, (no_gt_kept text false Egt), IH. reflexivity.
    + rewrite Ec, IH. reflexivity.
Qed.

Lemma existsb_firstn (f : CodeUnit -> bool) (n : nat) (text : list CodeUnit) :
  existsb f text = false -> existsb f (firstn n text) = false.
Proof.
  revert n. induction text as [|c text IH]; intros n H; [destruct n; reflexivity|].
  destruct n; [reflexivity|]. simpl in *.
  apply orb_false_iff in H as [Hc H]. rewrite Hc, (IH n H). reflexivity.
Qed.

Lemma has_tag_prefix (n : nat) (text tail : list CodeUnit) :
  has_tag text = false ->
  existsb (N.eqb gt_sign) tail = false -> has_tag tail = false ->
  has_tag (firstn n text ++ tail) = false.
Proof.
  intros H Hgt Htail. revert n H.
  induction text as [|c text IH]; intros n H; [destruct n; exact Htail|].
  destruct n; [exact Htail|].
  cbn [has_tag] in H. apply orb_false_iff in H as [Hc H].
  cbn [firstn app has_tag]. rewrite (IH n H), orb_false_r.
  destruct (N.eqb c lt_sign); [|reflexivity].
  cbn [andb] in *.
  rewrite existsb_app. apply orb_false_iff. split; [apply existsb_firstn; exact Hc | exact Hgt].
Qed.

Lemma strip_tags_plain (text : list CodeUnit) :
  existsb (N.eqb lt_sign) text = false -> strip_tags false text = text.
Proof.
  induction text as [|c text IH]; intros H; [reflexivity|].
  cbn [existsb] in H. apply orb_false_iff in H as [Hc H].
  rewrite N.eqb_sym in Hc. cbn [strip_tags]. rewrite Hc, (IH H). reflexivity.
Qed.

(** X23.  A preview holds no tag and fits the limit: in the result of
    [formatPostPreview] no [<] is followed by a [>], its length is at most
    [maxLength], or 3 when [maxLength] is below 3, and a text without [<]
    that fits is returned as it is. *)
Theorem preview_has_no_tag_and_fits (text : list CodeUnit) (maxLength : Z) :
  has_tag (formatPostPreview text maxLength) = false
  /\ Z.of_nat (length (formatPostPreview text maxLength)) <= Z.max maxLength 3
  /\ (existsb (N.eqb lt_sign) text = false ->
      Z.of_nat (length text) <= maxLength ->
      formatPostPreview text maxLength = text).
Proof.
  unfold formatPostPreview. split; [|split].
  - unfold truncateText, substring_from_start.
    destruct (Z.of_nat (length (strip_tags false text)) <=? maxLength).
    + apply strip_tags_no_tag.
    + apply has_tag_prefix; [apply strip_tags_no_tag | reflexivity | reflexivity].
  - apply truncateText_length.
  - intros Hplain Hlen. rewrite (strip_tags_plain text Hplain).
    unfold truncateText. apply Z.leb_le in Hlen. rewrite Hlen. reflexivity.
Qed.

(** X24.  A post with two or more media and at least one button is
    delivered in two requests: the media group, then a message that carries
    the keyboard.  When the platform accepts the first and rejects the
    second, the delivery returns [false] and the post is recorded FAILED,
    with the remote message id it had before, although the channel has
    received the media. *)
Theorem album_without_keyboard_is_recorded_failed (env : Env) (st : State) (postId : Z)
    (p : Post.t) (c : Channel.t) (message_id : Z) (e : string) :
  no_rejection env ->
  find_post (db st) postId = Some p ->
  find_channel (db st) (Post.channel_id p) = Some c ->
  (2 <= length (media_of (db st) postId))%nat ->
  buttons_of (db st) postId <> [] ->
  tgResult env (tgCalls st) = Delivered message_id ->
  tgResult env (S (tgCalls st)) = Rejected e ->
  let keyboard := build_keyboard (sort_by button_le (buttons_of (db st) postId)) in
  let album := build_media_group (Post.text p) 0
                 (sort_by media_le (media_of (db st) postId)) in
  let st' := snd (publishPostToTelegram postId env st) in
  fst (publishPostToTelegram postId env st) = Ok false
  /\ apiLog st'
     = apiLog st
       ++ [(sendMediaGroup (Channel.channel_id c) album, Delivered message_id);
           (sendMessage (Channel.channel_id c) "⬆️" (Some keyboard), Rejected e)]
  /\ find_post (db st') postId
     = Some (Post.mk (Post.id p) (Post.channel_id p) (Post.text p) PostStatus.FAILED
               (Post.published_at p) (Post.telegram_message_id p)).
Proof.
  intros Hnf Hp Hc Hmedia Hbuttons Htg1 Htg2 keyboard album st'.
  subst keyboard album st'.
  assert (Hlen : length (sort_by media_le (media_of (db st) postId))
                 = length (media_of (db st) postId))
    by (apply Permutation_length, sort_by_permutation).
  assert (Hblen : length (sort_by button_le (buttons_of (db st) postId))
                  = length (buttons_of (db st) postId))
    by (apply Permutation_length, sort_by_permutation).
  assert (Hfind : find (fun q => Post.id q =? postId)
                    (map (fun q => if Post.id q =? postId
                                   then PostPatch.apply failed_patch q else q)
                       (posts (db st)))
                  = Some (PostPatch.apply failed_patch p)).
  { unfold find_post in Hp. clear -Hp.
    induction (posts (db st)) as [|q l IH]; [discriminate|]. simpl in *.
    destruct (Post.id q =? postId) eqn:E.
    - injection Hp as ->. simpl. rewrite E. reflexivity.
    - rewrite E. apply IH. exact Hp. }
  cbv beta iota delta
    [publishPostToTelegram try_catch bind getPostById updatePost newDate ret throw prisma
     telegram ignore post_findUnique post_update].
  repeat rewrite Hnf. simpl. rewrite Hp. simpl. rewrite Hc.
  destruct (sort_by media_le (media_of (db st) postId)) as [|m1 [|m2 ms]];
    [simpl in Hlen; lia | simpl in Hlen; lia |].
  destruct (sort_by button_le (buttons_of (db st) postId)) as [|b bs] eqn:Eb.
  { destruct (buttons_of (db st) postId); [contradiction | discriminate]. }
  simpl. rewrite Htg1. simpl. rewrite Htg2. simpl. rewrite Hnf. simpl. rewrite Hp. simpl.
  split; [reflexivity|]. split.
  - rewrite <- app_assoc. reflexivity.
  - unfold find_post. simpl. exact Hfind.
Qed.

Lemma album_without_keyboard_is_recorded_failed_witness :
  let env := Examples.env_of Examples.no_fault MoreExamples.second_request_rejected in
  let st := Examples.state_of Examples.catalogue in
  fst (publishPostToTelegram 1 env st) = Ok false
  /\ map snd (apiLog (snd (publishPostToTelegram 1 env st)))
     = [Delivered 77; Rejected "Bad Request: BUTTON_URL_INVALID"]
  /\ option_map Post.status (find_post (db (snd (publishPostToTelegram 1 env st))) 1)
     = Some PostStatus.FAILED.
Proof.
  destruct (album_without_keyboard_is_recorded_failed
              (Examples.env_of Examples.no_fault MoreExamples.second_request_rejected)
              (Examples.state_of Examples.catalogue) 1 Examples.told Examples.news 77
              "Bad Request: BUTTON_URL_INVALID") as [Hresult [Hlog Hpost]].
  - intros n. reflexivity.
  - reflexivity.
  - reflexivity.
  - simpl. lia.
  - discriminate.
  - reflexivity.
  - reflexivity.
  - split; [exact Hresult|]. split.
    + rewrite Hlog. reflexivity.
    + rewrite Hpost. reflexivity.
Defined.

Lemma anchored_pattern_iff (word data : string) (n : JsNumber) :
  option_map parseInt (anchored_pattern word data) = Some n
  <-> word_then_number word data n.
Proof.
  unfold anchored_pattern, word_then_number. split.
  - intros H. destruct (strip_prefix word data) as [rest|] eqn:E; [|discriminate].
    apply strip_prefix_spec in E.
    destruct (digits_to_end rest) as [digits|] eqn:Ed; [|discriminate].
    injection H as <-.
    assert (Hne : digits <> EmptyString).
    { unfold digits_to_end in Ed. destruct (take_digits rest) as [[|c d] [|r rs]];
        try discriminate. injection Ed as <-. discriminate. }
    apply digits_to_end_spec in Ed as [-> Hd].
    exists digits. auto.
  - intros [digits (-> & Hne & Hd & ->)].
    rewrite strip_prefix_app.
    destruct digits as [|c digits]; [contradiction|].
    rewrite (digits_to_end_digits c digits Hd). reflexivity.
Qed.

Lemma no_digit_suffix (c : ascii) (s : string) : no_digit (String c s) = true -> no_digit s = true.
Proof. simpl. intros H. apply andb_true_iff in H. apply H. Qed.

Lemma no_digit_app (a b : string) : no_digit (a +++ b) = no_digit a && no_digit b.
Proof.
  induction a as [|c a IH]; simpl; [reflexivity|]. rewrite IH, andb_assoc. reflexivity.
Qed.

Lemma search_needs_digit {A : Type} (pattern : string -> option A) (data : string) :
  (forall s m, pattern s = Some m -> no_digit s = false) ->
  no_digit data = true -> search pattern data = None.
Proof.
  intros Hp. induction data as [|c data IH]; intros H.
  - simpl. destruct (pattern EmptyString) eqn:E; [|reflexivity].
    apply Hp in E. discriminate.
  - cbn [search]. destruct (pattern (String c data)) eqn:E.
    + apply Hp in E. congruence.
    + apply IH. apply (no_digit_suffix c). exact H.
Qed.

Lemma leading_digit (rest digits tail : string) (x : ascii) :
  take_digits rest = (String x digits, tail) -> no_digit rest = false.
Proof.
  intros H. destruct rest as [|y rest]; [discriminate|]. simpl in *.
  destruct (is_digit y); [reflexivity | discriminate].
Qed.

Lemma channel_pattern_digit (s m : string) : channel_pattern s = Some m -> no_digit s = false.
Proof.
  unfold channel_pattern, digits_to_end. intros H.
  destruct (strip_prefix "_" s) as [rest|] eqn:E; [|discriminate].
  apply strip_prefix_spec in E. subst s.
  destruct (take_digits rest) as [[|x d] tail] eqn:Et; [discriminate|].
  rewrite no_digit_app, (leading_digit rest d tail x Et). apply andb_false_r.
Qed.

Lemma post_pattern_digit (s m : string) : post_pattern s = Some m -> no_digit s = false.
Proof.
  unfold post_pattern. intros H.
  destruct (strip_prefix "_" s) as [rest|] eqn:E; [|discriminate].
  apply strip_prefix_spec in E. subst s.
  destruct (take_digits rest) as [[|x d] tail] eqn:Et; [discriminate|].
  rewrite no_digit_app, (leading_digit rest d tail x Et). apply andb_false_r.
Qed.

Lemma page_pattern_digit (s m : string) : page_pattern s = Some m -> no_digit s = false.
Proof.
  unfold page_pattern, digits_to_end. intros H.
  destruct (strip_prefix "_pg_" s) as [rest|] eqn:E; [|discriminate].
  apply strip_prefix_spec in E. subst s.
  destruct (take_digits rest) as [[|x d] tail] eqn:Et; [discriminate|].
  rewrite no_digit_app, (leading_digit rest d tail x Et). apply andb_false_r.
Qed.

(** X25.  What the decoders refuse: [parseHour] reads exactly the data
    that are [tim_] followed by digits and nothing else, [parseMinute]
    exactly [min_] followed by digits, and what they return is the number
    [parseInt] makes of the digits (the double nearest to the integer
    written); the back button of the time picker is not read as an hour;
    and data without any digit yield no channel id, no post id and no
    page. *)
Theorem decoders_refuse_other_data (data : string) :
  (forall n, parseHour data = Some n <-> word_then_number "tim_" data n)
  /\ (forall n, parseMinute data = Some n <-> word_then_number "min_" data n)
  /\ parseHour CallbackPrefix.TIME_BACK = None
  /\ (no_digit data = true ->
      parseChannelId data = None /\ parsePostId data = None /\ parsePage data = None).
Proof.
  split; [|split; [|split]].
  - intros n. apply anchored_pattern_iff.
  - intros n. apply anchored_pattern_iff.
  - reflexivity.
  - intros H. unfold parseChannelId, parsePostId, parsePage.
    rewrite (search_needs_digit channel_pattern data channel_pattern_digit H),
      (search_needs_digit post_pattern data post_pattern_digit H),
      (search_needs_digit page_pattern data page_pattern_digit H).
    auto.
Qed.
